(** * Column codecs of chconn: a shallow embedding and its properties

    The development follows the Go sources of package [column]:
    - [column/uint64.go]        : the [Uint64] scalar column,
    - the [DateTime] scalar column (same layout, 4-byte epoch seconds),
    - [column/array_nullable.go]: [ArrayNullable], arrays of nullable values.

    Go values are embedded as follows.
    - [byte] is [Init.Byte.byte]; [byte(x)] is [byte.of_Z x] (reduction modulo 256).
    - [uint64], [uint32], [int64] and [int] are [Z]; arithmetic on [int] goes
      through [int_add], which writes the 64-bit two's-complement wrap-around out.
    - A slice is the list of its elements.  Spare capacity is not modelled: a
      slice expression reaching beyond the length is a run-time panic here.
    - A run-time panic is the outcome [Panic]; loops are run on fuel and report
      [OutOfFuel] when it does not suffice. *)

From Stdlib Require Import ZArith List Lia Bool.
From stdpp Require Import gmap list.
From coqutil Require Import Byte Word.LittleEndianList.

Local Open Scope Z_scope.

(** ** Outcomes of Go code that may panic *)

Inductive outcome (A : Type) : Type :=
| Done (a : A)
| Panic
| OutOfFuel.
Arguments Done {A} a.
Arguments Panic {A}.
Arguments OutOfFuel {A}.

#[global] Instance outcome_ret : MRet outcome := fun A a => Done a.

#[global] Instance outcome_bind : MBind outcome := fun A B k m =>
  match m with
  | Done a => k a
  | Panic => Panic
  | OutOfFuel => OutOfFuel
  end.

Definition of_option {A : Type} (o : option A) : outcome A :=
  match o with
  | Some a => Done a
  | None => Panic
  end.

(** ** Go integers *)

Definition max_int : Z := 2 ^ 63 - 1.

(** Two's-complement wrap-around of a 64-bit signed integer. *)
Definition wrap_int (z : Z) : Z := (z + 2 ^ 63) mod 2 ^ 64 - 2 ^ 63.

(** [a + b] on Go's [int]. *)
Definition int_add (a b : Z) : Z := wrap_int (a + b).

(** [a / b] on Go's [int]: truncated division, a run-time panic when [b]
    is zero. *)
Definition int_quot (a b : Z) : option Z :=
  if b =? 0 then None else Some (wrap_int (Z.quot a b)).

Definition is_uint64 (v : Z) : Prop := 0 <= v < 2 ^ 64.
Definition is_int64 (v : Z) : Prop := - 2 ^ 63 <= v < 2 ^ 63.

(** [len(s)] as an [int]. *)
Definition len {A : Type} (s : list A) : Z := Z.of_nat (length s).

(** The slice expression [s[lo:hi]]. *)
Definition slice {A : Type} (s : list A) (lo hi : Z) : option (list A) :=
  if (0 <=? lo) && (lo <=? hi) && (hi <=? len s)
  then Some (take (Z.to_nat (hi - lo)) (drop (Z.to_nat lo) s))
  else None.

(** The index expression [s[k]]. *)
Definition index {A : Type} (s : list A) (k : Z) : option A :=
  if 0 <=? k then s !! Z.to_nat k else None.

(** ** encoding/binary *)

(** [binary.LittleEndian.Uint64(b)]: panics when [b] has fewer than 8 bytes. *)
Definition LittleEndian_Uint64 (b : list byte) : option Z :=
  match b with
  | b0 :: b1 :: b2 :: b3 :: b4 :: b5 :: b6 :: b7 :: _ =>
      Some (Z.lor (Z.lor (Z.lor (Z.lor (Z.lor (Z.lor (Z.lor
              (byte.unsigned b0)
              (Z.shiftl (byte.unsigned b1) 8))
              (Z.shiftl (byte.unsigned b2) 16))
              (Z.shiftl (byte.unsigned b3) 24))
              (Z.shiftl (byte.unsigned b4) 32))
              (Z.shiftl (byte.unsigned b5) 40))
              (Z.shiftl (byte.unsigned b6) 48))
              (Z.shiftl (byte.unsigned b7) 56))
  | _ => None
  end.

(** [binary.LittleEndian.Uint32(b)]: panics when [b] has fewer than 4 bytes. *)
Definition LittleEndian_Uint32 (b : list byte) : option Z :=
  match b with
  | b0 :: b1 :: b2 :: b3 :: _ =>
      Some (Z.lor (Z.lor (Z.lor
              (byte.unsigned b0)
              (Z.shiftl (byte.unsigned b1) 8))
              (Z.shiftl (byte.unsigned b2) 16))
              (Z.shiftl (byte.unsigned b3) 24))
  | _ => None
  end.

(** ** Package-level declarations that live outside the given sources *)

(** Modelled from the spec: the constant [Uint64Size] is declared outside the
    given sources; the wire format fixes 8 bytes for 64-bit integers. *)
Definition Uint64Size : Z := 8.

(** Modelled from the spec: the constant [DatetimeSize] is declared outside the
    given sources; the wire format fixes 4 bytes for 32-bit epoch-second
    timestamps. *)
Definition DatetimeSize : Z := 4.

(** Modelled from the spec: the table [emptyByte] is declared outside the given
    sources; [AppendEmpty] appends [elementWidth] zero bytes taken from it, so
    it is a zero-filled table at least as long as the widest element. *)
Definition emptyByte : list byte := repeat Byte.x00 1024.

(** ** The nullability bitmap held by every column *)

Module Nullable.

(** Modelled from the spec: the type returned by [newNullable] is declared
    outside the given sources.  It holds one byte per row, [1] for null and
    [0] for non-null: [b] is the bitmap of the block being decoded and
    [writerData] the bitmap of the block being built. *)
Record t : Type := mk {
  b : list byte;
  writerData : list byte;
}.

Definition newNullable : t := {| b := []; writerData := [] |}.

(** Modelled from the spec: [Append] is append-only on the built bitmap. *)
Definition Append (v : byte) (n : t) : t :=
  {| b := b n; writerData := writerData n ++ [v] |}.

(** Modelled from the spec: reset clears the built bitmap. *)
Definition Reset (n : t) : t :=
  {| b := b n; writerData := [] |}.

End Nullable.

(** ** The state shared by all scalar columns *)

Module column.

(** Modelled from the spec: the embedded struct [column] is declared outside
    the given sources.  Its fields are the ones the scalar columns use:
    the read buffer [b], the cursor [i], the end of the block [totalByte],
    the element width [size], the row count [numRow], the [nullable] flag,
    the bitmap [colNullable] and the write buffer [writerData]. *)
Record t : Type := mk {
  b : list byte;
  i : Z;
  totalByte : Z;
  size : Z;
  numRow : Z;
  nullable : bool;
  colNullable : Nullable.t;
  writerData : list byte;
}.

Definition set_i (x : Z) (c : t) : t :=
  mk (b c) x (totalByte c) (size c) (numRow c) (nullable c) (colNullable c) (writerData c).

Definition set_numRow (x : Z) (c : t) : t :=
  mk (b c) (i c) (totalByte c) (size c) x (nullable c) (colNullable c) (writerData c).

Definition set_colNullable (x : Nullable.t) (c : t) : t :=
  mk (b c) (i c) (totalByte c) (size c) (numRow c) (nullable c) x (writerData c).

Definition set_writerData (x : list byte) (c : t) : t :=
  mk (b c) (i c) (totalByte c) (size c) (numRow c) (nullable c) (colNullable c) x.

(** Modelled from the spec: [column.Reset] is declared outside the given
    sources; reset clears the write buffer, the row count and the bitmap and
    does not touch the read buffer or the cursor. *)
Definition Reset (c : t) : t :=
  mk (b c) (i c) (totalByte c) (size c) 0 (nullable c)
     (Nullable.Reset (colNullable c)) [].

End column.

(** ** [Uint64]: the UInt64 column of [column/uint64.go] *)

Module Uint64.

Record t : Type := mk {
  col : column.t;
  val : Z;
  dict : gmap Z Z;
  keys : list Z;
}.

Definition set_col (x : column.t) (c : t) : t := mk x (val c) (dict c) (keys c).
Definition set_val (x : Z) (c : t) : t := mk (col c) x (dict c) (keys c).
Definition set_dict (x : gmap Z Z) (c : t) : t := mk (col c) (val c) x (keys c).
Definition set_keys (x : list Z) (c : t) : t := mk (col c) (val c) (dict c) x.

Definition NewUint64 (nullable : bool) : t :=
  {| col := {| column.b := []; column.i := 0; column.totalByte := 0;
               column.size := Uint64Size; column.numRow := 0;
               column.nullable := nullable;
               column.colNullable := Nullable.newNullable;
               column.writerData := [] |};
     val := 0;
     dict := ∅;
     keys := [] |}.

(** [Next]: the result is the returned boolean and the column afterwards. *)
Definition Next (c : t) : outcome (bool * t) :=
  if column.i (col c) >=? column.totalByte (col c) then Done (false, c)
  else
    let c1 := set_col (column.set_i (int_add (column.i (col c)) (column.size (col c))) (col c)) c in
    s ← of_option (slice (column.b (col c1))
                         (int_add (column.i (col c1)) (- column.size (col c1)))
                         (column.i (col c1)));
    v ← of_option (LittleEndian_Uint64 s);
    Done (true, set_val v c1).

Definition Value (c : t) : Z := val c.

(** The caller's sequential read, [for c.Next() { value = append(value, c.Value()) }]:
    the column afterwards and the values collected. *)
Fixpoint Next_loop (fuel : nat) (c : t) (value : list Z) : outcome (t * list Z) :=
  match fuel with
  | O => OutOfFuel
  | S fuel' =>
      '(ok, c1) ← Next c;
      if ok : bool then Next_loop fuel' c1 (value ++ [Value c1]) else Done (c1, value)
  end.

(** The loop of [ReadAll]; [i] is the loop variable, [value] the slice
    behind the pointer argument. *)
Fixpoint ReadAll_loop (fuel : nat) (c : t) (i : Z) (value : list Z) : outcome (list Z) :=
  if i <? column.totalByte (col c) then
    match fuel with
    | O => OutOfFuel
    | S fuel' =>
        s ← of_option (slice (column.b (col c)) i (int_add i (column.size (col c))));
        v ← of_option (LittleEndian_Uint64 s);
        ReadAll_loop fuel' c (int_add i (column.size (col c))) (value ++ [v])
    end
  else Done value.

(** [ReadAll]: the result is the column afterwards and the slice behind
    [value] afterwards.  Every iteration that does not panic moves [i]
    forward by at least 8, so [totalByte] units of fuel are enough. *)
Definition ReadAll (c : t) (value : list Z) : outcome (t * list Z) :=
  value' ← ReadAll_loop (Z.to_nat (column.totalByte (col c))) c 0 value;
  Done (c, value').

Definition Append (v : Z) (c : t) : t :=
  let c1 := set_col (column.set_numRow (int_add (column.numRow (col c)) 1) (col c)) c in
  set_col (column.set_writerData
             (column.writerData (col c1) ++
                [byte.of_Z v;
                 byte.of_Z (Z.shiftr v 8);
                 byte.of_Z (Z.shiftr v 16);
                 byte.of_Z (Z.shiftr v 24);
                 byte.of_Z (Z.shiftr v 32);
                 byte.of_Z (Z.shiftr v 40);
                 byte.of_Z (Z.shiftr v 48);
                 byte.of_Z (Z.shiftr v 56)])
             (col c1)) c1.

Definition AppendEmpty (c : t) : outcome t :=
  let c1 := set_col (column.set_numRow (int_add (column.numRow (col c)) 1) (col c)) c in
  z ← of_option (slice emptyByte 0 (column.size (col c1)));
  Done (set_col (column.set_writerData (column.writerData (col c1) ++ z) (col c1)) c1).

Definition AppendP (v : option Z) (c : t) : outcome t :=
  match v with
  | None =>
      c1 ← AppendEmpty c;
      Done (set_col (column.set_colNullable
                       (Nullable.Append Byte.x01 (column.colNullable (col c1))) (col c1)) c1)
  | Some x =>
      let c1 := set_col (column.set_colNullable
                           (Nullable.Append Byte.x00 (column.colNullable (col c))) (col c)) c in
      Done (Append x c1)
  end.

(** The dictionary lookup and insertion shared by [AppendDict] and
    [AppendDictP]: the key found or assigned, and the column afterwards. *)
Definition dict_key (v : Z) (c : t) : Z * t :=
  match dict c !! v with
  | Some key => (key, c)
  | None =>
      let key := Z.of_nat (size (dict c)) in
      (key, Append v (set_dict (<[v := key]> (dict c)) c))
  end.

Definition AppendDict (v : Z) (c : t) : t :=
  let '(key, c1) := dict_key v c in
  if column.nullable (col c1)
  then set_keys (keys c1 ++ [int_add key 1]) c1
  else set_keys (keys c1 ++ [key]) c1.

Definition AppendDictNil (c : t) : t := set_keys (keys c ++ [0]) c.

Definition AppendDictP (v : option Z) (c : t) : t :=
  match v with
  | None => set_keys (keys c ++ [0]) c
  | Some x =>
      let '(key, c1) := dict_key x c in
      set_keys (keys c1 ++ [int_add key 1]) c1
  end.

Definition Keys (c : t) : list Z := keys c.

Definition Reset (c : t) : t :=
  set_dict ∅ (set_keys [] (set_col (column.Reset (col c)) c)).

(** The loop of [Fill]: one iteration per element of [value], whose old
    contents are overwritten; [filled] holds the elements written so far. *)
Fixpoint Fill_loop (todo : list Z) (c : t) (filled : list Z) : outcome (t * list Z) :=
  match todo with
  | [] => Done (c, filled)
  | _ :: todo' =>
      s ← of_option (slice (column.b (col c)) (column.i (col c))
                           (int_add (column.i (col c)) (column.size (col c))));
      v ← of_option (LittleEndian_Uint64 s);
      Fill_loop todo'
        (set_col (column.set_i (int_add (column.i (col c)) (column.size (col c))) (col c)) c)
        (filled ++ [v])
  end.

(** [Fill]: the column afterwards and the slice [value] afterwards. *)
Definition Fill (value : list Z) (c : t) : outcome (t * list Z) :=
  Fill_loop value c [].

(** [ValueP]: [None] is the nil pointer. *)
Definition ValueP (c : t) : outcome (option Z) :=
  k ← of_option (int_quot (int_add (column.i (col c)) (- column.size (col c)))
                          (column.size (col c)));
  m ← of_option (index (Nullable.b (column.colNullable (col c))) k);
  if byte.unsigned m =? 1 then Done None else Done (Some (val c)).

(** The caller's sequential read of nullable data,
    [for c.Next() { value = append(value, c.ValueP()) }]. *)
Fixpoint NextP_loop (fuel : nat) (c : t) (value : list (option Z))
  : outcome (t * list (option Z)) :=
  match fuel with
  | O => OutOfFuel
  | S fuel' =>
      '(ok, c1) ← Next c;
      if ok : bool then
        v ← ValueP c1;
        NextP_loop fuel' c1 (value ++ [v])
      else Done (c1, value)
  end.

(** The loop of [ReadAllP]. *)
Fixpoint ReadAllP_loop (fuel : nat) (c : t) (i : Z) (value : list (option Z))
  : outcome (list (option Z)) :=
  if i <? column.totalByte (col c) then
    match fuel with
    | O => OutOfFuel
    | S fuel' =>
        k ← of_option (int_quot i (column.size (col c)));
        m ← of_option (index (Nullable.b (column.colNullable (col c))) k);
        if negb (byte.unsigned m =? 0) then
          ReadAllP_loop fuel' c (int_add i (column.size (col c))) (value ++ [None])
        else
          s ← of_option (slice (column.b (col c)) i (int_add i (column.size (col c))));
          v ← of_option (LittleEndian_Uint64 s);
          ReadAllP_loop fuel' c (int_add i (column.size (col c))) (value ++ [Some v])
    end
  else Done value.

(** [ReadAllP].  With a positive element width every iteration moves [i]
    forward, so [totalByte] units of fuel are enough. *)
Definition ReadAllP (c : t) (value : list (option Z)) : outcome (t * list (option Z)) :=
  value' ← ReadAllP_loop (Z.to_nat (column.totalByte (col c))) c 0 value;
  Done (c, value').

(** The loop of [FillP]. *)
Fixpoint FillP_loop (todo : list (option Z)) (c : t) (filled : list (option Z))
  : outcome (t * list (option Z)) :=
  match todo with
  | [] => Done (c, filled)
  | _ :: todo' =>
      k ← of_option (int_quot (column.i (col c)) (column.size (col c)));
      m ← of_option (index (Nullable.b (column.colNullable (col c))) k);
      if byte.unsigned m =? 1 then
        FillP_loop todo'
          (set_col (column.set_i (int_add (column.i (col c)) (column.size (col c))) (col c)) c)
          (filled ++ [None])
      else
        s ← of_option (slice (column.b (col c)) (column.i (col c))
                             (int_add (column.i (col c)) (column.size (col c))));
        v ← of_option (LittleEndian_Uint64 s);
        FillP_loop todo'
          (set_col (column.set_i (int_add (column.i (col c)) (column.size (col c))) (col c)) c)
          (filled ++ [Some v])
  end.

Definition FillP (value : list (option Z)) (c : t) : outcome (t * list (option Z)) :=
  FillP_loop value c [].

End Uint64.

(** ** Go's [time.Time], as far as the DateTime column observes it *)

Module time.

(** An instant: seconds since the Unix epoch (an [int64]) and the
    nanoseconds within that second. *)
Record Time : Type := mk {
  sec : Z;
  nsec : Z;
}.

#[global] Instance Time_eq_dec : EqDecision Time.
Proof. solve_decision. Defined.

#[global] Instance Time_countable : Countable Time :=
  inj_countable' (fun t => (sec t, nsec t)) (fun p => mk p.1 p.2)
                 (fun t => match t with mk _ _ => eq_refl end).

(** [time.Unix(sec, nsec)]: nanoseconds outside [0, 1e9) are carried into
    the seconds. *)
Definition Unix (s n : Z) : Time :=
  if (n <? 0) || (n >=? 1000000000) then
    let q := Z.quot n 1000000000 in
    let s1 := s + q in
    let n1 := n - q * 1000000000 in
    if n1 <? 0 then mk (s1 - 1) (n1 + 1000000000) else mk s1 n1
  else mk s n.

(** [t.Unix()] *)
Definition Time_Unix (t : Time) : Z := sec t.

End time.

(** ** [DateTime]: the DateTime column *)

Module DateTime.

Record t : Type := mk {
  col : column.t;
  val : time.Time;
  dict : gmap time.Time Z;
  keys : list Z;
}.

Definition set_col (x : column.t) (c : t) : t := mk x (val c) (dict c) (keys c).
Definition set_val (x : time.Time) (c : t) : t := mk (col c) x (dict c) (keys c).

(** The zero [time.Time] is January 1, year 1, 00:00 UTC. *)
Definition NewDateTime (nullable : bool) : t :=
  {| col := {| column.b := []; column.i := 0; column.totalByte := 0;
               column.size := DatetimeSize; column.numRow := 0;
               column.nullable := nullable;
               column.colNullable := Nullable.newNullable;
               column.writerData := [] |};
     val := time.mk (-62135596800) 0;
     dict := ∅;
     keys := [] |}.

Definition Next (c : t) : outcome (bool * t) :=
  if column.i (col c) >=? column.totalByte (col c) then Done (false, c)
  else
    let c1 := set_col (column.set_i (int_add (column.i (col c)) (column.size (col c))) (col c)) c in
    s ← of_option (slice (column.b (col c1))
                         (int_add (column.i (col c1)) (- column.size (col c1)))
                         (column.i (col c1)));
    v ← of_option (LittleEndian_Uint32 s);
    Done (true, set_val (time.Unix v 0) c1).

Definition Value (c : t) : time.Time := val c.

(** The caller's sequential read, [for c.Next() { value = append(value, c.Value()) }]. *)
Fixpoint Next_loop (fuel : nat) (c : t) (value : list time.Time)
  : outcome (t * list time.Time) :=
  match fuel with
  | O => OutOfFuel
  | S fuel' =>
      '(ok, c1) ← Next c;
      if ok : bool then Next_loop fuel' c1 (value ++ [Value c1]) else Done (c1, value)
  end.

Fixpoint ReadAll_loop (fuel : nat) (c : t) (i : Z) (value : list time.Time)
  : outcome (list time.Time) :=
  if i <? column.totalByte (col c) then
    match fuel with
    | O => OutOfFuel
    | S fuel' =>
        s ← of_option (slice (column.b (col c)) i (int_add i (column.size (col c))));
        v ← of_option (LittleEndian_Uint32 s);
        ReadAll_loop fuel' c (int_add i (column.size (col c))) (value ++ [time.Unix v 0])
    end
  else Done value.

Definition ReadAll (c : t) (value : list time.Time) : outcome (t * list time.Time) :=
  value' ← ReadAll_loop (Z.to_nat (column.totalByte (col c))) c 0 value;
  Done (c, value').

Definition Append (v : time.Time) (c : t) : outcome t :=
  let c1 := set_col (column.set_numRow (int_add (column.numRow (col c)) 1) (col c)) c in
  if time.Time_Unix v <=? 0 then
    z ← of_option (slice emptyByte 0 (column.size (col c1)));
    Done (set_col (column.set_writerData (column.writerData (col c1) ++ z) (col c1)) c1)
  else
    let timestamp := time.Time_Unix v in
    Done (set_col (column.set_writerData
                     (column.writerData (col c1) ++
                        [byte.of_Z timestamp;
                         byte.of_Z (Z.shiftr timestamp 8);
                         byte.of_Z (Z.shiftr timestamp 16);
                         byte.of_Z (Z.shiftr timestamp 24)])
                     (col c1)) c1).

Definition AppendEmpty (c : t) : outcome t :=
  let c1 := set_col (column.set_numRow (int_add (column.numRow (col c)) 1) (col c)) c in
  z ← of_option (slice emptyByte 0 (column.size (col c1)));
  Done (set_col (column.set_writerData (column.writerData (col c1) ++ z) (col c1)) c1).

(** The loop of [Fill]: one iteration per element of [value]; [filled]
    holds the elements written so far. *)
Fixpoint Fill_loop (todo : list time.Time) (c : t) (filled : list time.Time)
  : outcome (t * list time.Time) :=
  match todo with
  | [] => Done (c, filled)
  | _ :: todo' =>
      s ← of_option (slice (column.b (col c)) (column.i (col c))
                           (int_add (column.i (col c)) (column.size (col c))));
      v ← of_option (LittleEndian_Uint32 s);
      Fill_loop todo'
        (set_col (column.set_i (int_add (column.i (col c)) (column.size (col c))) (col c)) c)
        (filled ++ [time.Unix v 0])
  end.

Definition Fill (value : list time.Time) (c : t) : outcome (t * list time.Time) :=
  Fill_loop value c [].

Definition ValueP (c : t) : outcome (option time.Time) :=
  k ← of_option (int_quot (int_add (column.i (col c)) (- column.size (col c)))
                          (column.size (col c)));
  m ← of_option (index (Nullable.b (column.colNullable (col c))) k);
  if byte.unsigned m =? 1 then Done None else Done (Some (val c)).

(** The caller's sequential read of nullable data,
    [for c.Next() { value = append(value, c.ValueP()) }]. *)
Fixpoint NextP_loop (fuel : nat) (c : t) (value : list (option time.Time))
  : outcome (t * list (option time.Time)) :=
  match fuel with
  | O => OutOfFuel
  | S fuel' =>
      '(ok, c1) ← Next c;
      if ok : bool then
        v ← ValueP c1;
        NextP_loop fuel' c1 (value ++ [v])
      else Done (c1, value)
  end.

Fixpoint ReadAllP_loop (fuel : nat) (c : t) (i : Z) (value : list (option time.Time))
  : outcome (list (option time.Time)) :=
  if i <? column.totalByte (col c) then
    match fuel with
    | O => OutOfFuel
    | S fuel' =>
        k ← of_option (int_quot i (column.size (col c)));
        m ← of_option (index (Nullable.b (column.colNullable (col c))) k);
        if negb (byte.unsigned m =? 0) then
          ReadAllP_loop fuel' c (int_add i (column.size (col c))) (value ++ [None])
        else
          s ← of_option (slice (column.b (col c)) i (int_add i (column.size (col c))));
          v ← of_option (LittleEndian_Uint32 s);
          ReadAllP_loop fuel' c (int_add i (column.size (col c)))
            (value ++ [Some (time.Unix v 0)])
    end
  else Done value.

(** [ReadAllP].  With a positive element width every iteration moves [i]
    forward, so [totalByte] units of fuel are enough. *)
Definition ReadAllP (c : t) (value : list (option time.Time))
  : outcome (t * list (option time.Time)) :=
  value' ← ReadAllP_loop (Z.to_nat (column.totalByte (col c))) c 0 value;
  Done (c, value').

Fixpoint FillP_loop (todo : list (option time.Time)) (c : t)
    (filled : list (option time.Time)) : outcome (t * list (option time.Time)) :=
  match todo with
  | [] => Done (c, filled)
  | _ :: todo' =>
      k ← of_option (int_quot (column.i (col c)) (column.size (col c)));
      m ← of_option (index (Nullable.b (column.colNullable (col c))) k);
      if byte.unsigned m =? 1 then
        FillP_loop todo'
          (set_col (column.set_i (int_add (column.i (col c)) (column.size (col c))) (col c)) c)
          (filled ++ [None])
      else
        s ← of_option (slice (column.b (col c)) (column.i (col c))
                             (int_add (column.i (col c)) (column.size (col c))));
        v ← of_option (LittleEndian_Uint32 s);
        FillP_loop todo'
          (set_col (column.set_i (int_add (column.i (col c)) (column.size (col c))) (col c)) c)
          (filled ++ [Some (time.Unix v 0)])
  end.

Definition FillP (value : list (option time.Time)) (c : t)
  : outcome (t * list (option time.Time)) :=
  FillP_loop value c [].

Definition AppendP (v : option time.Time) (c : t) : outcome t :=
  match v with
  | None =>
      c1 ← AppendEmpty c;
      Done (set_col (column.set_colNullable
                       (Nullable.Append Byte.x01 (column.colNullable (col c1))) (col c1)) c1)
  | Some x =>
      let c1 := set_col (column.set_colNullable
                           (Nullable.Append Byte.x00 (column.colNullable (col c))) (col c)) c in
      Append x c1
  end.

End DateTime.

(** ** [ArrayNullable]: Array(Nullable(T)) of [column/array_nullable.go] *)

Module ArrayNullable.
Section WithTypes.

(** [T] is the element type; a [*T] is an [option T], [nil] being [None]. *)
Context {T : Type}.
(** Values of Go's [any], and the boxing of a [[]*T] into one. *)
Context {Any : Type} (to_any : list (option T) -> Any).
(** Element values of a destination slice whose element type is not [*T],
    and the errors the inner column's [Scan] reports. *)
Context {U E : Type}.

(** Modelled from the spec: the offset column [Base[uint64]] is declared
    outside the given sources.  [decoded] is the offset track of the block
    being read, one cumulative count per row, [numRow] its row count, and
    [appended] the offset track of the block being built. *)
Record Base : Type := mkBase {
  decoded : list Z;
  numRow : Z;
  appended : list Z;
}.

Definition New : Base := {| decoded := []; numRow := 0; appended := [] |}.

(** Modelled from the spec: [offsetColumn.Row(i)] is [offset[i]]; an index
    outside the block panics. *)
Definition Base_Row (row : Z) (o : Base) : outcome Z :=
  of_option (index (decoded o) row).

(** Modelled from the spec: [offsetColumn.Append] pushes one value onto the
    offset track being built and counts the row. *)
Definition Base_Append (v : Z) (o : Base) : Base :=
  {| decoded := decoded o; numRow := int_add (numRow o) 1; appended := appended o ++ [v] |}.

Definition Base_Reset (o : Base) : Base :=
  {| decoded := decoded o; numRow := 0; appended := [] |}.

(** Modelled from the spec: the interface [NullableColumn[T]] is declared
    outside the given sources.  [data] is the flat sequence of optional
    values of the block being read, which [DataP] returns, and [written]
    the optional values appended to the block being built. *)
Record NullableColumn : Type := mkNullableColumn {
  data : list (option T);
  written : list (option T);
}.

Definition NullableColumn_DataP (d : NullableColumn) : list (option T) := data d.

Definition NullableColumn_AppendP (v : option T) (d : NullableColumn) : NullableColumn :=
  {| data := data d; written := written d ++ [v] |}.

Definition NullableColumn_AppendMultiP (v : list (option T)) (d : NullableColumn)
  : NullableColumn :=
  {| data := data d; written := written d ++ v |}.

Definition NullableColumn_Reset (d : NullableColumn) : NullableColumn :=
  {| data := data d; written := [] |}.

(** The inner column's [Scan(i, dest)] for a destination element of type
    [U] is outside the given sources: it is a parameter.  It reports an
    error or the converted element. *)
Context (NullableColumn_Scan : NullableColumn -> Z -> outcome (E + U)).

(** The column.  [offset] is the running cumulative count kept by
    [ArrayBase] for [AppendLen]. *)
Record t : Type := mk {
  offsetColumn : Base;
  offset : Z;
  dataColumn : NullableColumn;
  columnData : list (option T);
}.

Definition set_offsetColumn (x : Base) (c : t) : t :=
  mk x (offset c) (dataColumn c) (columnData c).
Definition set_offset (x : Z) (c : t) : t :=
  mk (offsetColumn c) x (dataColumn c) (columnData c).
Definition set_dataColumn (x : NullableColumn) (c : t) : t :=
  mk (offsetColumn c) (offset c) x (columnData c).
Definition set_columnData (x : list (option T)) (c : t) : t :=
  mk (offsetColumn c) (offset c) (dataColumn c) x.

Definition NewArrayNullable (dataColumn : NullableColumn) : t :=
  {| offsetColumn := New; offset := 0; dataColumn := dataColumn; columnData := [] |}.

(** The closure installed as [resetHook]: [a.columnData = a.columnData[:0]]. *)
Definition resetHook (c : t) : t := set_columnData [] c.

(** Modelled from the spec: [ArrayBase.Reset] is declared outside the given
    sources; reset clears the built offsets and the inner column and runs
    the reset hook, which invalidates the materialized view. *)
Definition Reset (c : t) : t :=
  resetHook {| offsetColumn := Base_Reset (offsetColumn c); offset := 0;
               dataColumn := NullableColumn_Reset (dataColumn c);
               columnData := columnData c |}.

(** Modelled from the spec: [ArrayBase.AppendLen] is declared outside the
    given sources; it pushes [previousCumulative + n] onto the offset
    track.  The cumulative count is a [uint64]. *)
Definition AppendLen (v : Z) (c : t) : t :=
  let c1 := set_offset ((offset c + v) mod 2 ^ 64) c in
  set_offsetColumn (Base_Append (offset c1) (offsetColumn c1)) c1.

(** [getColumnData]: the slice returned and the column afterwards. *)
Definition getColumnData (c : t) : list (option T) * t :=
  if len (columnData c) =? 0
  then
    let c1 := set_columnData (NullableColumn_DataP (dataColumn c)) c in
    (columnData c1, c1)
  else (columnData c, c).

(** The loop shared by [DataP] and [ReadP]: [todo] holds the row numbers still
    to visit. *)
Fixpoint rows_loop (o : Base) (columnData : list (option T)) (todo : list Z)
    (lastOffset : Z) (value : list (list (option T)))
  : outcome (list (list (option T))) :=
  match todo with
  | [] => Done value
  | i :: todo' =>
      hi ← Base_Row i o;
      s ← of_option (slice columnData lastOffset hi);
      lastOffset' ← Base_Row i o;
      rows_loop o columnData todo' lastOffset' (value ++ [s])
  end.

Definition ReadP (value : list (list (option T))) (c : t)
  : outcome (list (list (option T)) * t) :=
  let '(columnData, c1) := getColumnData c in
  value' ← rows_loop (offsetColumn c1) columnData
             (seqZ 0 (numRow (offsetColumn c1))) 0 value;
  Done (value', c1).

(** [DataP]: [make] panics on a negative length. *)
Definition DataP (c : t) : outcome (list (list (option T)) * t) :=
  if numRow (offsetColumn c) <? 0 then Panic
  else
    let '(columnData, c1) := getColumnData c in
    value' ← rows_loop (offsetColumn c1) columnData
               (seqZ 0 (numRow (offsetColumn c1))) 0 [];
    Done (value', c1).

Definition RowP (row : Z) (c : t) : outcome (list (option T) * t) :=
  lastOffset ← (if row =? 0 then Done 0
                else Base_Row (int_add row (-1)) (offsetColumn c));
  let '(columnData, c1) := getColumnData c in
  hi ← Base_Row row (offsetColumn c1);
  s ← of_option (slice columnData lastOffset hi);
  Done (s, c1).

Definition AppendP (v : list (option T)) (c : t) : t :=
  let c1 := AppendLen (len v) c in
  set_dataColumn (NullableColumn_AppendMultiP v (dataColumn c1)) c1.

Definition AppendMultiP (v : list (list (option T))) (c : t) : t :=
  foldl (fun c v => AppendP v c) c v.

Definition AppendItemP (v : option T) (c : t) : t :=
  set_dataColumn (NullableColumn_AppendP v (dataColumn c)) c.

(** *** Dynamic access: [Scan] and [ScanValue] *)

(** The zero value of the destination's element type. *)
Context (zeroU : U).

(** A slice value as reflection sees it: of a type assignable to [[]*T],
    or a slice of another element type. *)
Inductive slice_value : Type :=
| SliceP (cur : list (option T))
| SliceU (cur : list U).

(** The destinations [Scan] distinguishes: a non-nil [*[]*T]; a non-nil
    [*any]; a non-nil pointer to another slice type; a slice passed by value,
    which reflection cannot set; anything else (a nil interface, a nil
    pointer, a number, a pointer to a struct). *)
Inductive dest : Type :=
| PtrSliceP (cur : list (option T))
| PtrAny (cur : Any)
| PtrSlice (s : slice_value)
| ValSlice (s : slice_value)
| NotSlice (cur : Any).

(** The errors of [ScanValue]:
    [fmt.Errorf("dest must be a pointer to slice")] and
    [fmt.Errorf("cannot scan array item %d: %w", i, err)]. *)
Inductive error : Type :=
| ErrDestNotSlice
| ErrScanItem (i : Z) (err : E).

(** [reflect.Indirect(dest)] when its [Kind()] is [reflect.Slice]: whether
    the value can be set, and the slice.  [None] for every other kind. *)
Definition Indirect_slice (d : dest) : option (bool * slice_value) :=
  match d with
  | PtrSliceP cur => Some (true, SliceP cur)
  | PtrAny _ => None
  | PtrSlice s => Some (true, s)
  | ValSlice s => Some (false, s)
  | NotSlice _ => None
  end.

(** [destValue.Set(x)]: panics on a value that cannot be set. *)
Definition Set_dest (d : dest) (x : slice_value) : outcome dest :=
  match d, x with
  | PtrSliceP _, SliceP v => Done (PtrSliceP v)
  | PtrSlice (SliceP _), SliceP v => Done (PtrSlice (SliceP v))
  | PtrSlice (SliceU _), SliceU v => Done (PtrSlice (SliceU v))
  | _, _ => Panic
  end.

(** The element loop of [ScanValue]: [todo] holds the values of [i] still
    to visit, [b] is the index into [rSlice].  The result is the error
    returned from inside the loop, or [rSlice] after it. *)
Fixpoint scan_items (d : NullableColumn) (todo : list Z) (b : Z) (rSlice : list U)
  : outcome (error + list U) :=
  match todo with
  | [] => Done (inr rSlice)
  | i :: todo' =>
      if (0 <=? b) && (b <? len rSlice) then
        r ← NullableColumn_Scan d i;
        match r with
        | inl err => Done (inl (ErrScanItem i err))
        | inr u => scan_items d todo' (int_add b 1) (<[Z.to_nat b := u]> rSlice)
        end
      else Panic
  end.

(** [ScanValue]: the error returned, the destination afterwards and the
    column afterwards. *)
Definition ScanValue (row : Z) (d : dest) (c : t) : outcome (option error * dest * t) :=
  match Indirect_slice d with
  | None => Done (Some ErrDestNotSlice, d, c)
  | Some (_, SliceP _) =>
      '(v, c1) ← RowP row c;
      d' ← Set_dest d (SliceP v);
      Done (None, d', c1)
  | Some (_, SliceU _) =>
      lastOffset ← (if row =? 0 then Done 0
                    else o ← Base_Row (int_add row (-1)) (offsetColumn c);
                         Done (wrap_int o));
      o ← Base_Row row (offsetColumn c);
      let offset := wrap_int o in
      let n := int_add offset (- lastOffset) in
      if n <? 0 then Panic
      else
        r ← scan_items (dataColumn c) (seqZ lastOffset (offset - lastOffset)) 0
              (replicate (Z.to_nat n) zeroU);
        match r with
        | inl err => Done (Some err, d, c)
        | inr rSlice =>
            d' ← Set_dest d (SliceU rSlice);
            Done (None, d', c)
        end
  end.

Definition Scan (row : Z) (d : dest) (c : t) : outcome (option error * dest * t) :=
  match d with
  | PtrSliceP _ =>
      '(v, c1) ← RowP row c;
      Done (None, PtrSliceP v, c1)
  | PtrAny _ =>
      '(v, c1) ← RowP row c;
      Done (None, PtrAny (to_any v), c1)
  | _ => ScanValue row d c
  end.

(** *** Decoding a block *)

(** Modelled from the spec: the reader [readerwriter.Reader] is declared
    outside the given sources.  For an array column it supplies the offset
    stream, one cumulative count per row, followed by the flattened
    inner-column stream. *)
Record Reader : Type := mkReader {
  offsets_in : list Z;
  data_in : list (option T);
}.

(** The error of a read that finds too little input. *)
Inductive read_error : Type := ErrShortRead.

(** Modelled from the spec: [Array.ReadRaw] is declared outside the given
    sources.  It reads [num] offsets, then as many inner rows as the last
    offset says, and reports an error when the reader holds fewer. *)
Definition Array_ReadRaw (num : Z) (r : Reader) (c : t) : option read_error * t :=
  if (0 <=? num) && (num <=? len (offsets_in r)) then
    let offs := take (Z.to_nat num) (offsets_in r) in
    let total := List.last offs 0 in
    let c1 := set_offsetColumn
                {| decoded := offs; numRow := num;
                   appended := appended (offsetColumn c) |} c in
    if total <=? len (data_in r) then
      (None, set_dataColumn
               {| data := take (Z.to_nat total) (data_in r);
                  written := written (dataColumn c1) |} c1)
    else (Some ErrShortRead, c1)
  else (Some ErrShortRead, c).

Definition ReadRaw (num : Z) (r : Reader) (c : t) : option read_error * t :=
  let '(err, c1) := Array_ReadRaw num r c in
  match err with
  | Some e => (Some e, c1)
  | None => (None, set_columnData (NullableColumn_DataP (dataColumn c1)) c1)
  end.

(** [RowAny]: the row's slice boxed into an [any]. *)
Definition RowAny (row : Z) (c : t) : outcome (Any * t) :=
  '(v, c1) ← RowP row c;
  Done (to_any v, c1).

(** *** Rendering a row as JSON *)

(** The inner column's [RowIsNil(i)] and [ToJSON(i, ignoreDoubleQuotes, b)]
    are outside the given sources: they are parameters. *)
Context (NullableColumn_RowIsNil : NullableColumn -> Z -> outcome bool).
Context (NullableColumn_ToJSON :
           NullableColumn -> Z -> bool -> list byte -> outcome (list byte)).

(** The loop of [ToJSON] over the [uint64] values [todo] of [i]; the bytes
    are [','] and ["null"]. *)
Fixpoint ToJSON_loop (d : NullableColumn) (ignoreDoubleQuotes : bool) (todo : list Z)
    (lastOffset : Z) (b : list byte) : outcome (list byte) :=
  match todo with
  | [] => Done b
  | i :: todo' =>
      let b1 := if negb (i =? lastOffset) then b ++ [Byte.x2c] else b in
      isnil ← NullableColumn_RowIsNil d (wrap_int i);
      b2 ← (if isnil : bool
            then Done (b1 ++ [Byte.x6e; Byte.x75; Byte.x6c; Byte.x6c])
            else NullableColumn_ToJSON d (wrap_int i) ignoreDoubleQuotes b1);
      ToJSON_loop d ignoreDoubleQuotes todo' lastOffset b2
  end.

(** [ToJSON]: the bytes appended around the loop are ['['] and [']']. *)
Definition ToJSON (row : Z) (ignoreDoubleQuotes : bool) (b : list byte) (c : t)
  : outcome (list byte) :=
  let b0 := b ++ [Byte.x5b] in
  lastOffset ← (if row =? 0 then Done 0
                else Base_Row (int_add row (-1)) (offsetColumn c));
  offset ← Base_Row row (offsetColumn c);
  b1 ← ToJSON_loop (dataColumn c) ignoreDoubleQuotes
         (seqZ lastOffset (offset - lastOffset)) lastOffset b0;
  Done (b1 ++ [Byte.x5d]).

End WithTypes.
End ArrayNullable.

(** ** Reference functions used in the statements *)

(** The rows of a read buffer of 8-byte elements: [n] little-endian spans
    from byte offset [i] on. *)
Fixpoint rows64 (b : list byte) (i : nat) (n : nat) : list Z :=
  match n with
  | O => []
  | S n' => le_combine (take 8 (drop i b)) :: rows64 b (i + 8) n'
  end.

(** The rows of a read buffer of 4-byte elements. *)
Fixpoint rows32 (b : list byte) (i : nat) (n : nat) : list Z :=
  match n with
  | O => []
  | S n' => le_combine (take 4 (drop i b)) :: rows32 b (i + 4) n'
  end.

(** [Append] of each value of [vs] in turn. *)
Definition AppendAll (vs : list Z) (c : Uint64.t) : Uint64.t :=
  foldl (fun c v => Uint64.Append v c) c vs.

(** An encode step that writes a zero row: [AppendEmpty()] or [Append(0)]. *)
Inductive zero_op : Type := OpAppendEmpty | OpAppendZero.

Definition run_zero_op (o : zero_op) (c : Uint64.t) : outcome Uint64.t :=
  match o with
  | OpAppendEmpty => Uint64.AppendEmpty c
  | OpAppendZero => Done (Uint64.Append 0 c)
  end.

Fixpoint run_zero_ops (ops : list zero_op) (c : Uint64.t) : outcome Uint64.t :=
  match ops with
  | [] => Done c
  | o :: ops' => c1 ← run_zero_op o c; run_zero_ops ops' c1
  end.

(** A dictionary append: [AppendDict(v)], [AppendDictNil()] or [AppendDictP(v)]. *)
Inductive dict_op : Type :=
| OpAppendDict (v : Z)
| OpAppendDictNil
| OpAppendDictP (v : option Z).

Definition run_dict_op (c : Uint64.t) (o : dict_op) : Uint64.t :=
  match o with
  | OpAppendDict v => Uint64.AppendDict v c
  | OpAppendDictNil => Uint64.AppendDictNil c
  | OpAppendDictP v => Uint64.AppendDictP v c
  end.

Definition run_dict_ops (ops : list dict_op) (c : Uint64.t) : Uint64.t :=
  foldl run_dict_op c ops.

(** The value a dictionary append carries, [None] for nil. *)
Definition op_value (o : dict_op) : option Z :=
  match o with
  | OpAppendDict v => Some v
  | OpAppendDictNil => None
  | OpAppendDictP v => v
  end.

(** The order after one more value. *)
Definition order_add (v : Z) (order : list Z) : list Z :=
  if decide (v ∈ order) then order else order ++ [v].

(** The distinct values of a sequence of dictionary appends, in the order of
    their first occurrence. *)
Definition insertion_order (ops : list dict_op) : list Z :=
  foldl (fun acc o =>
           match op_value o with
           | Some v => order_add v acc
           | None => acc
           end) [] ops.

(** The instant decoded from a 4-byte span holding [z]. *)
Definition instant (z : Z) : time.Time := time.Unix z 0.

(** [c] holds the dictionary [d], the keys [ks] and the value bytes [wd]. *)
Definition dict_state (c : Uint64.t) (d : gmap Z Z) (ks : list Z) (wd : list byte) : Prop :=
  Uint64.dict c = d /\ Uint64.keys c = ks /\ column.writerData (Uint64.col c) = wd.

(** The dictionary of [c] numbers the values of [order], which are distinct,
    by position, and the write buffer holds their encodings in that order. *)
Record dict_inv (order : list Z) (c : Uint64.t) : Prop := {
  inv_lookup : forall v k,
    Uint64.dict c !! v = Some k <-> 0 <= k /\ order !! Z.to_nat k = Some v;
  inv_size : size (Uint64.dict c) = length order;
  inv_nodup : NoDup order;
  inv_data : column.writerData (Uint64.col c) = concat (map (le_split 8) order);
}.

(** What a key says about the append that produced it: [0] for nil, the
    position of the value in the insertion order plus one otherwise. *)
Definition key_ok (order : list Z) (o : dict_op) (k : Z) : Prop :=
  match op_value o with
  | None => k = 0
  | Some v => 1 <= k /\ order !! Z.to_nat (k - 1) = Some v
  end.

(** Cumulative sums of [ns] on top of [acc]. *)
Fixpoint cumsum (acc : Z) (ns : list Z) : list Z :=
  match ns with
  | [] => []
  | n :: ns' => (acc + n) :: cumsum (acc + n) ns'
  end.

(** The null test of [ReadAllP]: a bitmap byte other than 0. *)
Definition nil_ne0 (m : byte) : bool := negb (byte.unsigned m =? 0).

(** The null test of [ValueP] and [FillP]: the bitmap byte 1. *)
Definition nil_eq1 (m : byte) : bool := byte.unsigned m =? 1.

(** Rows as optional values: row [k] is nil when the null test holds of
    byte [k] of the bitmap. *)
Definition optional_rows {A : Type} (isnil : byte -> bool) (bitmap : list byte)
    (vals : list A) : list (option A) :=
  zip_with (fun m v => if isnil m then None else Some v) bitmap vals.

(** [AppendP] of each optional value of [vs] in turn. *)
Fixpoint AppendPAll (vs : list (option Z)) (c : Uint64.t) : outcome Uint64.t :=
  match vs with
  | [] => Done c
  | v :: vs' => c1 ← Uint64.AppendP v c; AppendPAll vs' c1
  end.

(** The bitmap byte [AppendP] writes for an optional value. *)
Definition null_flag {A : Type} (v : option A) : byte :=
  match v with
  | None => Byte.x01
  | Some _ => Byte.x00
  end.

(** The value [AppendP] writes for an optional value: zero for nil. *)
Definition stored_value (v : option Z) : Z :=
  match v with
  | None => 0
  | Some x => x
  end.





(** Two columns agree on what dictionary appends read: the dictionary, the
    keys and the nullable flag. *)
Definition same_dict (c1 c2 : Uint64.t) : Prop :=
  Uint64.dict c1 = Uint64.dict c2
  /\ Uint64.keys c1 = Uint64.keys c2
  /\ column.nullable (Uint64.col c1) = column.nullable (Uint64.col c2).

(** The parts joined by commas. *)
Fixpoint join_comma (parts : list (list byte)) : list byte :=
  match parts with
  | [] => []
  | [p] => p
  | p :: ps => p ++ [Byte.x2c] ++ join_comma ps
  end.

(** The JSON literal [null]. *)
Definition json_null : list byte := [Byte.x6e; Byte.x75; Byte.x6c; Byte.x6c].

(** The epoch [DateTime.Append] puts on the wire for an instant. *)
Definition stored_epoch (v : time.Time) : Z :=
  if time.Time_Unix v <=? 0 then 0 else time.Time_Unix v mod 2 ^ 32.

(** [DateTime.Append] of each instant of [vs] in turn. *)
Fixpoint DateTime_AppendAll (vs : list time.Time) (c : DateTime.t) : outcome DateTime.t :=
  match vs with
  | [] => Done c
  | v :: vs' => c1 ← DateTime.Append v c; DateTime_AppendAll vs' c1
  end.

(** [DateTime.AppendP] of each optional instant of [vs] in turn. *)
Fixpoint DateTime_AppendPAll (vs : list (option time.Time)) (c : DateTime.t)
  : outcome DateTime.t :=
  match vs with
  | [] => Done c
  | v :: vs' => c1 ← DateTime.AppendP v c; DateTime_AppendPAll vs' c1
  end.

(** The epoch [DateTime.AppendP] puts on the wire: zero for nil. *)
Definition stored_epochP (v : option time.Time) : Z :=
  match v with
  | None => 0
  | Some x => stored_epoch x
  end.

(** The optional instant read back for an optional instant written. *)
Definition read_backP (v : option time.Time) : option time.Time :=
  match v with
  | None => None
  | Some x => Some (time.mk (stored_epoch x) 0)
  end.

(** The instants of a read buffer of 4-byte elements: [n] rows from byte
    offset [i] on. *)
Fixpoint rowsT (b : list byte) (i : nat) (n : nat) : list time.Time :=
  match n with
  | O => []
  | S n' => instant (le_combine (take 4 (drop i b))) :: rowsT b (i + 4) n'
  end.

(** ** Sample blocks *)

(** A Uint64 reader over the block written for 0, the maximum and 258. *)
Definition roundtrip_reader : Uint64.t :=
  {| Uint64.col :=
       {| column.b := column.writerData
                        (Uint64.col (AppendAll [0; 2 ^ 64 - 1; 258] (Uint64.NewUint64 false)));
          column.i := 0; column.totalByte := 24; column.size := 8; column.numRow := 3;
          column.nullable := false; column.colNullable := Nullable.newNullable;
          column.writerData := [] |};
     Uint64.val := 0; Uint64.dict := ∅; Uint64.keys := [] |}.

(** A DateTime reader over one all-zero row. *)
Definition zero_block_reader : DateTime.t :=
  {| DateTime.col :=
       {| column.b := replicate 4 Byte.x00;
          column.i := 0; column.totalByte := 4; column.size := 4; column.numRow := 1;
          column.nullable := false; column.colNullable := Nullable.newNullable;
          column.writerData := [] |};
     DateTime.val := time.mk 0 0; DateTime.dict := ∅; DateTime.keys := [] |}.

(** An instant whose epoch needs 33 bits, and a DateTime reader over the row
    written for it. *)
Definition late_instant : time.Time := time.mk (2 ^ 32 + 5) 0.

Definition late_block_reader : DateTime.t :=
  {| DateTime.col :=
       {| column.b := le_split 4 (time.Time_Unix late_instant mod 2 ^ 32);
          column.i := 0; column.totalByte := 4; column.size := 4; column.numRow := 1;
          column.nullable := false; column.colNullable := Nullable.newNullable;
          column.writerData := [] |};
     DateTime.val := time.mk 0 0; DateTime.dict := ∅; DateTime.keys := [] |}.

(** The array scenario: rows of 2, 0 and 1 elements holding 10, 20 and 30. *)
Definition sample_rows : list (list (option Z)) := [[Some 10; Some 20]; []; [Some 30]].

Definition sample_inner : @ArrayNullable.NullableColumn Z :=
  {| ArrayNullable.data := []; ArrayNullable.written := [] |}.

Definition sample_writer : @ArrayNullable.t Z :=
  ArrayNullable.AppendMultiP sample_rows (ArrayNullable.NewArrayNullable sample_inner).

(** The block the writer built, handed to a reader. *)
Definition sample_block : @ArrayNullable.Reader Z :=
  {| ArrayNullable.offsets_in :=
       ArrayNullable.appended (ArrayNullable.offsetColumn sample_writer);
     ArrayNullable.data_in := ArrayNullable.written (ArrayNullable.dataColumn sample_writer) |}.

Definition sample_reader : @ArrayNullable.t Z :=
  snd (ArrayNullable.ReadRaw 3 sample_block (ArrayNullable.NewArrayNullable sample_inner)).

(** A block of two rows, [10, 20] and [30]. *)
Definition two_row_block : @ArrayNullable.Reader Z :=
  {| ArrayNullable.offsets_in := [2; 3];
     ArrayNullable.data_in := [Some 10; Some 20; Some 30] |}.

Definition two_row_reader : @ArrayNullable.t Z :=
  snd (ArrayNullable.ReadRaw 2 two_row_block (ArrayNullable.NewArrayNullable sample_inner)).



(** A nullable Uint64 reader over the rows 5, 6 and 7 whose bitmap is 0, 1, 2. *)
Definition odd_bitmap_reader : Uint64.t :=
  {| Uint64.col :=
       {| column.b := le_split 8 5 ++ le_split 8 6 ++ le_split 8 7;
          column.i := 0; column.totalByte := 24; column.size := 8; column.numRow := 3;
          column.nullable := true;
          column.colNullable :=
            {| Nullable.b := [Byte.x00; Byte.x01; Byte.x02]; Nullable.writerData := [] |};
          column.writerData := [] |};
     Uint64.val := 0; Uint64.dict := ∅; Uint64.keys := [] |}.

(** A nullable Uint64 reader over the block written for 1, nil and 42. *)
Definition nullable_reader : Uint64.t :=
  {| Uint64.col :=
       {| column.b := concat (map (le_split 8) [1; 0; 42]);
          column.i := 0; column.totalByte := 24; column.size := 8; column.numRow := 3;
          column.nullable := true;
          column.colNullable :=
            {| Nullable.b := [Byte.x00; Byte.x01; Byte.x00]; Nullable.writerData := [] |};
          column.writerData := [] |};
     Uint64.val := 0; Uint64.dict := ∅; Uint64.keys := [] |}.



(** Three instants: before the epoch with nanoseconds, beyond 32 bits, and
    one that fits. *)
Definition sample_instants : list time.Time :=
  [time.mk (-5) 7; late_instant; time.mk 100 0].

(** A DateTime reader over the block written for [sample_instants], with the
    bitmap 0, 1, 0. *)
Definition instants_reader : DateTime.t :=
  {| DateTime.col :=
       {| column.b := concat (map (le_split 4) (map stored_epoch sample_instants));
          column.i := 0; column.totalByte := 12; column.size := 4; column.numRow := 3;
          column.nullable := true;
          column.colNullable :=
            {| Nullable.b := [Byte.x00; Byte.x01; Byte.x00]; Nullable.writerData := [] |};
          column.writerData := [] |};
     DateTime.val := time.mk 0 0; DateTime.dict := ∅; DateTime.keys := [] |}.

(** The optional instants late, nil, 100 s. *)
Definition sample_instantsP : list (option time.Time) :=
  [Some late_instant; None; Some (time.mk 100 0)].

Definition instantsP_reader : DateTime.t :=
  {| DateTime.col :=
       {| column.b := concat (map (le_split 4) (map stored_epochP sample_instantsP));
          column.i := 0; column.totalByte := 12; column.size := 4; column.numRow := 3;
          column.nullable := true;
          column.colNullable :=
            {| Nullable.b := map null_flag sample_instantsP; Nullable.writerData := [] |};
          column.writerData := [] |};
     DateTime.val := time.mk 0 0; DateTime.dict := ∅; DateTime.keys := [] |}.

(** An inner column whose [Scan] converts element [i] to the number [i]. *)
Definition index_Scan (d : @ArrayNullable.NullableColumn Z) (i : Z) : outcome (unit + Z) :=
  Done (inr i).

(** An inner column for which element 1 is nil and which renders every other
    element as the digit 7. *)
Definition sample_RowIsNil (d : @ArrayNullable.NullableColumn Z) (i : Z) : outcome bool :=
  Done (i =? 1).

Definition sample_ToJSON (d : @ArrayNullable.NullableColumn Z) (i : Z) (q : bool)
    (b : list byte) : outcome (list byte) :=
  Done (b ++ [Byte.x37]).

(** * Properties *)

(** ** Integers, slices and byte order *)

Lemma wrap_int_small z : - 2 ^ 63 <= z < 2 ^ 63 -> wrap_int z = z.
Proof. intros H. unfold wrap_int. rewrite Z.mod_small; lia. Qed.

Lemma int_add_small a b : - 2 ^ 63 <= a + b < 2 ^ 63 -> int_add a b = a + b.
Proof. apply wrap_int_small. Qed.

Lemma slice_ok {A} (s : list A) lo hi :
  0 <= lo -> lo <= hi -> hi <= len s ->
  slice s lo hi = Some (take (Z.to_nat (hi - lo)) (drop (Z.to_nat lo) s)).
Proof.
  intros H1 H2 H3. unfold slice.
  destruct (Z.leb_spec 0 lo); [|lia].
  destruct (Z.leb_spec lo hi); [|lia].
  destruct (Z.leb_spec hi (len s)); [|lia]. reflexivity.
Qed.

Lemma Uint64_le_combine b0 b1 b2 b3 b4 b5 b6 b7 rest :
  LittleEndian_Uint64 (b0 :: b1 :: b2 :: b3 :: b4 :: b5 :: b6 :: b7 :: rest)
  = Some (le_combine [b0; b1; b2; b3; b4; b5; b6; b7]).
Proof.
  unfold LittleEndian_Uint64, le_combine. f_equal.
  rewrite Z.shiftl_0_l, Z.lor_0_r.
  rewrite !Z.shiftl_lor, !Z.shiftl_shiftl, !Z.lor_assoc by lia.
  reflexivity.
Qed.

Lemma Uint32_le_combine b0 b1 b2 b3 rest :
  LittleEndian_Uint32 (b0 :: b1 :: b2 :: b3 :: rest)
  = Some (le_combine [b0; b1; b2; b3]).
Proof.
  unfold LittleEndian_Uint32, le_combine. f_equal.
  rewrite Z.shiftl_0_l, Z.lor_0_r.
  rewrite !Z.shiftl_lor, !Z.shiftl_shiftl, !Z.lor_assoc by lia.
  reflexivity.
Qed.

Lemma Uint64_take8 (s : list byte) :
  (8 <= length s)%nat -> LittleEndian_Uint64 s = Some (le_combine (take 8 s)).
Proof.
  intros H. do 8 (destruct s as [|? s]; [simpl in H; lia|]).
  rewrite Uint64_le_combine. reflexivity.
Qed.

Lemma Uint32_take4 (s : list byte) :
  (4 <= length s)%nat -> LittleEndian_Uint32 s = Some (le_combine (take 4 s)).
Proof.
  intros H. do 4 (destruct s as [|? s]; [simpl in H; lia|]).
  rewrite Uint32_le_combine. reflexivity.
Qed.

Lemma le_split_8 v :
  le_split 8 v =
  [byte.of_Z v; byte.of_Z (Z.shiftr v 8); byte.of_Z (Z.shiftr v 16);
   byte.of_Z (Z.shiftr v 24); byte.of_Z (Z.shiftr v 32); byte.of_Z (Z.shiftr v 40);
   byte.of_Z (Z.shiftr v 48); byte.of_Z (Z.shiftr v 56)].
Proof. unfold le_split. rewrite !Z.shiftr_shiftr by lia. reflexivity. Qed.

Lemma le_split_4 v :
  le_split 4 v =
  [byte.of_Z v; byte.of_Z (Z.shiftr v 8); byte.of_Z (Z.shiftr v 16);
   byte.of_Z (Z.shiftr v 24)].
Proof. unfold le_split. rewrite !Z.shiftr_shiftr by lia. reflexivity. Qed.

Lemma le_split_mod (n : nat) z : le_split n (z mod 2 ^ (Z.of_nat n * 8)) = le_split n z.
Proof.
  rewrite <- le_combine_split.
  rewrite <- (length_le_split n z) at 1.
  apply split_le_combine.
Qed.

(** ** Reading a block of a [Uint64] column *)

Section Uint64Read.

Variable c : Uint64.t.
Hypothesis Hsize : column.size (Uint64.col c) = Uint64Size.
Hypothesis Htotal : column.totalByte (Uint64.col c) = len (column.b (Uint64.col c)).
Hypothesis Hmax : len (column.b (Uint64.col c)) <= max_int.

Lemma Uint64_ReadAll_loop_rows n : forall fuel i out,
  0 <= i -> i + 8 * Z.of_nat n = len (column.b (Uint64.col c)) ->
  (n <= fuel)%nat ->
  Uint64.ReadAll_loop fuel c i out
  = Done (out ++ rows64 (column.b (Uint64.col c)) (Z.to_nat i) n).
Proof.
  unfold Uint64Size, max_int in *.
  induction n as [|n IH]; intros fuel i out Hi Hlen Hfuel.
  - simpl. rewrite app_nil_r.
    destruct fuel; simpl;
      destruct (Z.ltb_spec i (column.totalByte (Uint64.col c))); try lia; reflexivity.
  - destruct fuel as [|fuel]; [lia|].
    cbn [Uint64.ReadAll_loop].
    destruct (Z.ltb_spec i (column.totalByte (Uint64.col c))); [|lia].
    rewrite Hsize, int_add_small by lia.
    rewrite slice_ok by lia. cbn [of_option mbind outcome_bind].
    replace (Z.to_nat (i + 8 - i)) with 8%nat by lia.
    rewrite Uint64_take8.
    2:{ rewrite length_take, length_drop. unfold len in *. lia. }
    cbn [of_option mbind outcome_bind].
    rewrite take_take. change (8 `min` 8)%nat with 8%nat.
    rewrite IH by lia.
    rewrite <- app_assoc. cbn [rows64 app].
    replace (Z.to_nat (i + 8)) with (Z.to_nat i + 8)%nat by lia. reflexivity.
Qed.

Lemma Uint64_ReadAll_rows n out :
  8 * Z.of_nat n = len (column.b (Uint64.col c)) ->
  Uint64.ReadAll c out = Done (c, out ++ rows64 (column.b (Uint64.col c)) 0 n).
Proof.
  intros Hlen. unfold Uint64.ReadAll.
  rewrite (Uint64_ReadAll_loop_rows n) by (try rewrite Htotal; lia).
  reflexivity.
Qed.

End Uint64Read.

(** One successful [Next]: the cursor moves by 8 and the span is decoded. *)
Lemma Uint64_Next_step (c : Uint64.t) :
  column.size (Uint64.col c) = Uint64Size ->
  column.totalByte (Uint64.col c) = len (column.b (Uint64.col c)) ->
  len (column.b (Uint64.col c)) <= max_int ->
  0 <= column.i (Uint64.col c) ->
  column.i (Uint64.col c) + 8 <= len (column.b (Uint64.col c)) ->
  Uint64.Next c =
  Done (true,
        Uint64.set_val
          (le_combine (take 8 (drop (Z.to_nat (column.i (Uint64.col c)))
                                    (column.b (Uint64.col c)))))
          (Uint64.set_col (column.set_i (column.i (Uint64.col c) + 8) (Uint64.col c)) c)).
Proof.
  unfold Uint64Size, max_int. intros Hsize Htotal Hmax Hi Hlen.
  unfold Uint64.Next.
  destruct (Z.geb_spec (column.i (Uint64.col c)) (column.totalByte (Uint64.col c))); [lia|].
  rewrite Hsize, int_add_small by lia.
  cbn [Uint64.col Uint64.set_col column.b column.i column.size column.set_i].
  rewrite Hsize, int_add_small by lia.
  rewrite slice_ok by lia. cbn [of_option mbind outcome_bind].
  replace (Z.to_nat (column.i (Uint64.col c) + 8 - (column.i (Uint64.col c) + 8 + - (8))))
    with 8%nat by lia.
  replace (column.i (Uint64.col c) + 8 + - (8)) with (column.i (Uint64.col c)) by lia.
  rewrite Uint64_take8.
  2:{ rewrite length_take, length_drop. unfold len in *. lia. }
  cbn [of_option mbind outcome_bind].
  rewrite take_take. reflexivity.
Qed.

Lemma Uint64_Next_loop_rows n : forall fuel (c : Uint64.t) out,
  column.size (Uint64.col c) = Uint64Size ->
  column.totalByte (Uint64.col c) = len (column.b (Uint64.col c)) ->
  len (column.b (Uint64.col c)) <= max_int ->
  0 <= column.i (Uint64.col c) ->
  column.i (Uint64.col c) + 8 * Z.of_nat n = len (column.b (Uint64.col c)) ->
  (n < fuel)%nat ->
  exists c',
    Uint64.Next_loop fuel c out
    = Done (c', out ++ rows64 (column.b (Uint64.col c))
                         (Z.to_nat (column.i (Uint64.col c))) n)
    /\ column.i (Uint64.col c') = column.totalByte (Uint64.col c)
    /\ column.b (Uint64.col c') = column.b (Uint64.col c).
Proof.
  induction n as [|n IH]; intros fuel c out Hsize Htotal Hmax Hi Hlen Hfuel.
  - destruct fuel as [|fuel]; [lia|]. exists c.
    cbn [Uint64.Next_loop rows64]. unfold Uint64.Next.
    destruct (Z.geb_spec (column.i (Uint64.col c)) (column.totalByte (Uint64.col c))); [|lia].
    cbn [mbind outcome_bind]. rewrite app_nil_r. repeat split; lia.
  - destruct fuel as [|fuel]; [lia|].
    cbn [Uint64.Next_loop]. rewrite Uint64_Next_step by (try assumption; lia).
    cbn [mbind outcome_bind].
    edestruct (IH fuel) as (c' & Hrun & Hi' & Hb'); [..|rewrite Hrun].
    all: cbn [Uint64.col Uint64.set_col Uint64.set_val column.b column.i column.size
              column.totalByte column.set_i]; try assumption; try lia.
    exists c'. split; [|split; assumption].
    unfold Uint64.Value. cbn [Uint64.val Uint64.set_val].
    rewrite <- app_assoc. cbn [rows64 app].
    replace (Z.to_nat (column.i (Uint64.col c) + 8))
      with (Z.to_nat (column.i (Uint64.col c)) + 8)%nat by lia.
    reflexivity.
Qed.

(** Rows written by [Append] decode to the values appended. *)
Lemma rows64_le_split (pre : list byte) (vs : list Z) : forall post,
  Forall is_uint64 vs ->
  rows64 (pre ++ concat (map (le_split 8) vs) ++ post) (length pre) (length vs) = vs.
Proof.
  revert pre. induction vs as [|v vs IH]; intros pre post Hvs; [reflexivity|].
  inversion Hvs as [|? ? Hv Hvs']; subst.
  cbn [rows64 map concat length].
  rewrite drop_app_length.
  rewrite <- (app_assoc (le_split 8 v)).
  rewrite take_app_length' by (symmetry; apply length_le_split).
  rewrite le_combine_split.
  rewrite Z.mod_small by (unfold is_uint64 in Hv; simpl; lia).
  f_equal.
  specialize (IH (pre ++ le_split 8 v) post Hvs').
  rewrite length_app, length_le_split in IH.
  rewrite <- app_assoc in IH. exact IH.
Qed.

Lemma AppendAll_writerData (vs : list Z) : forall c,
  column.writerData (Uint64.col (AppendAll vs c))
  = column.writerData (Uint64.col c) ++ concat (map (le_split 8) vs).
Proof.
  induction vs as [|v vs IH]; intros c.
  - simpl. rewrite app_nil_r. reflexivity.
  - unfold AppendAll in *. cbn [foldl]. rewrite IH.
    cbn [Uint64.Append Uint64.col Uint64.set_col column.writerData column.set_writerData
         column.set_numRow map concat].
    rewrite le_split_8, <- app_assoc. reflexivity.
Qed.

Lemma length_concat_le_split (vs : list Z) :
  len (concat (map (le_split 8) vs)) = 8 * len vs.
Proof.
  unfold len. induction vs as [|v vs IH]; [reflexivity|].
  cbn [map concat]. rewrite length_app, length_le_split. cbn [length]. lia.
Qed.

(** C1.  Round trip of the Uint64 column: appending the values [vs] (each a
    [uint64], 0 and the maximum included) writes, for each value in turn, its
    8 little-endian bytes, and a column whose read buffer is that write
    buffer decodes exactly [vs], both through [ReadAll] and through repeated
    [Next] and [Value]. *)
Theorem Uint64_roundtrip (nullable : bool) (vs out : list Z) (r : Uint64.t) :
  Forall is_uint64 vs ->
  8 * len vs <= max_int ->
  column.b (Uint64.col r)
  = column.writerData (Uint64.col (AppendAll vs (Uint64.NewUint64 nullable))) ->
  column.size (Uint64.col r) = Uint64Size ->
  column.totalByte (Uint64.col r) = len (column.b (Uint64.col r)) ->
  column.i (Uint64.col r) = 0 ->
  column.writerData (Uint64.col (AppendAll vs (Uint64.NewUint64 nullable)))
  = concat (map (le_split 8) vs)
  /\ len (column.writerData (Uint64.col (AppendAll vs (Uint64.NewUint64 nullable))))
     = 8 * len vs
  /\ Uint64.ReadAll r out = Done (r, out ++ vs)
  /\ exists r', Uint64.Next_loop (S (length vs)) r out = Done (r', out ++ vs).
Proof.
  intros Hvs Hmax Hb Hsize Htotal Hi.
  rewrite AppendAll_writerData in *. cbn [Uint64.NewUint64 Uint64.col column.writerData app] in *.
  pose proof (length_concat_le_split vs) as Hlen.
  pose proof (rows64_le_split [] vs [] Hvs) as Hrows.
  cbn [app length] in Hrows. rewrite app_nil_r in Hrows.
  split; [reflexivity|]. split; [exact Hlen|].
  split.
  - rewrite (Uint64_ReadAll_rows r Hsize Htotal) with (n := length vs).
    + rewrite Hb, Hrows. reflexivity.
    + rewrite Hb, Hlen. exact Hmax.
    + rewrite Hb, Hlen. reflexivity.
  - destruct (Uint64_Next_loop_rows (length vs) (S (length vs)) r out)
      as (r' & Hrun & _); try assumption; try lia.
    + rewrite Hb, Hlen. exact Hmax.
    + rewrite Hb, Hlen, Hi. unfold len. lia.
    + exists r'. rewrite Hrun, Hi, Hb. change (Z.to_nat 0) with 0%nat.
      rewrite Hrows. reflexivity.
Qed.

Lemma Uint64_roundtrip_witness :
  Uint64.ReadAll roundtrip_reader [] = Done (roundtrip_reader, [0; 2 ^ 64 - 1; 258]).
Proof.
  refine (proj1 (proj2 (proj2
    (Uint64_roundtrip false [0; 2 ^ 64 - 1; 258] [] roundtrip_reader _ _ _ _ _ _)))).
  - repeat constructor; unfold is_uint64; lia.
  - vm_compute. discriminate.
  - reflexivity.
  - reflexivity.
  - reflexivity.
  - reflexivity.
Defined.

(** ** Reading a block of a [DateTime] column *)

Section DateTimeRead.

Variable c : DateTime.t.
Hypothesis Hsize : column.size (DateTime.col c) = DatetimeSize.
Hypothesis Htotal : column.totalByte (DateTime.col c) = len (column.b (DateTime.col c)).
Hypothesis Hmax : len (column.b (DateTime.col c)) <= max_int.

Lemma DateTime_ReadAll_loop_rows n : forall fuel i out,
  0 <= i -> i + 4 * Z.of_nat n = len (column.b (DateTime.col c)) ->
  (n <= fuel)%nat ->
  DateTime.ReadAll_loop fuel c i out
  = Done (out ++ map instant (rows32 (column.b (DateTime.col c)) (Z.to_nat i) n)).
Proof.
  unfold DatetimeSize, max_int in *.
  induction n as [|n IH]; intros fuel i out Hi Hlen Hfuel.
  - simpl. rewrite app_nil_r.
    destruct fuel; simpl;
      destruct (Z.ltb_spec i (column.totalByte (DateTime.col c))); try lia; reflexivity.
  - destruct fuel as [|fuel]; [lia|].
    cbn [DateTime.ReadAll_loop].
    destruct (Z.ltb_spec i (column.totalByte (DateTime.col c))); [|lia].
    rewrite Hsize, int_add_small by lia.
    rewrite slice_ok by lia. cbn [of_option mbind outcome_bind].
    replace (Z.to_nat (i + 4 - i)) with 4%nat by lia.
    rewrite Uint32_take4.
    2:{ rewrite length_take, length_drop. unfold len in *. lia. }
    cbn [of_option mbind outcome_bind].
    rewrite take_take. change (4 `min` 4)%nat with 4%nat.
    rewrite IH by lia.
    rewrite <- app_assoc. cbn [rows32 map app].
    replace (Z.to_nat (i + 4)) with (Z.to_nat i + 4)%nat by lia. reflexivity.
Qed.

Lemma DateTime_ReadAll_rows n out :
  4 * Z.of_nat n = len (column.b (DateTime.col c)) ->
  DateTime.ReadAll c out
  = Done (c, out ++ map instant (rows32 (column.b (DateTime.col c)) 0 n)).
Proof.
  intros Hlen. unfold DateTime.ReadAll.
  rewrite (DateTime_ReadAll_loop_rows n) by (try rewrite Htotal; lia).
  reflexivity.
Qed.

End DateTimeRead.

Lemma DateTime_Next_step (c : DateTime.t) :
  column.size (DateTime.col c) = DatetimeSize ->
  column.totalByte (DateTime.col c) = len (column.b (DateTime.col c)) ->
  len (column.b (DateTime.col c)) <= max_int ->
  0 <= column.i (DateTime.col c) ->
  column.i (DateTime.col c) + 4 <= len (column.b (DateTime.col c)) ->
  DateTime.Next c =
  Done (true,
        DateTime.set_val
          (instant (le_combine (take 4 (drop (Z.to_nat (column.i (DateTime.col c)))
                                             (column.b (DateTime.col c))))))
          (DateTime.set_col (column.set_i (column.i (DateTime.col c) + 4) (DateTime.col c)) c)).
Proof.
  unfold DatetimeSize, max_int. intros Hsize Htotal Hmax Hi Hlen.
  unfold DateTime.Next.
  destruct (Z.geb_spec (column.i (DateTime.col c)) (column.totalByte (DateTime.col c))); [lia|].
  rewrite Hsize, int_add_small by lia.
  cbn [DateTime.col DateTime.set_col column.b column.i column.size column.set_i].
  rewrite Hsize, int_add_small by lia.
  rewrite slice_ok by lia. cbn [of_option mbind outcome_bind].
  replace (Z.to_nat (column.i (DateTime.col c) + 4 - (column.i (DateTime.col c) + 4 + - (4))))
    with 4%nat by lia.
  replace (column.i (DateTime.col c) + 4 + - (4)) with (column.i (DateTime.col c)) by lia.
  rewrite Uint32_take4.
  2:{ rewrite length_take, length_drop. unfold len in *. lia. }
  cbn [of_option mbind outcome_bind].
  rewrite take_take. reflexivity.
Qed.

Lemma DateTime_Next_loop_rows n : forall fuel (c : DateTime.t) out,
  column.size (DateTime.col c) = DatetimeSize ->
  column.totalByte (DateTime.col c) = len (column.b (DateTime.col c)) ->
  len (column.b (DateTime.col c)) <= max_int ->
  0 <= column.i (DateTime.col c) ->
  column.i (DateTime.col c) + 4 * Z.of_nat n = len (column.b (DateTime.col c)) ->
  (n < fuel)%nat ->
  exists c',
    DateTime.Next_loop fuel c out
    = Done (c', out ++ map instant (rows32 (column.b (DateTime.col c))
                                      (Z.to_nat (column.i (DateTime.col c))) n))
    /\ column.i (DateTime.col c') = column.totalByte (DateTime.col c)
    /\ column.b (DateTime.col c') = column.b (DateTime.col c).
Proof.
  induction n as [|n IH]; intros fuel c out Hsize Htotal Hmax Hi Hlen Hfuel.
  - destruct fuel as [|fuel]; [lia|]. exists c.
    cbn [DateTime.Next_loop rows32 map]. unfold DateTime.Next.
    destruct (Z.geb_spec (column.i (DateTime.col c)) (column.totalByte (DateTime.col c))); [|lia].
    cbn [mbind outcome_bind]. rewrite app_nil_r. repeat split; lia.
  - destruct fuel as [|fuel]; [lia|].
    cbn [DateTime.Next_loop]. rewrite DateTime_Next_step by (try assumption; lia).
    cbn [mbind outcome_bind].
    edestruct (IH fuel) as (c' & Hrun & Hi' & Hb'); [..|rewrite Hrun].
    all: cbn [DateTime.col DateTime.set_col DateTime.set_val column.b column.i column.size
              column.totalByte column.set_i]; try assumption; try lia.
    exists c'. split; [|split; assumption].
    unfold DateTime.Value. cbn [DateTime.val DateTime.set_val].
    rewrite <- app_assoc. cbn [rows32 map app].
    replace (Z.to_nat (column.i (DateTime.col c) + 4))
      with (Z.to_nat (column.i (DateTime.col c)) + 4)%nat by lia.
    reflexivity.
Qed.

Lemma length_rows64 b n : forall i, length (rows64 b i n) = n.
Proof. induction n; intros i; simpl; [|rewrite IHn]; reflexivity. Qed.

Lemma length_rows32 b n : forall i, length (rows32 b i n) = n.
Proof. induction n; intros i; simpl; [|rewrite IHn]; reflexivity. Qed.

(** C5.  Bulk and sequential reads agree.  For a Uint64 column, and likewise
    for a DateTime column, whose read buffer holds [n] whole rows and whose
    cursor is at the start of the block, [ReadAll] appends to its destination
    exactly the values that repeated [Next] and [Value] produce until [Next]
    returns false, and [ReadAll] returns the column as it was. *)
Theorem ReadAll_Next_equiv (n : nat) :
  (forall (c : Uint64.t) (out : list Z),
      column.size (Uint64.col c) = Uint64Size ->
      column.totalByte (Uint64.col c) = len (column.b (Uint64.col c)) ->
      len (column.b (Uint64.col c)) = Uint64Size * Z.of_nat n ->
      len (column.b (Uint64.col c)) <= max_int ->
      column.i (Uint64.col c) = 0 ->
      exists (vs : list Z) (c' : Uint64.t),
        Uint64.Next_loop (S n) c [] = Done (c', vs)
        /\ length vs = n
        /\ Uint64.ReadAll c out = Done (c, out ++ vs))
  /\
  (forall (c : DateTime.t) (out : list time.Time),
      column.size (DateTime.col c) = DatetimeSize ->
      column.totalByte (DateTime.col c) = len (column.b (DateTime.col c)) ->
      len (column.b (DateTime.col c)) = DatetimeSize * Z.of_nat n ->
      len (column.b (DateTime.col c)) <= max_int ->
      column.i (DateTime.col c) = 0 ->
      exists (vs : list time.Time) (c' : DateTime.t),
        DateTime.Next_loop (S n) c [] = Done (c', vs)
        /\ length vs = n
        /\ DateTime.ReadAll c out = Done (c, out ++ vs)).
Proof.
  split.
  - unfold Uint64Size at 2. intros c out Hsize Htotal Hlen Hmax Hi.
    destruct (Uint64_Next_loop_rows n (S n) c []) as (c' & Hrun & _);
      try assumption; try lia.
    exists (rows64 (column.b (Uint64.col c)) 0 n), c'.
    rewrite Hi in Hrun. split; [exact Hrun|]. split; [apply length_rows64|].
    apply Uint64_ReadAll_rows; try assumption. lia.
  - unfold DatetimeSize at 2. intros c out Hsize Htotal Hlen Hmax Hi.
    destruct (DateTime_Next_loop_rows n (S n) c []) as (c' & Hrun & _);
      try assumption; try lia.
    exists (map instant (rows32 (column.b (DateTime.col c)) 0 n)), c'.
    rewrite Hi in Hrun. split; [exact Hrun|].
    split; [rewrite length_map; apply length_rows32|].
    apply DateTime_ReadAll_rows; try assumption. lia.
Qed.

(** ** Zero rows of a [Uint64] column *)

Lemma Uint64_Append_size v c :
  column.size (Uint64.col (Uint64.Append v c)) = column.size (Uint64.col c).
Proof. reflexivity. Qed.

(** C10.  On a Uint64 column [AppendEmpty()] and [Append(0)] have the same
    effect on the whole column state: 8 zero bytes are appended to the write
    buffer and the row count goes up by one; hence a sequence of such calls,
    in any interleaving, leaves the state that as many [Append(0)] leave. *)
Theorem Uint64_AppendEmpty_Append_zero (c : Uint64.t) :
  column.size (Uint64.col c) = Uint64Size ->
  Uint64.AppendEmpty c = Done (Uint64.Append 0 c)
  /\ column.writerData (Uint64.col (Uint64.Append 0 c))
     = column.writerData (Uint64.col c) ++ replicate 8 Byte.x00
  /\ column.numRow (Uint64.col (Uint64.Append 0 c)) = int_add (column.numRow (Uint64.col c)) 1
  /\ forall ops : list zero_op,
       run_zero_ops ops c = Done (Nat.iter (length ops) (Uint64.Append 0) c).
Proof.
  intros Hsize.
  assert (Hstep : forall c0, column.size (Uint64.col c0) = Uint64Size ->
                             Uint64.AppendEmpty c0 = Done (Uint64.Append 0 c0)).
  { intros c0 H0. unfold Uint64.AppendEmpty, Uint64.Append.
    cbn [Uint64.col Uint64.set_col column.size column.set_numRow].
    rewrite H0. reflexivity. }
  split; [apply Hstep, Hsize|]. split; [reflexivity|]. split; [reflexivity|].
  intros ops. revert c Hsize.
  induction ops as [|o ops IH]; intros c Hsize; [reflexivity|].
  cbn [run_zero_ops length]. rewrite Nat.iter_succ_r.
  destruct o; cbn [run_zero_op]; [rewrite Hstep by exact Hsize|];
    cbn [mbind outcome_bind]; apply IH; rewrite Uint64_Append_size; exact Hsize.
Qed.

Lemma Uint64_AppendEmpty_Append_zero_witness :
  run_zero_ops [OpAppendEmpty; OpAppendZero; OpAppendEmpty] (Uint64.NewUint64 true)
  = Done (Nat.iter 3 (Uint64.Append 0) (Uint64.NewUint64 true)).
Proof.
  exact (proj2 (proj2 (proj2
    (Uint64_AppendEmpty_Append_zero (Uint64.NewUint64 true) eq_refl)))
    [OpAppendEmpty; OpAppendZero; OpAppendEmpty]).
Defined.

(** ** The dictionary of a [Uint64] column *)

Lemma AppendDict_seen (v k : Z) (c : Uint64.t) :
  Uint64.dict c !! v = Some k ->
  Uint64.AppendDict v c
  = Uint64.set_keys
      (Uint64.keys c ++ [if column.nullable (Uint64.col c) then int_add k 1 else k]) c.
Proof.
  intros H. unfold Uint64.AppendDict, Uint64.dict_key. rewrite H.
  destruct (column.nullable (Uint64.col c)); reflexivity.
Qed.

Lemma AppendDict_new (v : Z) (c : Uint64.t) :
  Uint64.dict c !! v = None ->
  Uint64.AppendDict v c
  = let key := Z.of_nat (size (Uint64.dict c)) in
    let c1 := Uint64.Append v (Uint64.set_dict (<[v := key]> (Uint64.dict c)) c) in
    Uint64.set_keys
      (Uint64.keys c ++ [if column.nullable (Uint64.col c) then int_add key 1 else key]) c1.
Proof.
  intros H. unfold Uint64.AppendDict, Uint64.dict_key. rewrite H.
  cbn [Uint64.Append Uint64.col Uint64.set_col Uint64.set_dict column.nullable
       column.set_writerData column.set_numRow Uint64.keys].
  destruct (column.nullable (Uint64.col c)); reflexivity.
Qed.

Lemma AppendDict_nullable v c :
  column.nullable (Uint64.col (Uint64.AppendDict v c)) = column.nullable (Uint64.col c).
Proof.
  destruct (Uint64.dict c !! v) as [k|] eqn:H.
  - rewrite (AppendDict_seen v k c H). reflexivity.
  - rewrite (AppendDict_new v c H). reflexivity.
Qed.

Section NonNullable.

Variable c : Uint64.t.
Hypothesis Hnn : column.nullable (Uint64.col c) = false.

Lemma dict_state_seen v k d ks wd :
  dict_state c d ks wd -> d !! v = Some k ->
  dict_state (Uint64.AppendDict v c) d (ks ++ [k]) wd.
Proof.
  intros (Hd & Hk & Hw) Hv. subst d.
  rewrite (AppendDict_seen v k c Hv), Hnn.
  repeat split; cbn; congruence.
Qed.

Lemma dict_state_new v d ks wd :
  dict_state c d ks wd -> d !! v = None ->
  dict_state (Uint64.AppendDict v c)
    (<[v := Z.of_nat (size d)]> d) (ks ++ [Z.of_nat (size d)]) (wd ++ le_split 8 v).
Proof.
  intros (Hd & Hk & Hw) Hv. subst d.
  rewrite (AppendDict_new v c Hv), Hnn, le_split_8.
  repeat split; cbn; congruence.
Qed.

End NonNullable.

(** Values appended through [AppendDict] are in the dictionary afterwards. *)
Lemma AppendDict_lookup_same v c : is_Some (Uint64.dict (Uint64.AppendDict v c) !! v).
Proof.
  destruct (Uint64.dict c !! v) as [k|] eqn:H.
  - rewrite (AppendDict_seen v k c H). cbn. rewrite H. eauto.
  - rewrite (AppendDict_new v c H). cbn. rewrite lookup_insert_eq. eauto.
Qed.

Lemma AppendDict_lookup_keep v w c :
  is_Some (Uint64.dict c !! w) -> is_Some (Uint64.dict (Uint64.AppendDict v c) !! w).
Proof.
  intros Hw. destruct (Uint64.dict c !! v) as [k|] eqn:H.
  - rewrite (AppendDict_seen v k c H). exact Hw.
  - rewrite (AppendDict_new v c H). cbn.
    destruct (decide (v = w)) as [->|Hne].
    + rewrite lookup_insert_eq. eauto.
    + rewrite lookup_insert_ne by exact Hne. exact Hw.
Qed.

Lemma AppendDict_all_seen v (vs : list Z) : forall c,
  v ∈ vs \/ is_Some (Uint64.dict c !! v) ->
  is_Some (Uint64.dict (foldl (fun c x => Uint64.AppendDict x c) c vs) !! v).
Proof.
  induction vs as [|x vs IH]; intros c H; cbn [foldl].
  - destruct H as [H|H]; [inversion H|exact H].
  - apply IH. destruct H as [H|H].
    + apply elem_of_cons in H as [->|H]; [right; apply AppendDict_lookup_same|left; exact H].
    + right. apply AppendDict_lookup_keep, H.
Qed.

Lemma AppendDict_all_nullable (vs : list Z) : forall c,
  column.nullable (Uint64.col (foldl (fun c x => Uint64.AppendDict x c) c vs))
  = column.nullable (Uint64.col c).
Proof.
  induction vs as [|x vs IH]; intros c; cbn [foldl]; [reflexivity|].
  rewrite IH. apply AppendDict_nullable.
Qed.

(** C2.  Dictionary deduplication on a non-nullable Uint64 column.  From a
    fresh or freshly reset column, [AppendDict] of [a], [b], [a], [c], [b]
    with [a], [b], [c] distinct leaves the write buffer holding the encodings
    of [a], [b], [c] in that order and [Keys()] equal to [0, 1, 0, 2, 1].  In
    general, after any sequence of [AppendDict] calls, an [AppendDict] of a
    value already appended leaves the write buffer, the row count and the
    dictionary as they were and appends the key the dictionary holds for it. *)
Theorem Uint64_AppendDict_dedup (c0 : Uint64.t) (a b c : Z) :
  (c0 = Uint64.NewUint64 false
   \/ exists c', column.nullable (Uint64.col c') = false /\ c0 = Uint64.Reset c') ->
  a <> b -> a <> c -> b <> c ->
  (let c5 := Uint64.AppendDict b (Uint64.AppendDict c (Uint64.AppendDict a
               (Uint64.AppendDict b (Uint64.AppendDict a c0)))) in
   column.writerData (Uint64.col c5) = le_split 8 a ++ le_split 8 b ++ le_split 8 c
   /\ Uint64.Keys c5 = [0; 1; 0; 2; 1])
  /\ forall (vs : list Z) (v : Z),
       v ∈ vs ->
       let c1 := foldl (fun c x => Uint64.AppendDict x c) c0 vs in
       exists k,
         Uint64.dict c1 !! v = Some k
         /\ Uint64.AppendDict v c1 = Uint64.set_keys (Uint64.keys c1 ++ [k]) c1.
Proof.
  intros Hfresh Hab Hac Hbc.
  assert (Hnn : column.nullable (Uint64.col c0) = false).
  { destruct Hfresh as [->|(c' & Hn & ->)]; [reflexivity|exact Hn]. }
  assert (H0 : dict_state c0 ∅ [] []).
  { destruct Hfresh as [->|(c' & Hn & ->)]; repeat split. }
  split.
  - cbn zeta.
    pose proof (dict_state_new c0 Hnn a _ _ _ H0 (lookup_empty a)) as H1.
    rewrite map_size_empty in H1.
    set (c1 := Uint64.AppendDict a c0) in *.
    assert (Hnn1 : column.nullable (Uint64.col c1) = false)
      by (unfold c1; rewrite AppendDict_nullable; exact Hnn).
    assert (Hb1 : (<[a := Z.of_nat 0]> (∅ : gmap Z Z)) !! b = None)
      by (rewrite lookup_insert_ne by exact Hab; apply lookup_empty).
    pose proof (dict_state_new c1 Hnn1 b _ _ _ H1 Hb1) as H2.
    rewrite map_size_insert_None, map_size_empty in H2 by apply lookup_empty.
    set (c2 := Uint64.AppendDict b c1) in *.
    assert (Hnn2 : column.nullable (Uint64.col c2) = false)
      by (unfold c2; rewrite AppendDict_nullable; exact Hnn1).
    assert (Ha2 : (<[b := Z.of_nat 1]> (<[a := Z.of_nat 0]> (∅ : gmap Z Z))) !! a
                  = Some (Z.of_nat 0)).
    { rewrite lookup_insert_ne by (intros ->; apply Hab; reflexivity).
      apply lookup_insert_eq. }
    pose proof (dict_state_seen c2 Hnn2 a _ _ _ _ H2 Ha2) as H3.
    set (c3 := Uint64.AppendDict a c2) in *.
    assert (Hnn3 : column.nullable (Uint64.col c3) = false)
      by (unfold c3; rewrite AppendDict_nullable; exact Hnn2).
    assert (Hc3 : (<[b := Z.of_nat 1]> (<[a := Z.of_nat 0]> (∅ : gmap Z Z))) !! c = None).
    { rewrite lookup_insert_ne by exact Hbc.
      rewrite lookup_insert_ne by exact Hac. apply lookup_empty. }
    pose proof (dict_state_new c3 Hnn3 c _ _ _ H3 Hc3) as H4.
    rewrite map_size_insert_None in H4 by exact Hb1.
    rewrite map_size_insert_None, map_size_empty in H4 by apply lookup_empty.
    set (c4 := Uint64.AppendDict c c3) in *.
    assert (Hnn4 : column.nullable (Uint64.col c4) = false)
      by (unfold c4; rewrite AppendDict_nullable; exact Hnn3).
    assert (Hb4 : (<[c := Z.of_nat 2]> (<[b := Z.of_nat 1]>
                    (<[a := Z.of_nat 0]> (∅ : gmap Z Z)))) !! b = Some (Z.of_nat 1)).
    { rewrite lookup_insert_ne by (intros ->; apply Hbc; reflexivity).
      apply lookup_insert_eq. }
    pose proof (dict_state_seen c4 Hnn4 b _ _ _ _ H4 Hb4) as (_ & Hk & Hw).
    unfold Uint64.Keys. rewrite Hk, Hw. cbn [app]. rewrite <- !app_assoc.
    split; reflexivity.
  - intros vs v Hv. cbn zeta.
    destruct (AppendDict_all_seen v vs c0 (or_introl Hv)) as [k Hk].
    exists k. split; [exact Hk|].
    rewrite (AppendDict_seen v k _ Hk), AppendDict_all_nullable, Hnn. reflexivity.
Qed.

Lemma Uint64_AppendDict_dedup_witness :
  Uint64.Keys (Uint64.AppendDict 20 (Uint64.AppendDict 30 (Uint64.AppendDict 10
     (Uint64.AppendDict 20 (Uint64.AppendDict 10 (Uint64.NewUint64 false))))))
  = [0; 1; 0; 2; 1].
Proof.
  refine (proj2 (proj1
    (Uint64_AppendDict_dedup (Uint64.NewUint64 false) 10 20 30 (or_introl eq_refl) _ _ _)));
    lia.
Defined.

(** *** The dictionary invariant *)

Lemma order_add_lookup v order i w :
  order !! i = Some w -> order_add v order !! i = Some w.
Proof.
  intros H. unfold order_add. case_decide; [exact H|].
  apply lookup_app_l_Some, H.
Qed.

Lemma order_add_length v order : (length (order_add v order) <= S (length order))%nat.
Proof.
  unfold order_add. case_decide; [lia|]. rewrite length_app. simpl. lia.
Qed.

Lemma dict_inv_fresh nullable : dict_inv [] (Uint64.NewUint64 nullable).
Proof.
  split; cbn.
  - intros v k. rewrite lookup_empty. split; [discriminate|]. intros [_ H]. discriminate.
  - apply map_size_empty.
  - constructor.
  - reflexivity.
Qed.

Lemma dict_key_inv (order : list Z) (c : Uint64.t) (v : Z) :
  dict_inv order c ->
  exists key c1,
    Uint64.dict_key v c = (key, c1)
    /\ dict_inv (order_add v order) c1
    /\ 0 <= key < Z.of_nat (length (order_add v order))
    /\ order_add v order !! Z.to_nat key = Some v
    /\ Uint64.keys c1 = Uint64.keys c
    /\ column.nullable (Uint64.col c1) = column.nullable (Uint64.col c).
Proof.
  intros [Hlk Hsz Hnd Hdat]. unfold Uint64.dict_key.
  destruct (Uint64.dict c !! v) as [k|] eqn:Hv.
  - apply Hlk in Hv as Hk. destruct Hk as [Hk0 Hk].
    assert (Hin : v ∈ order) by (apply list_elem_of_lookup; eauto).
    unfold order_add. rewrite decide_True by exact Hin.
    exists k, c. split; [reflexivity|]. split; [split; assumption|].
    apply lookup_lt_Some in Hk as Hlt.
    repeat split; try assumption; lia.
  - assert (Hnin : v ∉ order).
    { intros Hin. apply list_elem_of_lookup in Hin as [i Hi].
      assert (Uint64.dict c !! v = Some (Z.of_nat i)) as Hc.
      { apply Hlk. split; [lia|]. rewrite Nat2Z.id. exact Hi. }
      congruence. }
    unfold order_add. rewrite decide_False by exact Hnin.
    eexists _, _. split; [reflexivity|].
    rewrite Hsz, length_app. cbn [length].
    split; [|repeat split; try lia].
    + split.
      * intros w k. cbn [Uint64.dict Uint64.Append Uint64.set_col Uint64.set_dict].
        destruct (decide (v = w)) as [<-|Hne].
        -- rewrite lookup_insert_eq. split.
           ++ intros [= <-]. split; [lia|]. rewrite Nat2Z.id.
              apply list_lookup_middle. reflexivity.
           ++ intros [Hk0 Hk]. f_equal.
              destruct (decide (Z.to_nat k < length order)%nat) as [Hlt|Hge].
              ** rewrite lookup_app_l in Hk by exact Hlt.
                 exfalso. apply Hnin. apply list_elem_of_lookup. eauto.
              ** apply lookup_lt_Some in Hk. rewrite length_app in Hk. cbn in Hk. lia.
        -- rewrite lookup_insert_ne by exact Hne. rewrite Hlk. split.
           ++ intros [Hk0 Hk]. split; [exact Hk0|]. apply lookup_app_l_Some, Hk.
           ++ intros [Hk0 Hk]. split; [exact Hk0|].
              destruct (decide (Z.to_nat k < length order)%nat) as [Hlt|Hge].
              ** rewrite lookup_app_l in Hk by exact Hlt. exact Hk.
              ** rewrite lookup_app_r in Hk by lia.
                 destruct (Z.to_nat k - length order)%nat; cbn in Hk; [congruence|discriminate].
      * cbn [Uint64.dict Uint64.Append Uint64.set_col Uint64.set_dict].
        rewrite map_size_insert_None by exact Hv. rewrite Hsz, length_app. cbn. lia.
      * apply NoDup_app. split; [exact Hnd|]. split; [|apply NoDup_singleton].
        intros x Hx Hx'. apply list_elem_of_singleton in Hx'. subst x. exact (Hnin Hx).
      * cbn [Uint64.Append Uint64.col Uint64.set_col Uint64.set_dict column.writerData
             column.set_writerData column.set_numRow].
        rewrite Hdat, map_app, concat_app. cbn [map concat].
        rewrite le_split_8, app_nil_r. reflexivity.
    + rewrite Nat2Z.id. apply list_lookup_middle. reflexivity.
Qed.

Lemma insertion_order_snoc ops o :
  insertion_order (ops ++ [o])
  = match op_value o with
    | Some v => order_add v (insertion_order ops)
    | None => insertion_order ops
    end.
Proof. unfold insertion_order. rewrite foldl_app. reflexivity. Qed.

Lemma key_ok_mono order order' o k :
  (forall i w, order !! i = Some w -> order' !! i = Some w) ->
  key_ok order o k -> key_ok order' o k.
Proof.
  unfold key_ok. intros Hm. destruct (op_value o); [|trivial].
  intros [H1 H2]. split; [exact H1|apply Hm, H2].
Qed.

Lemma run_dict_ops_snoc ops o c :
  run_dict_ops (ops ++ [o]) c = run_dict_op (run_dict_ops ops c) o.
Proof. unfold run_dict_ops. rewrite foldl_app. reflexivity. Qed.

(** One append with a value on a nullable column. *)
Lemma dict_value_step (order : list Z) (c : Uint64.t) (v : Z) (o : dict_op) :
  dict_inv order c ->
  column.nullable (Uint64.col c) = true ->
  Z.of_nat (length order) < max_int ->
  o = OpAppendDict v \/ o = OpAppendDictP (Some v) ->
  exists pos,
    0 <= pos
    /\ order_add v order !! Z.to_nat pos = Some v
    /\ Uint64.keys (run_dict_op c o) = Uint64.keys c ++ [pos + 1]
    /\ dict_inv (order_add v order) (run_dict_op c o)
    /\ column.nullable (Uint64.col (run_dict_op c o)) = true.
Proof.
  intros Hinv Hn Hmax Ho.
  destruct (dict_key_inv order c v Hinv) as (key & c1 & Hdk & Hinv1 & Hkey & Hpos & Hks & Hn1).
  pose proof (order_add_length v order) as Hlen.
  assert (Hadd : int_add key 1 = key + 1)
    by (apply int_add_small; unfold max_int in Hmax; lia).
  exists key. split; [lia|]. split; [exact Hpos|].
  assert (Hinv' : forall ks, dict_inv (order_add v order) (Uint64.set_keys ks c1)).
  { intros ks. destruct Hinv1. split; assumption. }
  destruct Ho as [-> | ->]; cbn [run_dict_op];
    unfold Uint64.AppendDict, Uint64.AppendDictP; rewrite Hdk.
  - rewrite Hn1, Hn, Hadd. cbn [Uint64.keys Uint64.set_keys Uint64.col].
    rewrite Hks. split; [reflexivity|]. split; [apply Hinv'|]. congruence.
  - rewrite Hadd. cbn [Uint64.keys Uint64.set_keys Uint64.col].
    rewrite Hks. split; [reflexivity|]. split; [apply Hinv'|]. congruence.
Qed.

Lemma run_dict_ops_inv (ops : list dict_op) :
  len ops < max_int ->
  let c := run_dict_ops ops (Uint64.NewUint64 true) in
  dict_inv (insertion_order ops) c
  /\ column.nullable (Uint64.col c) = true
  /\ Forall2 (key_ok (insertion_order ops)) ops (Uint64.keys c)
  /\ (length (insertion_order ops) <= length ops)%nat.
Proof.
  induction ops as [|o ops IH] using rev_ind; intros Hmax c.
  - split; [apply dict_inv_fresh|]. split; [reflexivity|].
    split; [constructor|]. cbn. lia.
  - unfold len in Hmax. rewrite length_app in Hmax. cbn [length] in Hmax.
    destruct IH as (Hinv & Hn & Hkeys & Hlen); [unfold len; lia|].
    subst c. rewrite run_dict_ops_snoc, insertion_order_snoc, length_app. cbn [length].
    set (c := run_dict_ops ops (Uint64.NewUint64 true)) in *.
    assert (Hnil : forall o', op_value o' = None ->
              run_dict_op c o' = Uint64.set_keys (Uint64.keys c ++ [0]) c).
    { intros [v| |[v|]]; cbn; try discriminate; reflexivity. }
    destruct (op_value o) as [v|] eqn:Hov.
    + assert (Ho : o = OpAppendDict v \/ o = OpAppendDictP (Some v)).
      { destruct o as [w| |[w|]]; cbn in Hov; try discriminate;
          injection Hov as ->; auto. }
      destruct (dict_value_step _ c v o Hinv Hn ltac:(lia) Ho)
        as (pos & Hpos0 & Hpos & Hk & Hinv' & Hn').
      pose proof (order_add_length v (insertion_order ops)).
      split; [exact Hinv'|]. split; [exact Hn'|]. split; [|lia].
      rewrite Hk. apply Forall2_app.
      * eapply Forall2_impl; [exact Hkeys|]. intros o' k'.
        apply key_ok_mono. intros i w. apply order_add_lookup.
      * constructor; [|constructor]. unfold key_ok. rewrite Hov.
        split; [lia|]. replace (pos + 1 - 1) with pos by lia. exact Hpos.
    + rewrite (Hnil o Hov).
      split; [destruct Hinv; split; assumption|]. split; [exact Hn|]. split; [|lia].
      cbn [Uint64.keys Uint64.set_keys]. apply Forall2_app; [exact Hkeys|].
      constructor; [|constructor]. unfold key_ok. rewrite Hov. reflexivity.
Qed.

(** C4.  The null sentinel of a nullable dictionary column.  On any column
    state [AppendDictNil] appends key [0] and touches nothing else, and
    [AppendDictP(nil)] is the same state change.  After any sequence of
    dictionary appends on a fresh nullable column, the key of every append
    that carried a value is at least 1 and is that value's position in the
    insertion order plus one, the key of every nil append is [0]; the next
    [AppendDict] or [AppendDictP] with a value appends such a key too. *)
Theorem Uint64_nullable_dict_sentinel (ops : list dict_op) :
  len ops < max_int ->
  let c := run_dict_ops ops (Uint64.NewUint64 true) in
  (forall c0 : Uint64.t,
      Uint64.AppendDictNil c0 = Uint64.set_keys (Uint64.keys c0 ++ [0]) c0
      /\ Uint64.AppendDictP None c0 = Uint64.AppendDictNil c0)
  /\ Forall2 (key_ok (insertion_order ops)) ops (Uint64.keys c)
  /\ forall v : Z,
       exists pos,
         0 <= pos
         /\ order_add v (insertion_order ops) !! Z.to_nat pos = Some v
         /\ Uint64.keys (Uint64.AppendDict v c) = Uint64.keys c ++ [pos + 1]
         /\ Uint64.keys (Uint64.AppendDictP (Some v) c) = Uint64.keys c ++ [pos + 1]
         /\ pos + 1 <> 0.
Proof.
  intros Hmax c.
  destruct (run_dict_ops_inv ops Hmax) as (Hinv & Hn & Hkeys & Hlen). fold c in Hinv, Hn, Hkeys.
  split; [intros c0; split; reflexivity|]. split; [exact Hkeys|].
  intros v.
  assert (Hlt : Z.of_nat (length (insertion_order ops)) < max_int) by (unfold len in Hmax; lia).
  destruct (dict_value_step _ c v (OpAppendDict v) Hinv Hn Hlt (or_introl eq_refl))
    as (pos & Hpos0 & Hpos & Hk & _).
  destruct (dict_value_step _ c v (OpAppendDictP (Some v)) Hinv Hn Hlt (or_intror eq_refl))
    as (pos' & Hpos0' & Hpos' & Hk' & _).
  assert (pos' = pos) as ->.
  { assert (NoDup (order_add v (insertion_order ops))) as Hnd.
    { destruct (dict_key_inv _ c v Hinv) as (? & ? & _ & [] & _). assumption. }
    pose proof (NoDup_lookup _ _ _ _ Hnd Hpos Hpos'). lia. }
  exists pos. repeat split; try assumption. lia.
Qed.

Lemma Uint64_nullable_dict_sentinel_witness :
  Forall2 (key_ok (insertion_order [OpAppendDict 7; OpAppendDictNil; OpAppendDictP (Some 9);
                                    OpAppendDictP None; OpAppendDict 7]))
    [OpAppendDict 7; OpAppendDictNil; OpAppendDictP (Some 9); OpAppendDictP None; OpAppendDict 7]
    (Uint64.keys (run_dict_ops
       [OpAppendDict 7; OpAppendDictNil; OpAppendDictP (Some 9); OpAppendDictP None;
        OpAppendDict 7] (Uint64.NewUint64 true))).
Proof.
  refine (proj1 (proj2 (Uint64_nullable_dict_sentinel
    [OpAppendDict 7; OpAppendDictNil; OpAppendDictP (Some 9); OpAppendDictP None;
     OpAppendDict 7] _))).
  vm_compute. reflexivity.
Defined.

(** ** One row of a [DateTime] column *)

Lemma instant_epoch z : time.Time_Unix (instant z) = z.
Proof. reflexivity. Qed.

Lemma le_combine_split_4 z : le_combine (le_split 4 z) = z mod 2 ^ 32.
Proof. rewrite le_combine_split. reflexivity. Qed.

(** Decoding a block that is one 4-byte row. *)
Lemma DateTime_one_row (r : DateTime.t) (out : list time.Time) (bs : list byte) :
  length bs = 4%nat ->
  column.size (DateTime.col r) = DatetimeSize ->
  column.b (DateTime.col r) = bs ->
  column.totalByte (DateTime.col r) = len (column.b (DateTime.col r)) ->
  column.i (DateTime.col r) = 0 ->
  (exists r', DateTime.Next r = Done (true, r')
              /\ DateTime.Value r' = instant (le_combine bs))
  /\ DateTime.ReadAll r out = Done (r, out ++ [instant (le_combine bs)]).
Proof.
  intros Hbs Hsize Hb Htotal Hi.
  assert (Hlen : len (column.b (DateTime.col r)) = 4) by (unfold len; rewrite Hb, Hbs; reflexivity).
  assert (Htake : take 4 (drop 0 (column.b (DateTime.col r))) = bs).
  { rewrite Hb. cbn [drop]. apply take_ge. lia. }
  split.
  - eexists. split.
    + apply DateTime_Next_step; try assumption; unfold max_int; lia.
    + unfold DateTime.Value. cbn [DateTime.val DateTime.set_val].
      rewrite Hi. change (Z.to_nat 0) with 0%nat. rewrite Htake. reflexivity.
  - rewrite (DateTime_ReadAll_rows r Hsize Htotal) with (n := 1%nat).
    + cbn [rows32 map]. rewrite Htake. reflexivity.
    + unfold max_int; lia.
    + lia.
Qed.

(** C3.  Epoch values at or below zero collapse to epoch 0.  [Append] of a
    time whose [Unix()] is at most 0 writes exactly four zero bytes; a block
    that is four zero bytes decodes, through [Next] and through [ReadAll], to
    the instant of epoch 0; so the instant read back has epoch 0, and is not
    the instant written when that one lies before the epoch. *)
Theorem DateTime_nonpositive_epoch (v : time.Time) (w r : DateTime.t)
    (out : list time.Time) :
  time.Time_Unix v <= 0 ->
  column.size (DateTime.col w) = DatetimeSize ->
  column.size (DateTime.col r) = DatetimeSize ->
  column.b (DateTime.col r) = replicate 4 Byte.x00 ->
  column.totalByte (DateTime.col r) = len (column.b (DateTime.col r)) ->
  column.i (DateTime.col r) = 0 ->
  exists w' r',
    DateTime.Append v w = Done w'
    /\ column.writerData (DateTime.col w')
       = column.writerData (DateTime.col w) ++ column.b (DateTime.col r)
    /\ DateTime.Next r = Done (true, r')
    /\ DateTime.Value r' = time.Unix 0 0
    /\ DateTime.ReadAll r out = Done (r, out ++ [time.Unix 0 0])
    /\ time.Time_Unix (DateTime.Value r') = 0
    /\ (time.Time_Unix v < 0 -> DateTime.Value r' <> v).
Proof.
  intros Hv Hw Hsize Hb Htotal Hi.
  destruct (DateTime_one_row r out (replicate 4 Byte.x00) eq_refl Hsize Hb Htotal Hi)
    as ((r' & Hnext & Hval) & Hall).
  change (instant (le_combine (replicate 4 Byte.x00))) with (time.Unix 0 0) in *.
  eexists _, r'. split.
  - unfold DateTime.Append. destruct (Z.leb_spec (time.Time_Unix v) 0); [|lia].
    cbn [DateTime.col DateTime.set_col column.size column.set_numRow].
    rewrite Hw. reflexivity.
  - cbn [DateTime.col DateTime.set_col column.writerData column.set_writerData
         column.set_numRow].
    rewrite Hb. split; [reflexivity|]. split; [exact Hnext|]. split; [exact Hval|].
    split; [exact Hall|]. rewrite Hval. split; [reflexivity|].
    intros Hneg Heq. rewrite <- Heq in Hneg. cbn in Hneg. lia.
Qed.

(** C9.  Only the low 32 bits of a positive epoch are written.  For a time
    with [Unix()] above 0, [Append] writes the four little-endian bytes of
    [Unix() mod 2^32]; the instant decoded from them has epoch
    [Unix() mod 2^32], which is the original epoch exactly when it is below
    [2^32]. *)
Theorem DateTime_low_32_bits (v : time.Time) (w r : DateTime.t) (out : list time.Time) :
  0 < time.Time_Unix v ->
  column.size (DateTime.col w) = DatetimeSize ->
  column.size (DateTime.col r) = DatetimeSize ->
  column.b (DateTime.col r) = le_split 4 (time.Time_Unix v mod 2 ^ 32) ->
  column.totalByte (DateTime.col r) = len (column.b (DateTime.col r)) ->
  column.i (DateTime.col r) = 0 ->
  exists w' r',
    DateTime.Append v w = Done w'
    /\ column.writerData (DateTime.col w')
       = column.writerData (DateTime.col w) ++ column.b (DateTime.col r)
    /\ DateTime.Next r = Done (true, r')
    /\ DateTime.ReadAll r out = Done (r, out ++ [DateTime.Value r'])
    /\ time.Time_Unix (DateTime.Value r') = time.Time_Unix v mod 2 ^ 32
    /\ (time.Time_Unix (DateTime.Value r') = time.Time_Unix v
        <-> 0 < time.Time_Unix v < 2 ^ 32)
    /\ (2 ^ 32 <= time.Time_Unix v ->
        time.Time_Unix (DateTime.Value r') = time.Time_Unix v mod 2 ^ 32).
Proof.
  intros Hv Hw Hsize Hb Htotal Hi.
  destruct (DateTime_one_row r out _ (length_le_split 4 _) Hsize Hb Htotal Hi)
    as ((r' & Hnext & Hval) & Hall).
  rewrite le_combine_split_4, Zmod_mod in Hval, Hall.
  eexists _, r'. split.
  - unfold DateTime.Append. destruct (Z.leb_spec (time.Time_Unix v) 0); [lia|].
    reflexivity.
  - cbn [DateTime.col DateTime.set_col column.writerData column.set_writerData
         column.set_numRow].
    rewrite Hb. change 32 with (Z.of_nat 4 * 8). rewrite le_split_mod, le_split_4.
    split; [reflexivity|]. split; [exact Hnext|]. rewrite Hval, instant_epoch.
    split; [exact Hall|]. split; [reflexivity|].
    change (Z.of_nat 4 * 8) with 32. split; [|intros _; reflexivity].
    split.
    + intros Heq. split; [exact Hv|]. rewrite <- Heq. apply Z.mod_pos_bound. lia.
    + intros [_ Hlt]. apply Z.mod_small. lia.
Qed.

(** ** Rows of an [ArrayNullable] column *)

Section ArrayRows.

Context {T : Type}.
Implicit Types (c : @ArrayNullable.t T) (rows : list (list (option T))).

Lemma len_nonneg {A} (l : list A) : 0 <= len l.
Proof. unfold len. lia. Qed.

Lemma len_app {A} (l k : list A) : len (l ++ k) = len l + len k.
Proof. unfold len. rewrite length_app. lia. Qed.

Lemma AppendMultiP_state rows : forall c,
  0 <= ArrayNullable.offset c ->
  ArrayNullable.offset c + len (concat rows) < 2 ^ 64 ->
  let c' := ArrayNullable.AppendMultiP rows c in
  ArrayNullable.appended (ArrayNullable.offsetColumn c')
  = ArrayNullable.appended (ArrayNullable.offsetColumn c)
      ++ cumsum (ArrayNullable.offset c) (map len rows)
  /\ ArrayNullable.written (ArrayNullable.dataColumn c')
     = ArrayNullable.written (ArrayNullable.dataColumn c) ++ concat rows
  /\ ArrayNullable.decoded (ArrayNullable.offsetColumn c')
     = ArrayNullable.decoded (ArrayNullable.offsetColumn c).
Proof.
  induction rows as [|r rows IH]; intros c H0 Hlt; cbn zeta.
  - cbn. rewrite !app_nil_r. auto.
  - cbn [concat] in Hlt. rewrite len_app in Hlt.
    pose proof (len_nonneg r). pose proof (len_nonneg (concat rows)).
    unfold ArrayNullable.AppendMultiP. cbn [foldl].
    fold (ArrayNullable.AppendMultiP rows (ArrayNullable.AppendP r c)).
    destruct (IH (ArrayNullable.AppendP r c)) as (Ha & Hw & Hd).
    + cbn. rewrite Z.mod_small by lia. lia.
    + cbn. rewrite Z.mod_small by lia. lia.
    + rewrite Ha, Hw, Hd. cbn. rewrite Z.mod_small by lia.
      rewrite <- !app_assoc. auto.
Qed.

Lemma cumsum_lookup rows : forall acc i r,
  rows !! i = Some r ->
  cumsum acc (map len rows) !! i = Some (acc + len (concat (take i rows)) + len r).
Proof.
  induction rows as [|r0 rows IH]; intros acc i r Hi; [discriminate|].
  destruct i as [|i]; cbn in Hi |- *.
  - injection Hi as ->. f_equal. unfold len. cbn. lia.
  - rewrite (IH _ _ _ Hi). f_equal. rewrite len_app. lia.
Qed.

Lemma concat_row rows i r :
  rows !! i = Some r ->
  take (length r) (drop (length (concat (take i rows))) (concat rows)) = r.
Proof.
  intros Hi. rewrite <- (take_drop_middle rows i r Hi) at 2.
  rewrite concat_app, drop_app_length. cbn [concat].
  apply take_app_length.
Qed.

Lemma len_concat_take_le rows i r :
  rows !! i = Some r ->
  len (concat (take i rows)) + len r <= len (concat rows).
Proof.
  intros Hi. rewrite <- (take_drop_middle rows i r Hi) at 2.
  rewrite concat_app, len_app. cbn [concat]. rewrite len_app.
  pose proof (len_nonneg (concat (drop (S i) rows))). lia.
Qed.

(** [RowP] on a block whose offsets are the cumulative lengths of [rows]
    and whose materialized view is, or will be, their concatenation. *)
Lemma RowP_row rows c i r :
  ArrayNullable.decoded (ArrayNullable.offsetColumn c) = cumsum 0 (map len rows) ->
  fst (ArrayNullable.getColumnData c) = concat rows ->
  Z.of_nat i <= max_int ->
  rows !! i = Some r ->
  ArrayNullable.RowP (Z.of_nat i) c = Done (r, snd (ArrayNullable.getColumnData c)).
Proof.
  intros Hoff Hcd Hmax Hi. unfold ArrayNullable.RowP.
  assert (Hd : ArrayNullable.decoded
                 (ArrayNullable.offsetColumn (snd (ArrayNullable.getColumnData c)))
               = ArrayNullable.decoded (ArrayNullable.offsetColumn c)).
  { unfold ArrayNullable.getColumnData. case (_ =? _); reflexivity. }
  destruct (ArrayNullable.getColumnData c) as [cd c1] eqn:Hg.
  cbn [fst snd] in *. subst cd.
  assert (Hhi : ArrayNullable.Base_Row (Z.of_nat i) (ArrayNullable.offsetColumn c1)
                = Done (0 + len (concat (take i rows)) + len r)).
  { unfold ArrayNullable.Base_Row, index.
    destruct (Z.leb_spec 0 (Z.of_nat i)); [|lia].
    rewrite Nat2Z.id, Hd, Hoff, (cumsum_lookup _ _ _ _ Hi). reflexivity. }
  pose proof (len_concat_take_le rows i r Hi) as Hle.
  pose proof (len_nonneg r) as Hr. pose proof (len_nonneg (concat (take i rows))) as Ht.
  destruct i as [|i].
  - change (Z.of_nat 0 =? 0) with true. cbn [mbind outcome_bind].
    rewrite Hhi. cbn [mbind outcome_bind].
    change (len (concat (take 0 rows))) with 0 in *.
    rewrite slice_ok by lia. cbn [of_option mbind outcome_bind].
    replace (Z.to_nat (0 + 0 + len r - 0)) with (length r) by (unfold len; lia).
    pose proof (concat_row rows 0 r Hi) as Hrow.
    change (length (concat (take 0 rows))) with 0%nat in Hrow.
    change (Z.to_nat 0) with 0%nat. rewrite Hrow. reflexivity.
  - destruct (Z.eqb_spec (Z.of_nat (S i)) 0); [lia|].
    rewrite int_add_small by (unfold max_int in Hmax; lia).
    assert (Hi' : is_Some (rows !! i)).
    { apply lookup_lt_is_Some. apply lookup_lt_Some in Hi. lia. }
    destruct Hi' as [r' Hi'].
    assert (Hlo : ArrayNullable.Base_Row (Z.of_nat (S i) + -1) (ArrayNullable.offsetColumn c)
                  = Done (0 + len (concat (take i rows)) + len r')).
    { unfold ArrayNullable.Base_Row, index.
      destruct (Z.leb_spec 0 (Z.of_nat (S i) + -1)); [|lia].
      replace (Z.to_nat (Z.of_nat (S i) + -1)) with i by lia.
      rewrite Hoff, (cumsum_lookup _ _ _ _ Hi'). reflexivity. }
    rewrite Hlo. cbn [mbind outcome_bind].
    rewrite Hhi. cbn [mbind outcome_bind].
    assert (Hsplit : len (concat (take (S i) rows)) = len (concat (take i rows)) + len r').
    { rewrite (take_S_r _ _ _ Hi'), concat_app, len_app. cbn [concat].
      rewrite app_nil_r. reflexivity. }
    rewrite <- Z.add_assoc, <- Hsplit.
    pose proof (len_nonneg (concat (take (S i) rows))).
    rewrite slice_ok by lia. cbn [of_option mbind outcome_bind].
    replace (Z.to_nat (0 + len (concat (take (S i) rows)) + len r
                       - (0 + len (concat (take (S i) rows)))))
      with (length r) by (unfold len; lia).
    replace (Z.to_nat (0 + len (concat (take (S i) rows))))
      with (length (concat (take (S i) rows))) by (unfold len; lia).
    rewrite (concat_row rows (S i) r Hi). reflexivity.
Qed.

End ArrayRows.

Section ArrayRowsClaim.

Context {T : Type}.
Implicit Types (c : @ArrayNullable.t T) (rows : list (list (option T))).

Lemma set_dataColumn_twice (d1 d2 : @ArrayNullable.NullableColumn T) c :
  ArrayNullable.set_dataColumn d1 (ArrayNullable.set_dataColumn d2 c)
  = ArrayNullable.set_dataColumn d1 c.
Proof. reflexivity. Qed.

(** [AppendP] is [AppendLen] followed by one [AppendItemP] per element. *)
Lemma AppendP_items (v : list (option T)) c :
  ArrayNullable.AppendP v c
  = foldl (fun c x => ArrayNullable.AppendItemP x c)
          (ArrayNullable.AppendLen (len v) c) v.
Proof.
  unfold ArrayNullable.AppendP. generalize (ArrayNullable.AppendLen (len v) c) as c1.
  induction v as [|x v IH]; intros c1; cbn [foldl].
  - destruct c1 as [o f [d w] cd].
    unfold ArrayNullable.set_dataColumn, ArrayNullable.NullableColumn_AppendMultiP.
    simpl. rewrite app_nil_r. reflexivity.
  - rewrite <- IH. destruct c1 as [o f [d w] cd].
    unfold ArrayNullable.set_dataColumn, ArrayNullable.NullableColumn_AppendMultiP,
      ArrayNullable.AppendItemP, ArrayNullable.NullableColumn_AppendP.
    simpl. rewrite <- app_assoc. reflexivity.
Qed.

(** The span of row [i]: from the previous cumulative offset, 0 before the
    first row, to its own. *)
Lemma row_span rows i r :
  rows !! i = Some r ->
  exists lo hi,
    (0 :: cumsum 0 (map len rows)) !! i = Some lo
    /\ cumsum 0 (map len rows) !! i = Some hi
    /\ hi - lo = len r
    /\ slice (concat rows) lo hi = Some r.
Proof.
  intros Hi.
  exists (len (concat (take i rows))), (0 + len (concat (take i rows)) + len r).
  pose proof (len_concat_take_le rows i r Hi) as Hle.
  pose proof (len_nonneg r) as Hr.
  pose proof (len_nonneg (concat (take i rows))) as Ht.
  split; [|split; [apply cumsum_lookup, Hi|split; [lia|]]].
  - destruct i as [|i]; [reflexivity|]. cbn [lookup list_lookup].
    assert (Hi' : is_Some (rows !! i)).
    { apply lookup_lt_is_Some. apply lookup_lt_Some in Hi. lia. }
    destruct Hi' as [r' Hi'].
    change ((cumsum 0 (map len rows)) !! i = Some (len (concat (take (S i) rows)))).
    rewrite (cumsum_lookup _ _ _ _ Hi'), (take_S_r _ _ _ Hi'), concat_app, len_app.
    cbn [concat]. rewrite app_nil_r. f_equal; lia.
  - rewrite slice_ok by lia. f_equal.
    replace (Z.to_nat (0 + len (concat (take i rows)) + len r - len (concat (take i rows))))
      with (length r) by (unfold len; lia).
    replace (Z.to_nat (len (concat (take i rows))))
      with (length (concat (take i rows))) by (unfold len; lia).
    apply concat_row, Hi.
Qed.

(** C6.  Rows of an array of nullable values.  When the rows [rows] are
    appended to a fresh column, the offsets written are the cumulative sums
    of their lengths.  On a column that decodes those offsets and that
    inner data, [RowP(i)] returns the span of the materialized inner data
    from [offset[i-1]], taken as 0 for the first row, to [offset[i]], and
    that span is row [i], so it has as many elements as were appended for
    it. *)
Theorem ArrayNullable_RowP_rows (dc : @ArrayNullable.NullableColumn T) rows c :
  ArrayNullable.written dc = [] ->
  len (concat rows) < 2 ^ 64 ->
  len rows <= max_int ->
  let w := ArrayNullable.AppendMultiP rows (ArrayNullable.NewArrayNullable dc) in
  ArrayNullable.decoded (ArrayNullable.offsetColumn c)
  = ArrayNullable.appended (ArrayNullable.offsetColumn w) ->
  fst (ArrayNullable.getColumnData c) = ArrayNullable.written (ArrayNullable.dataColumn w) ->
  ArrayNullable.appended (ArrayNullable.offsetColumn w) = cumsum 0 (map len rows)
  /\ forall (i : nat) (r : list (option T)),
       rows !! i = Some r ->
       exists lo hi,
         (0 :: ArrayNullable.decoded (ArrayNullable.offsetColumn c)) !! i = Some lo
         /\ ArrayNullable.decoded (ArrayNullable.offsetColumn c) !! i = Some hi
         /\ hi - lo = len r
         /\ slice (fst (ArrayNullable.getColumnData c)) lo hi = Some r
         /\ ArrayNullable.RowP (Z.of_nat i) c
            = Done (r, snd (ArrayNullable.getColumnData c)).
Proof.
  intros Hdc Hlt Hmax w Hoff Hcd.
  destruct (AppendMultiP_state rows (ArrayNullable.NewArrayNullable dc))
    as (Ha & Hw & _); [cbn; lia|cbn; lia|].
  fold w in Ha, Hw. cbn in Ha, Hw. rewrite Hdc in Hw. cbn in Hw.
  rewrite Ha in *. rewrite Hw in Hcd.
  split; [reflexivity|]. intros i r Hi.
  destruct (row_span rows i r Hi) as (lo & hi & Hlo & Hhi & Hd & Hs).
  exists lo, hi. rewrite Hoff, Hcd.
  split; [exact Hlo|]. split; [exact Hhi|]. split; [exact Hd|]. split; [exact Hs|].
  apply (RowP_row rows); try assumption.
  apply lookup_lt_Some in Hi. unfold len in Hmax. lia.
Qed.

End ArrayRowsClaim.

(** ** Dynamic scans of an [ArrayNullable] column *)

Section ScanClaims.

Context {T Any U E : Type}.
Context (to_any : list (option T) -> Any).
Context (inner_Scan : @ArrayNullable.NullableColumn T -> Z -> outcome (E + U)).
Context (zeroU : U).

Local Abbreviation Scan := (ArrayNullable.Scan to_any inner_Scan zeroU).
Local Abbreviation ScanValue := (ArrayNullable.ScanValue (Any := Any) inner_Scan zeroU).




End ScanClaims.

(** ** The materialized view of an [ArrayNullable] column *)

Section CacheClaims.

Context {T : Type}.
Implicit Types (c : @ArrayNullable.t T).

Lemma getColumnData_empty c :
  ArrayNullable.columnData c = [] ->
  ArrayNullable.getColumnData c
  = (ArrayNullable.NullableColumn_DataP (ArrayNullable.dataColumn c),
     ArrayNullable.set_columnData
       (ArrayNullable.NullableColumn_DataP (ArrayNullable.dataColumn c)) c).
Proof. intros H. unfold ArrayNullable.getColumnData. rewrite H. reflexivity. Qed.

Lemma getColumnData_filled c :
  ArrayNullable.columnData c <> [] ->
  ArrayNullable.getColumnData c = (ArrayNullable.columnData c, c).
Proof.
  intros H. unfold ArrayNullable.getColumnData.
  destruct (ArrayNullable.columnData c) as [|x l]; [congruence|].
  unfold len. cbn [length]. destruct (Z.eqb_spec (Z.of_nat (S (length l))) 0); [lia|].
  reflexivity.
Qed.

(** C8, as amended.  A successful [ReadRaw] itself fills the cache from the
    inner column's [DataP].  [getColumnData], through which [DataP],
    [ReadP] and [RowP] read, computes the cache from the inner column only
    when it is empty and otherwise returns it as it is.  The reset hook,
    and with it [Reset], leaves the cache empty. *)
Theorem ArrayNullable_columnData_cache c :
  (forall num r c',
      ArrayNullable.ReadRaw num r c = (None, c') ->
      ArrayNullable.columnData c'
      = ArrayNullable.NullableColumn_DataP (ArrayNullable.dataColumn c'))
  /\ (ArrayNullable.columnData c = [] ->
      ArrayNullable.getColumnData c
      = (ArrayNullable.NullableColumn_DataP (ArrayNullable.dataColumn c),
         ArrayNullable.set_columnData
           (ArrayNullable.NullableColumn_DataP (ArrayNullable.dataColumn c)) c))
  /\ (ArrayNullable.columnData c <> [] ->
      ArrayNullable.getColumnData c = (ArrayNullable.columnData c, c))
  /\ (forall row v c1,
        ArrayNullable.RowP row c = Done (v, c1) -> c1 = snd (ArrayNullable.getColumnData c))
  /\ (forall value v c1,
        ArrayNullable.ReadP value c = Done (v, c1) -> c1 = snd (ArrayNullable.getColumnData c))
  /\ (forall v c1,
        ArrayNullable.DataP c = Done (v, c1) -> c1 = snd (ArrayNullable.getColumnData c))
  /\ ArrayNullable.columnData (ArrayNullable.resetHook c) = []
  /\ ArrayNullable.columnData (ArrayNullable.Reset c) = [].
Proof.
  split; [|split; [apply getColumnData_empty|split; [apply getColumnData_filled|]]].
  - intros num r c' H. unfold ArrayNullable.ReadRaw in H.
    destruct (ArrayNullable.Array_ReadRaw num r c) as [[e|] c1]; [discriminate|].
    injection H as <-. reflexivity.
  - split; [|split; [|split; [|split; reflexivity]]].
    + intros row v c1 H. unfold ArrayNullable.RowP in H.
      destruct (if row =? 0 then Done 0 else _) as [lo| |]; cbn in H; try discriminate.
      destruct (ArrayNullable.getColumnData c) as [cd c2].
      destruct (ArrayNullable.Base_Row row _) as [hi| |]; cbn in H; try discriminate.
      destruct (slice cd lo hi); cbn in H; [|discriminate].
      injection H as _ <-. reflexivity.
    + intros value v c1 H. unfold ArrayNullable.ReadP in H.
      destruct (ArrayNullable.getColumnData c) as [cd c2].
      destruct (ArrayNullable.rows_loop _ _ _ _ _); cbn in H; try discriminate.
      injection H as _ <-. reflexivity.
    + intros v c1 H. unfold ArrayNullable.DataP in H.
      destruct (_ <? 0); [discriminate|].
      destruct (ArrayNullable.getColumnData c) as [cd c2].
      destruct (ArrayNullable.rows_loop _ _ _ _ _); cbn in H; try discriminate.
      injection H as _ <-. reflexivity.
Qed.

End CacheClaims.

(** ** The properties on the sample blocks *)

Lemma DateTime_nonpositive_epoch_witness :
  exists r',
    DateTime.Next zero_block_reader = Done (true, r')
    /\ time.Time_Unix (DateTime.Value r') = 0.
Proof.
  destruct (DateTime_nonpositive_epoch (time.mk (-5) 0) (DateTime.NewDateTime false)
              zero_block_reader [])
    as (w' & r' & _ & _ & Hnext & _ & _ & Hepoch & _).
  - simpl. lia.
  - reflexivity.
  - reflexivity.
  - reflexivity.
  - reflexivity.
  - reflexivity.
  - exists r'. split; [exact Hnext|exact Hepoch].
Defined.

Lemma DateTime_low_32_bits_witness :
  exists r',
    DateTime.Next late_block_reader = Done (true, r')
    /\ time.Time_Unix (DateTime.Value r') = 5.
Proof.
  destruct (DateTime_low_32_bits late_instant (DateTime.NewDateTime false)
              late_block_reader [])
    as (w' & r' & _ & _ & Hnext & _ & Hepoch & _).
  - simpl. lia.
  - reflexivity.
  - reflexivity.
  - reflexivity.
  - reflexivity.
  - reflexivity.
  - exists r'. split; [exact Hnext|exact Hepoch].
Defined.

Lemma ReadAll_Next_equiv_witness :
  exists (vs : list Z) (c' : Uint64.t),
    Uint64.Next_loop 4 roundtrip_reader [] = Done (c', vs)
    /\ length vs = 3%nat
    /\ Uint64.ReadAll roundtrip_reader [] = Done (roundtrip_reader, [] ++ vs).
Proof.
  refine (proj1 (ReadAll_Next_equiv 3) roundtrip_reader [] _ _ _ _ _).
  - reflexivity.
  - reflexivity.
  - reflexivity.
  - vm_compute. discriminate.
  - reflexivity.
Defined.

Lemma ArrayNullable_RowP_rows_witness :
  ArrayNullable.appended (ArrayNullable.offsetColumn sample_writer) = [2; 2; 3]
  /\ (exists c1, ArrayNullable.RowP 0 sample_reader = Done ([Some 10; Some 20], c1))
  /\ (exists c1, ArrayNullable.RowP 1 sample_reader = Done ([], c1))
  /\ (exists c1, ArrayNullable.RowP 2 sample_reader = Done ([Some 30], c1)).
Proof.
  destruct (ArrayNullable_RowP_rows sample_inner sample_rows sample_reader)
    as [Hoff Hrows].
  - reflexivity.
  - vm_compute. reflexivity.
  - vm_compute. discriminate.
  - reflexivity.
  - reflexivity.
  - split; [exact Hoff|].
    destruct (Hrows 0%nat _ eq_refl) as (? & ? & _ & _ & _ & _ & H0).
    destruct (Hrows 1%nat _ eq_refl) as (? & ? & _ & _ & _ & _ & H1).
    destruct (Hrows 2%nat _ eq_refl) as (? & ? & _ & _ & _ & _ & H2).
    split; [eexists; exact H0|]. split; [eexists; exact H1|eexists; exact H2].
Defined.



Lemma ArrayNullable_columnData_cache_witness :
  ArrayNullable.columnData two_row_reader = [Some 10; Some 20; Some 30].
Proof.
  exact (proj1 (ArrayNullable_columnData_cache (ArrayNullable.NewArrayNullable sample_inner))
           2 two_row_block two_row_reader eq_refl).
Defined.

(** C8, counterexample.  Right after a successful [ReadRaw] of the block of
    rows [10, 20] and [30], before any read access, the cache already holds
    the three inner values. *)
Lemma ReadRaw_materializes_cache :
  fst (ArrayNullable.ReadRaw 2 two_row_block (ArrayNullable.NewArrayNullable sample_inner))
  = None
  /\ ArrayNullable.columnData
       (snd (ArrayNullable.ReadRaw 2 two_row_block
               (ArrayNullable.NewArrayNullable sample_inner)))
     = [Some 10; Some 20; Some 30]
  /\ ArrayNullable.columnData
       (snd (ArrayNullable.ReadRaw 2 two_row_block
               (ArrayNullable.NewArrayNullable sample_inner)))
     <> [].
Proof. repeat split. discriminate. Qed.

(** * Further properties of the columns *)

(** ** [Fill] on a [Uint64] column *)

Lemma rows64_app b k : forall i m,
  rows64 b i (k + m) = rows64 b i k ++ rows64 b (i + 8 * k) m.
Proof.
  induction k as [|k IH]; intros i m; cbn [rows64 Nat.add app].
  - f_equal. lia.
  - rewrite IH. replace (i + 8 + 8 * k)%nat with (i + 8 * S k)%nat by lia. reflexivity.
Qed.

Lemma Uint64_Fill_loop_rows (todo : list Z) : forall (c : Uint64.t) filled,
  column.size (Uint64.col c) = Uint64Size ->
  len (column.b (Uint64.col c)) <= max_int ->
  0 <= column.i (Uint64.col c) ->
  column.i (Uint64.col c) + 8 * len todo <= len (column.b (Uint64.col c)) ->
  Uint64.Fill_loop todo c filled
  = Done (Uint64.set_col (column.set_i (column.i (Uint64.col c) + 8 * len todo)
                                       (Uint64.col c)) c,
          filled ++ rows64 (column.b (Uint64.col c))
                           (Z.to_nat (column.i (Uint64.col c))) (length todo)).
Proof.
  unfold Uint64Size, max_int.
  induction todo as [|x todo IH]; intros c filled Hsize Hmax Hi Hlen.
  - cbn [Uint64.Fill_loop rows64 length]. rewrite app_nil_r.
    change (len []) with 0. rewrite Z.mul_0_r, Z.add_0_r.
    destruct c as [[]]; reflexivity.
  - assert (Hlen' : len (x :: todo) = len todo + 1) by (unfold len; cbn [length]; lia).
    rewrite Hlen' in *. pose proof (len_nonneg todo) as Ht.
    cbn [Uint64.Fill_loop]. rewrite Hsize, int_add_small by lia.
    rewrite slice_ok by lia. cbn [of_option mbind outcome_bind].
    replace (Z.to_nat (column.i (Uint64.col c) + 8 - column.i (Uint64.col c)))
      with 8%nat by lia.
    rewrite Uint64_take8.
    2:{ rewrite length_take, length_drop. unfold len in *. lia. }
    cbn [of_option mbind outcome_bind]. rewrite take_take.
    rewrite IH;
      cbn [Uint64.col Uint64.set_col column.b column.i column.size column.set_i];
      try assumption; try lia.
    rewrite <- app_assoc. cbn [rows64 length app].
    replace (Z.to_nat (column.i (Uint64.col c) + 8))
      with (Z.to_nat (column.i (Uint64.col c)) + 8)%nat by lia.
    replace (column.i (Uint64.col c) + 8 + 8 * len todo)
      with (column.i (Uint64.col c) + 8 * (len todo + 1)) by lia.
    reflexivity.
Qed.

(** X1.  [Fill] reads the next [len(value)] rows and moves the cursor past
    them.  On a block of [n] whole rows read from its start, [Fill] into a
    slice of [k <= n] elements yields the first [k] values that [ReadAll]
    yields, leaves the cursor at byte [8 * k], and the [Next]/[Value] loop
    run afterwards yields the remaining [n - k] values. *)
Theorem Uint64_Fill_then_Next (c : Uint64.t) (n : nat) (value : list Z) :
  column.size (Uint64.col c) = Uint64Size ->
  column.totalByte (Uint64.col c) = len (column.b (Uint64.col c)) ->
  len (column.b (Uint64.col c)) = Uint64Size * Z.of_nat n ->
  len (column.b (Uint64.col c)) <= max_int ->
  column.i (Uint64.col c) = 0 ->
  (length value <= n)%nat ->
  exists (vs : list Z) (c1 c2 : Uint64.t),
    Uint64.ReadAll c [] = Done (c, vs)
    /\ Uint64.Fill value c = Done (c1, take (length value) vs)
    /\ column.i (Uint64.col c1) = Uint64Size * len value
    /\ Uint64.Next_loop (S n) c1 [] = Done (c2, drop (length value) vs).
Proof.
  unfold Uint64Size at 2 3. intros Hsize Htotal Hlen Hmax Hi Hk.
  set (k := length value) in *.
  exists (rows64 (column.b (Uint64.col c)) 0 n).
  pose proof (Uint64_Fill_loop_rows value c [] Hsize Hmax ltac:(lia)) as HF.
  rewrite Hi in HF. change (Z.to_nat 0) with 0%nat in HF. cbn [app] in HF.
  fold k in HF.
  assert (Hsplit : rows64 (column.b (Uint64.col c)) 0 n
                   = rows64 (column.b (Uint64.col c)) 0 k
                       ++ rows64 (column.b (Uint64.col c)) (8 * k) (n - k)).
  { replace n with (k + (n - k))%nat at 1 by lia. apply rows64_app. }
  set (c1 := Uint64.set_col (column.set_i (0 + 8 * len value) (Uint64.col c)) c) in *.
  destruct (Uint64_Next_loop_rows (n - k) (S n) c1 []) as (c2 & Hrun & _);
    subst c1; cbn [Uint64.col Uint64.set_col column.b column.i column.size
                   column.totalByte column.set_i]; try assumption;
    try (unfold len, k in *; lia).
  exists (Uint64.set_col (column.set_i (0 + 8 * len value) (Uint64.col c)) c), c2.
  split; [rewrite (Uint64_ReadAll_rows c Hsize Htotal Hmax n) by lia; reflexivity|].
  split.
  - unfold Uint64.Fill. rewrite HF by (unfold len, k in *; lia).
    rewrite Hsplit, take_app_length' by (rewrite length_rows64; reflexivity).
    reflexivity.
  - split; [reflexivity|]. rewrite Hrun.
    cbn [Uint64.col Uint64.set_col column.b column.i column.set_i app].
    rewrite Hsplit, drop_app_length' by (rewrite length_rows64; reflexivity).
    replace (Z.to_nat (0 + 8 * len value)) with (8 * k)%nat by (unfold len, k; lia).
    reflexivity.
Qed.

Lemma Uint64_Fill_then_Next_witness :
  exists (vs : list Z) (c1 c2 : Uint64.t),
    Uint64.ReadAll roundtrip_reader [] = Done (roundtrip_reader, vs)
    /\ Uint64.Fill [7; 7] roundtrip_reader = Done (c1, take 2 vs)
    /\ column.i (Uint64.col c1) = 16
    /\ Uint64.Next_loop 4 c1 [] = Done (c2, drop 2 vs).
Proof.
  refine (Uint64_Fill_then_Next roundtrip_reader 3 [7; 7] _ _ _ _ _ _).
  - reflexivity.
  - reflexivity.
  - reflexivity.
  - vm_compute. discriminate.
  - reflexivity.
  - simpl. lia.
Defined.

(** ** Termination of [ReadAll] *)

Lemma slice_Some {A} (s : list A) lo hi r :
  slice s lo hi = Some r ->
  0 <= lo /\ lo <= hi /\ hi <= len s /\ len r = hi - lo.
Proof.
  unfold slice. intros H.
  destruct (Z.leb_spec 0 lo); [|discriminate].
  destruct (Z.leb_spec lo hi); [|discriminate].
  destruct (Z.leb_spec hi (len s)); [|discriminate].
  injection H as <-. repeat split; try assumption.
  unfold len in *. rewrite length_take, length_drop. lia.
Qed.

Lemma Uint64_Some_length s v : LittleEndian_Uint64 s = Some v -> 8 <= len s.
Proof.
  intros H. do 8 (destruct s as [|? s]; [discriminate|]).
  unfold len. cbn [length]. lia.
Qed.

Lemma Uint32_Some_length s v : LittleEndian_Uint32 s = Some v -> 4 <= len s.
Proof.
  intros H. do 4 (destruct s as [|? s]; [discriminate|]).
  unfold len. cbn [length]. lia.
Qed.

Lemma Uint64_ReadAll_loop_fuel fuel : forall (c : Uint64.t) i out,
  (Z.to_nat (column.totalByte (Uint64.col c) - i) <= fuel)%nat ->
  Uint64.ReadAll_loop fuel c i out <> OutOfFuel.
Proof.
  induction fuel as [|fuel IH]; intros c i out Hfuel; cbn [Uint64.ReadAll_loop];
    destruct (Z.ltb_spec i (column.totalByte (Uint64.col c))); try discriminate; [lia|].
  destruct (slice _ _ _) as [s|] eqn:Hs; cbn [of_option mbind outcome_bind];
    [|discriminate].
  destruct (LittleEndian_Uint64 s) as [v|] eqn:Hv; cbn [of_option mbind outcome_bind];
    [|discriminate].
  apply slice_Some in Hs as (H0 & H1 & H2 & H3). apply Uint64_Some_length in Hv.
  apply IH. lia.
Qed.

Lemma DateTime_ReadAll_loop_fuel fuel : forall (c : DateTime.t) i out,
  (Z.to_nat (column.totalByte (DateTime.col c) - i) <= fuel)%nat ->
  DateTime.ReadAll_loop fuel c i out <> OutOfFuel.
Proof.
  induction fuel as [|fuel IH]; intros c i out Hfuel; cbn [DateTime.ReadAll_loop];
    destruct (Z.ltb_spec i (column.totalByte (DateTime.col c))); try discriminate; [lia|].
  destruct (slice _ _ _) as [s|] eqn:Hs; cbn [of_option mbind outcome_bind];
    [|discriminate].
  destruct (LittleEndian_Uint32 s) as [v|] eqn:Hv; cbn [of_option mbind outcome_bind];
    [|discriminate].
  apply slice_Some in Hs as (H0 & H1 & H2 & H3). apply Uint32_Some_length in Hv.
  apply IH. lia.
Qed.

(** X2.  [ReadAll] terminates on every state of a Uint64 or DateTime column,
    whatever the element width, the block size and the buffer: each
    iteration that does not panic moves the loop variable forward by a whole
    element, so the call returns or panics and the column, when it returns,
    is as it was. *)
Theorem ReadAll_terminates :
  (forall (c : Uint64.t) (out : list Z),
      Uint64.ReadAll c out = Panic
      \/ exists vs, Uint64.ReadAll c out = Done (c, vs))
  /\ (forall (c : DateTime.t) (out : list time.Time),
        DateTime.ReadAll c out = Panic
        \/ exists vs, DateTime.ReadAll c out = Done (c, vs)).
Proof.
  split; intros c out.
  - unfold Uint64.ReadAll.
    pose proof (Uint64_ReadAll_loop_fuel (Z.to_nat (column.totalByte (Uint64.col c)))
                  c 0 out ltac:(lia)) as H.
    destruct (Uint64.ReadAll_loop _ c 0 out) as [vs| |]; cbn [mbind outcome_bind];
      [right; eauto|left; reflexivity|congruence].
  - unfold DateTime.ReadAll.
    pose proof (DateTime_ReadAll_loop_fuel (Z.to_nat (column.totalByte (DateTime.col c)))
                  c 0 out ltac:(lia)) as H.
    destruct (DateTime.ReadAll_loop _ c 0 out) as [vs| |]; cbn [mbind outcome_bind];
      [right; eauto|left; reflexivity|congruence].
Qed.

(** ** Nullable reads of a [Uint64] column *)

Lemma int_quot_row (k : nat) :
  8 * Z.of_nat k <= max_int -> int_quot (8 * Z.of_nat k) 8 = Some (Z.of_nat k).
Proof.
  intros H. unfold int_quot. cbn [Z.eqb].
  rewrite Z.mul_comm, Z.quot_mul by lia.
  rewrite wrap_int_small by (unfold max_int in H; lia). reflexivity.
Qed.

Lemma index_nat {A} (l : list A) (k : nat) : index l (Z.of_nat k) = l !! k.
Proof.
  unfold index. destruct (Z.leb_spec 0 (Z.of_nat k)); [|lia].
  rewrite Nat2Z.id. reflexivity.
Qed.

Lemma optional_rows_cons {A} isnil m bitmap (v : A) vals :
  optional_rows isnil (m :: bitmap) (v :: vals)
  = (if isnil m then None else Some v) :: optional_rows isnil bitmap vals.
Proof. reflexivity. Qed.

Section Uint64NullableRead.

Variable c : Uint64.t.
Hypothesis Hsize : column.size (Uint64.col c) = Uint64Size.
Hypothesis Htotal : column.totalByte (Uint64.col c) = len (column.b (Uint64.col c)).
Hypothesis Hmax : len (column.b (Uint64.col c)) <= max_int.

Let bitmap := Nullable.b (column.colNullable (Uint64.col c)).
Let buf := column.b (Uint64.col c).

Lemma Uint64_ReadAllP_loop_rows n : forall fuel k out,
  8 * Z.of_nat (k + n) = len buf ->
  (k + n <= length bitmap)%nat ->
  (n <= fuel)%nat ->
  Uint64.ReadAllP_loop fuel c (8 * Z.of_nat k) out
  = Done (out ++ optional_rows nil_ne0 (drop k bitmap) (rows64 buf (8 * k) n)).
Proof.
  unfold Uint64Size, max_int in *. subst buf.
  induction n as [|n IH]; intros fuel k out Hlen Hbm Hfuel.
  - cbn [rows64]. unfold optional_rows. rewrite zip_with_nil_r, app_nil_r.
    destruct fuel; cbn [Uint64.ReadAllP_loop];
      destruct (Z.ltb_spec (8 * Z.of_nat k) (column.totalByte (Uint64.col c)));
      try lia; reflexivity.
  - destruct fuel as [|fuel]; [lia|]. cbn [Uint64.ReadAllP_loop].
    destruct (Z.ltb_spec (8 * Z.of_nat k) (column.totalByte (Uint64.col c))); [|lia].
    rewrite Hsize, int_quot_row by (unfold max_int; lia).
    cbn [of_option mbind outcome_bind]. rewrite index_nat.
    destruct (lookup_lt_is_Some_2 bitmap k ltac:(lia)) as [m Hm].
    fold bitmap. rewrite Hm. cbn [of_option mbind outcome_bind].
    rewrite (drop_S _ _ _ Hm). cbn [rows64]. rewrite optional_rows_cons.
    rewrite int_add_small by lia.
    replace (8 * Z.of_nat k + 8) with (8 * Z.of_nat (S k)) by lia.
    replace (8 * k + 8)%nat with (8 * S k)%nat by lia.
    fold (nil_ne0 m). destruct (nil_ne0 m).
    + rewrite IH by lia. rewrite <- app_assoc. reflexivity.
    + rewrite slice_ok by lia. cbn [of_option mbind outcome_bind].
      replace (Z.to_nat (8 * Z.of_nat (S k) - 8 * Z.of_nat k)) with 8%nat by lia.
      replace (Z.to_nat (8 * Z.of_nat k)) with (8 * k)%nat by lia.
      rewrite Uint64_take8.
      2:{ rewrite length_take, length_drop. unfold len in *. lia. }
      cbn [of_option mbind outcome_bind]. rewrite take_take.
      rewrite IH by lia. rewrite <- app_assoc. reflexivity.
Qed.

Lemma Uint64_ReadAllP_rows n out :
  8 * Z.of_nat n = len buf ->
  (n <= length bitmap)%nat ->
  Uint64.ReadAllP c out
  = Done (c, out ++ optional_rows nil_ne0 bitmap (rows64 buf 0 n)).
Proof.
  intros Hlen Hbm. unfold Uint64.ReadAllP.
  pose proof (Uint64_ReadAllP_loop_rows n (Z.to_nat (column.totalByte (Uint64.col c)))
                0 out) as H.
  change (8 * Z.of_nat 0) with 0 in H. change (8 * 0)%nat with 0%nat in H.
  change (drop 0 bitmap) with bitmap in H. change (0 + n)%nat with n in H.
  rewrite H; [reflexivity|exact Hlen|exact Hbm|].
  rewrite Htotal. fold buf. lia.
Qed.

End Uint64NullableRead.

Lemma Uint64_FillP_loop_rows (todo : list (option Z)) : forall (c : Uint64.t) filled (k : nat),
  column.size (Uint64.col c) = Uint64Size ->
  len (column.b (Uint64.col c)) <= max_int ->
  column.i (Uint64.col c) = 8 * Z.of_nat k ->
  8 * Z.of_nat (k + length todo) <= len (column.b (Uint64.col c)) ->
  (k + length todo <= length (Nullable.b (column.colNullable (Uint64.col c))))%nat ->
  Uint64.FillP_loop todo c filled
  = Done (Uint64.set_col (column.set_i (8 * Z.of_nat (k + length todo)) (Uint64.col c)) c,
          filled ++ optional_rows nil_eq1
                      (drop k (Nullable.b (column.colNullable (Uint64.col c))))
                      (rows64 (column.b (Uint64.col c)) (8 * k) (length todo))).
Proof.
  unfold Uint64Size, max_int.
  induction todo as [|x todo IH]; intros c filled k Hsize Hmax Hi Hlen Hbm.
  - cbn [Uint64.FillP_loop rows64 length]. unfold optional_rows.
    rewrite zip_with_nil_r, app_nil_r, Nat.add_0_r, <- Hi.
    destruct c as [[]]; reflexivity.
  - cbn [length] in *. cbn [Uint64.FillP_loop].
    rewrite Hsize, Hi, int_quot_row by (unfold max_int; lia).
    cbn [of_option mbind outcome_bind]. rewrite index_nat.
    destruct (lookup_lt_is_Some_2 (Nullable.b (column.colNullable (Uint64.col c))) k
                ltac:(lia)) as [m Hm].
    rewrite Hm. cbn [of_option mbind outcome_bind].
    rewrite (drop_S _ _ _ Hm). cbn [rows64]. rewrite optional_rows_cons.
    rewrite int_add_small by lia.
    replace (8 * Z.of_nat k + 8) with (8 * Z.of_nat (S k)) by lia.
    replace (8 * k + 8)%nat with (8 * S k)%nat by lia.
    replace (k + S (length todo))%nat with (S k + length todo)%nat by lia.
    fold (nil_eq1 m). destruct (nil_eq1 m).
    + rewrite (IH _ _ (S k));
        cbn [Uint64.col Uint64.set_col column.b column.i column.size column.set_i
             column.colNullable]; try assumption; try lia.
      rewrite <- app_assoc. reflexivity.
    + rewrite slice_ok by lia. cbn [of_option mbind outcome_bind].
      replace (Z.to_nat (8 * Z.of_nat (S k) - 8 * Z.of_nat k)) with 8%nat by lia.
      replace (Z.to_nat (8 * Z.of_nat k)) with (8 * k)%nat by lia.
      rewrite Uint64_take8.
      2:{ rewrite length_take, length_drop. unfold len in *. lia. }
      cbn [of_option mbind outcome_bind]. rewrite take_take.
      rewrite (IH _ _ (S k));
        cbn [Uint64.col Uint64.set_col column.b column.i column.size column.set_i
             column.colNullable]; try assumption; try lia.
      rewrite <- app_assoc. reflexivity.
Qed.

Lemma Uint64_NextP_loop_rows n : forall fuel (c : Uint64.t) out (k : nat),
  column.size (Uint64.col c) = Uint64Size ->
  column.totalByte (Uint64.col c) = len (column.b (Uint64.col c)) ->
  len (column.b (Uint64.col c)) <= max_int ->
  column.i (Uint64.col c) = 8 * Z.of_nat k ->
  8 * Z.of_nat (k + n) = len (column.b (Uint64.col c)) ->
  (k + n <= length (Nullable.b (column.colNullable (Uint64.col c))))%nat ->
  (n < fuel)%nat ->
  exists c',
    Uint64.NextP_loop fuel c out
    = Done (c', out ++ optional_rows nil_eq1
                         (drop k (Nullable.b (column.colNullable (Uint64.col c))))
                         (rows64 (column.b (Uint64.col c)) (8 * k) n)).
Proof.
  induction n as [|n IH]; intros fuel c out k Hsize Htotal Hmax Hi Hlen Hbm Hfuel.
  - destruct fuel as [|fuel]; [lia|]. exists c.
    cbn [Uint64.NextP_loop rows64]. unfold Uint64.Next, optional_rows.
    destruct (Z.geb_spec (column.i (Uint64.col c)) (column.totalByte (Uint64.col c))); [|lia].
    cbn [mbind outcome_bind]. rewrite zip_with_nil_r, app_nil_r. reflexivity.
  - destruct fuel as [|fuel]; [lia|].
    cbn [Uint64.NextP_loop]. rewrite Uint64_Next_step by (try assumption; lia).
    cbn [mbind outcome_bind].
    destruct (lookup_lt_is_Some_2 (Nullable.b (column.colNullable (Uint64.col c))) k
                ltac:(lia)) as [m Hm].
    unfold Uint64.ValueP.
    cbn [Uint64.col Uint64.set_col Uint64.set_val Uint64.val column.b column.i column.size
         column.set_i column.colNullable].
    rewrite Hsize. unfold Uint64Size, max_int in *.
    rewrite int_add_small by lia.
    replace (column.i (Uint64.col c) + 8 + - (8)) with (8 * Z.of_nat k) by lia.
    rewrite int_quot_row by (unfold max_int; lia).
    cbn [of_option mbind outcome_bind]. rewrite index_nat, Hm.
    cbn [of_option mbind outcome_bind].
    rewrite (drop_S _ _ _ Hm). cbn [rows64]. rewrite optional_rows_cons.
    rewrite Hi. replace (Z.to_nat (8 * Z.of_nat k)) with (8 * k)%nat by lia.
    replace (8 * k + 8)%nat with (8 * S k)%nat by lia.
    fold (nil_eq1 m).
    destruct (nil_eq1 m); cbn [mbind outcome_bind];
      match goal with
      | |- exists c', Uint64.NextP_loop ?f ?c1 ?o = _ =>
          destruct (IH f c1 o (S k)) as (c' & Hrun)
      end;
      cbn [Uint64.col Uint64.set_col Uint64.set_val column.b column.i column.size
           column.totalByte column.set_i column.colNullable] in *;
      try assumption; try lia;
      exists c'; rewrite Hrun, <- app_assoc; reflexivity.
Qed.

Lemma Uint64_nullable_reads_rows (c : Uint64.t) (n : nat) (value out : list (option Z)) :
  column.size (Uint64.col c) = Uint64Size ->
  column.totalByte (Uint64.col c) = len (column.b (Uint64.col c)) ->
  len (column.b (Uint64.col c)) = Uint64Size * Z.of_nat n ->
  len (column.b (Uint64.col c)) <= max_int ->
  column.i (Uint64.col c) = 0 ->
  (n <= length (Nullable.b (column.colNullable (Uint64.col c))))%nat ->
  length value = n ->
  let bitmap := Nullable.b (column.colNullable (Uint64.col c)) in
  let vals := rows64 (column.b (Uint64.col c)) 0 n in
  Uint64.ReadAllP c out = Done (c, out ++ optional_rows nil_ne0 bitmap vals)
  /\ (exists c', Uint64.NextP_loop (S n) c [] = Done (c', optional_rows nil_eq1 bitmap vals))
  /\ (exists c', Uint64.FillP value c = Done (c', optional_rows nil_eq1 bitmap vals)
                 /\ column.i (Uint64.col c') = column.totalByte (Uint64.col c)).
Proof.
  intros Hsize Htotal Hlen Hmax Hi Hbm Hv bitmap vals. unfold Uint64Size in Hlen.
  split; [apply Uint64_ReadAllP_rows; try assumption; lia|].
  split.
  - destruct (Uint64_NextP_loop_rows n (S n) c [] 0) as (c' & Hrun);
      try assumption; try lia.
    exists c'. exact Hrun.
  - pose proof (Uint64_FillP_loop_rows value c [] 0 Hsize Hmax) as HF.
    rewrite Hv in HF. cbn [Nat.add app] in HF.
    eexists. unfold Uint64.FillP. rewrite HF by (try assumption; lia).
    split; [reflexivity|].
    cbn [Uint64.col Uint64.set_col column.i column.set_i]. lia.
Qed.

(** The two null tests agree on a bitmap of zeros and ones. *)
Lemma optional_rows_agree {A} (n : nat) : forall (bm : list byte) (l : list A),
  length l = n ->
  Forall (fun m => m = Byte.x00 \/ m = Byte.x01) (take n bm) ->
  optional_rows nil_ne0 bm l = optional_rows nil_eq1 bm l.
Proof.
  induction n as [|n IH]; intros bm l Hl Hb.
  - destruct l; [|discriminate]. destruct bm; reflexivity.
  - destruct l as [|v l]; [discriminate|].
    destruct bm as [|m bm]; [reflexivity|].
    cbn [take] in Hb. inversion Hb as [|? ? Hm Hb']; subst.
    injection Hl as Hl.
    rewrite !optional_rows_cons, (IH bm l Hl Hb').
    destruct Hm as [-> | ->]; reflexivity.
Qed.

(** X3.  The three nullable reads of a Uint64 block of [n] whole rows.
    [ReadAllP] returns nil for the rows whose bitmap byte is not 0, the
    [Next]/[ValueP] loop and [FillP] return nil for the rows whose bitmap
    byte is 1, and every other row is its decoded value; [ReadAllP] leaves
    the column as it was and [FillP] leaves the cursor at the end of the
    block.  When every bitmap byte of the block is 0 or 1 the three reads
    return the same optional values. *)
Theorem Uint64_nullable_reads (c : Uint64.t) (n : nat) (value out : list (option Z)) :
  column.size (Uint64.col c) = Uint64Size ->
  column.totalByte (Uint64.col c) = len (column.b (Uint64.col c)) ->
  len (column.b (Uint64.col c)) = Uint64Size * Z.of_nat n ->
  len (column.b (Uint64.col c)) <= max_int ->
  column.i (Uint64.col c) = 0 ->
  (n <= length (Nullable.b (column.colNullable (Uint64.col c))))%nat ->
  length value = n ->
  let bitmap := Nullable.b (column.colNullable (Uint64.col c)) in
  let vals := rows64 (column.b (Uint64.col c)) 0 n in
  Uint64.ReadAllP c out = Done (c, out ++ optional_rows nil_ne0 bitmap vals)
  /\ (exists c', Uint64.NextP_loop (S n) c [] = Done (c', optional_rows nil_eq1 bitmap vals))
  /\ (exists c', Uint64.FillP value c = Done (c', optional_rows nil_eq1 bitmap vals)
                 /\ column.i (Uint64.col c') = column.totalByte (Uint64.col c))
  /\ (Forall (fun m => m = Byte.x00 \/ m = Byte.x01) (take n bitmap) ->
      optional_rows nil_ne0 bitmap vals = optional_rows nil_eq1 bitmap vals).
Proof.
  intros Hsize Htotal Hlen Hmax Hi Hbm Hv bitmap vals.
  destruct (Uint64_nullable_reads_rows c n value out Hsize Htotal Hlen Hmax Hi Hbm Hv)
    as (HA & HS & HF).
  split; [exact HA|]. split; [exact HS|]. split; [exact HF|].
  apply (optional_rows_agree n). apply length_rows64.
Qed.

Lemma Uint64_nullable_reads_witness :
  Uint64.ReadAllP odd_bitmap_reader [] = Done (odd_bitmap_reader, [Some 5; None; None])
  /\ exists c', Uint64.NextP_loop 4 odd_bitmap_reader [] = Done (c', [Some 5; None; Some 7]).
Proof.
  destruct (Uint64_nullable_reads odd_bitmap_reader 3 [None; None; None] [])
    as (HA & HS & _).
  - reflexivity.
  - reflexivity.
  - reflexivity.
  - vm_compute. discriminate.
  - reflexivity.
  - simpl. lia.
  - reflexivity.
  - split; [exact HA|exact HS].
Defined.



(** ** Nullable round trip of a [Uint64] column *)

Lemma Uint64_AppendEmpty_zero_row (c : Uint64.t) :
  column.size (Uint64.col c) = Uint64Size ->
  Uint64.AppendEmpty c = Done (Uint64.Append 0 c).
Proof.
  intros H. unfold Uint64.AppendEmpty, Uint64.Append.
  cbn [Uint64.col Uint64.set_col column.size column.set_numRow].
  rewrite H. reflexivity.
Qed.

Lemma AppendPAll_state (vs : list (option Z)) : forall c : Uint64.t,
  column.size (Uint64.col c) = Uint64Size ->
  exists c',
    AppendPAll vs c = Done c'
    /\ column.writerData (Uint64.col c')
       = column.writerData (Uint64.col c) ++ concat (map (le_split 8) (map stored_value vs))
    /\ Nullable.writerData (column.colNullable (Uint64.col c'))
       = Nullable.writerData (column.colNullable (Uint64.col c)) ++ map null_flag vs
    /\ Uint64.dict c' = Uint64.dict c /\ Uint64.keys c' = Uint64.keys c.
Proof.
  induction vs as [|v vs IH]; intros c Hsize.
  - exists c. cbn. rewrite !app_nil_r. auto.
  - cbn [AppendPAll]. destruct v as [x|].
    + cbn [Uint64.AppendP mbind outcome_bind].
      edestruct IH as (c' & Hrun & Hw & Hn & Hd & Hk); [|exists c'; rewrite Hrun].
      { cbn. exact Hsize. }
      split; [reflexivity|]. rewrite Hw, Hn, Hd, Hk.
      cbn [map concat stored_value null_flag]. rewrite le_split_8.
      cbn. rewrite <- !app_assoc. auto.
    + cbn [Uint64.AppendP].
      rewrite (Uint64_AppendEmpty_zero_row c Hsize).
      cbn [mbind outcome_bind].
      edestruct IH as (c' & Hrun & Hw & Hn & Hd & Hk); [|exists c'; rewrite Hrun].
      { cbn. exact Hsize. }
      split; [reflexivity|]. rewrite Hw, Hn, Hd, Hk.
      cbn [map concat stored_value null_flag]. rewrite le_split_8.
      cbn. rewrite <- !app_assoc. auto.
Qed.

Lemma optional_rows_flags (isnil : byte -> bool) (vs : list (option Z)) :
  isnil Byte.x01 = true -> isnil Byte.x00 = false ->
  optional_rows isnil (map null_flag vs) (map stored_value vs) = vs.
Proof.
  intros H1 H0. induction vs as [|[x|] vs IH]; [reflexivity| |];
    cbn [map null_flag stored_value]; rewrite optional_rows_cons, IH.
  - rewrite H0. reflexivity.
  - rewrite H1. reflexivity.
Qed.

(** X5.  Nullable round trip of the Uint64 column.  [AppendP] of the
    optional values [vs] on a fresh column succeeds; it writes 8 value bytes
    per row, zero for nil, and one bitmap byte per row, 1 for nil and 0
    otherwise.  A column reading those two buffers gets [vs] back from
    [ReadAllP], from the [Next]/[ValueP] loop and from [FillP], while the
    plain [ReadAll] returns 0 in place of every nil. *)
Theorem Uint64_AppendP_roundtrip (nullable : bool) (vs out : list (option Z)) (r : Uint64.t) :
  Forall (fun v => is_uint64 (stored_value v)) vs ->
  8 * len vs <= max_int ->
  column.b (Uint64.col r) = concat (map (le_split 8) (map stored_value vs)) ->
  Nullable.b (column.colNullable (Uint64.col r)) = map null_flag vs ->
  column.size (Uint64.col r) = Uint64Size ->
  column.totalByte (Uint64.col r) = len (column.b (Uint64.col r)) ->
  column.i (Uint64.col r) = 0 ->
  exists w : Uint64.t,
    AppendPAll vs (Uint64.NewUint64 nullable) = Done w
    /\ column.writerData (Uint64.col w) = column.b (Uint64.col r)
    /\ Nullable.writerData (column.colNullable (Uint64.col w))
       = Nullable.b (column.colNullable (Uint64.col r))
    /\ Uint64.ReadAllP r out = Done (r, out ++ vs)
    /\ (exists r', Uint64.NextP_loop (S (length vs)) r [] = Done (r', vs))
    /\ (exists r', Uint64.FillP vs r = Done (r', vs))
    /\ Uint64.ReadAll r [] = Done (r, map stored_value vs).
Proof.
  intros Hvs Hmax Hb Hbm Hsize Htotal Hi.
  destruct (AppendPAll_state vs (Uint64.NewUint64 nullable) eq_refl)
    as (w & Hrun & Hw & Hn & _).
  cbn [Uint64.NewUint64 Uint64.col column.writerData column.colNullable
       Nullable.newNullable Nullable.writerData app] in Hw, Hn.
  assert (Hlen : len (column.b (Uint64.col r)) = Uint64Size * Z.of_nat (length vs)).
  { rewrite Hb, length_concat_le_split. unfold len. rewrite length_map. reflexivity. }
  assert (Hmax' : len (column.b (Uint64.col r)) <= max_int).
  { rewrite Hlen. unfold len in Hmax. exact Hmax. }
  assert (Hrows : rows64 (column.b (Uint64.col r)) 0 (length vs) = map stored_value vs).
  { pose proof (rows64_le_split [] (map stored_value vs) []) as H.
    cbn [app length] in H. rewrite app_nil_r, length_map in H.
    rewrite Hb. apply H. apply Forall_map. exact Hvs. }
  destruct (Uint64_nullable_reads_rows r (length vs) vs out Hsize Htotal Hlen Hmax' Hi)
    as (HA & (r1 & HS) & (r2 & HF & _)).
  { rewrite Hbm, length_map. lia. }
  { reflexivity. }
  rewrite Hrows, Hbm in HA, HS, HF.
  rewrite !optional_rows_flags in HA, HS, HF by reflexivity.
  exists w. split; [exact Hrun|]. split; [congruence|]. split; [congruence|].
  split; [exact HA|]. split; [eauto|]. split; [eauto|].
  rewrite (Uint64_ReadAll_rows r Hsize Htotal Hmax' (length vs)), Hrows.
  - reflexivity.
  - unfold Uint64Size in Hlen. lia.
Qed.

Lemma Uint64_AppendP_roundtrip_witness :
  exists w : Uint64.t,
    AppendPAll [Some 1; None; Some 42] (Uint64.NewUint64 true) = Done w
    /\ Uint64.ReadAllP nullable_reader [] = Done (nullable_reader, [Some 1; None; Some 42]).
Proof.
  destruct (Uint64_AppendP_roundtrip true [Some 1; None; Some 42] [] nullable_reader)
    as (w & Hrun & _ & _ & HA & _).
  - repeat constructor; unfold is_uint64; cbn; lia.
  - vm_compute. discriminate.
  - reflexivity.
  - reflexivity.
  - reflexivity.
  - reflexivity.
  - reflexivity.
  - exists w. split; [exact Hrun|exact HA].
Defined.

(** ** Dictionary mode of a [Uint64] column, both nullable modes *)









(** ** [Reset] and the dictionary *)

Lemma run_dict_op_same (o : dict_op) (c1 c2 : Uint64.t) :
  same_dict c1 c2 -> same_dict (run_dict_op c1 o) (run_dict_op c2 o).
Proof.
  intros (Hd & Hk & Hn).
  assert (Hkey : forall v,
            fst (Uint64.dict_key v c1) = fst (Uint64.dict_key v c2)
            /\ same_dict (snd (Uint64.dict_key v c1)) (snd (Uint64.dict_key v c2))).
  { intros v. unfold Uint64.dict_key. rewrite Hd.
    destruct (Uint64.dict c2 !! v); cbn; unfold same_dict; cbn; rewrite ?Hd; auto. }
  destruct o as [v| |[v|]]; cbn [run_dict_op];
    unfold Uint64.AppendDict, Uint64.AppendDictNil, Uint64.AppendDictP.
  - destruct (Hkey v) as (Hf & Hd' & Hk' & Hn').
    destruct (Uint64.dict_key v c1) as [k1 d1], (Uint64.dict_key v c2) as [k2 d2].
    cbn [fst snd] in *. subst k2. rewrite Hn'.
    destruct (column.nullable (Uint64.col d2)) eqn:Hn2;
      repeat split; cbn; congruence.
  - repeat split; cbn; congruence.
  - destruct (Hkey v) as (Hf & Hd' & Hk' & Hn').
    destruct (Uint64.dict_key v c1) as [k1 d1], (Uint64.dict_key v c2) as [k2 d2].
    cbn [fst snd] in *. subst k2. repeat split; cbn; congruence.
  - repeat split; cbn; congruence.
Qed.

(** X7.  [Reset] restarts the dictionary.  After [Reset] the key sequence
    and the dictionary are empty, and any sequence of dictionary appends
    then leaves the same keys and the same dictionary as on a freshly
    constructed column of the same nullability, whatever was appended
    before the reset. *)
Theorem Uint64_Reset_dict (c : Uint64.t) (ops : list dict_op) :
  Uint64.Keys (Uint64.Reset c) = []
  /\ Uint64.dict (Uint64.Reset c) = ∅
  /\ Uint64.Keys (run_dict_ops ops (Uint64.Reset c))
     = Uint64.Keys (run_dict_ops ops (Uint64.NewUint64 (column.nullable (Uint64.col c))))
  /\ Uint64.dict (run_dict_ops ops (Uint64.Reset c))
     = Uint64.dict (run_dict_ops ops (Uint64.NewUint64 (column.nullable (Uint64.col c)))).
Proof.
  split; [reflexivity|]. split; [reflexivity|].
  assert (H : same_dict (run_dict_ops ops (Uint64.Reset c))
                (run_dict_ops ops (Uint64.NewUint64 (column.nullable (Uint64.col c))))).
  { assert (H0 : same_dict (Uint64.Reset c)
                   (Uint64.NewUint64 (column.nullable (Uint64.col c))))
      by (repeat split).
    revert H0. generalize (Uint64.Reset c).
    generalize (Uint64.NewUint64 (column.nullable (Uint64.col c))).
    unfold run_dict_ops. induction ops as [|o ops IH]; intros c2 c1 H0; [exact H0|].
    cbn [foldl]. apply IH, run_dict_op_same, H0. }
  destruct H as (Hd & Hk & _). unfold Uint64.Keys. auto.
Qed.

(** ** Whole-block reads of an [ArrayNullable] column *)

Section ArrayBlock.

Context {T : Type}.
Implicit Types (c : @ArrayNullable.t T) (rows : list (list (option T))).

Lemma slice_row rows i r :
  rows !! i = Some r ->
  slice (concat rows) (len (concat (take i rows)))
        (0 + len (concat (take i rows)) + len r) = Some r.
Proof.
  intros Hi.
  pose proof (len_concat_take_le rows i r Hi) as Hle.
  pose proof (len_nonneg r) as Hr.
  pose proof (len_nonneg (concat (take i rows))) as Ht.
  rewrite slice_ok by lia. f_equal.
  replace (Z.to_nat (0 + len (concat (take i rows)) + len r - len (concat (take i rows))))
    with (length r) by (unfold len; lia).
  replace (Z.to_nat (len (concat (take i rows))))
    with (length (concat (take i rows))) by (unfold len; lia).
  apply concat_row, Hi.
Qed.

Lemma rows_loop_rows rows (o : @ArrayNullable.Base) m : forall k value,
  ArrayNullable.decoded o = cumsum 0 (map len rows) ->
  (k + m)%nat = length rows ->
  ArrayNullable.rows_loop o (concat rows) (seqZ (Z.of_nat k) (Z.of_nat m))
    (len (concat (take k rows))) value
  = Done (value ++ drop k rows).
Proof.
  induction m as [|m IH]; intros k value Hoff Hk.
  - cbn. rewrite drop_ge, app_nil_r by lia. reflexivity.
  - rewrite seqZ_cons by lia. cbn [ArrayNullable.rows_loop].
    destruct (lookup_lt_is_Some_2 rows k ltac:(lia)) as [r Hr].
    assert (Hrow : ArrayNullable.Base_Row (Z.of_nat k) o
                   = Done (0 + len (concat (take k rows)) + len r)).
    { unfold ArrayNullable.Base_Row. rewrite index_nat, Hoff, (cumsum_lookup _ _ _ _ Hr).
      reflexivity. }
    rewrite Hrow. cbn [mbind outcome_bind].
    rewrite (slice_row rows k r Hr). cbn [of_option mbind outcome_bind].
    replace (Z.succ (Z.of_nat k)) with (Z.of_nat (S k)) by lia.
    replace (Z.pred (Z.of_nat (S m))) with (Z.of_nat m) by lia.
    replace (0 + len (concat (take k rows)) + len r)
      with (len (concat (take (S k) rows))).
    + rewrite IH by (try assumption; lia).
      rewrite <- app_assoc. cbn [app]. rewrite <- (drop_S _ _ _ Hr). reflexivity.
    + rewrite (take_S_r _ _ _ Hr), concat_app, len_app. cbn [concat].
      rewrite app_nil_r. lia.
Qed.

(** X8.  Whole-block reads.  On a column whose offsets are the cumulative
    lengths of [rows], whose row count is their number and whose
    materialized inner data is, or will be, their concatenation, [DataP]
    returns exactly [rows] and [ReadP] appends exactly [rows] to its
    argument; both leave the column with the cache filled. *)
Theorem ArrayNullable_DataP_ReadP_rows rows c (value : list (list (option T))) :
  ArrayNullable.decoded (ArrayNullable.offsetColumn c) = cumsum 0 (map len rows) ->
  ArrayNullable.numRow (ArrayNullable.offsetColumn c) = len rows ->
  fst (ArrayNullable.getColumnData c) = concat rows ->
  ArrayNullable.DataP c = Done (rows, snd (ArrayNullable.getColumnData c))
  /\ ArrayNullable.ReadP value c = Done (value ++ rows, snd (ArrayNullable.getColumnData c))
  /\ ArrayNullable.columnData (snd (ArrayNullable.getColumnData c)) = concat rows.
Proof.
  intros Hoff Hn Hcd.
  assert (Hd : ArrayNullable.offsetColumn (snd (ArrayNullable.getColumnData c))
               = ArrayNullable.offsetColumn c).
  { unfold ArrayNullable.getColumnData. case (_ =? _); reflexivity. }
  assert (Hc : ArrayNullable.columnData (snd (ArrayNullable.getColumnData c))
               = fst (ArrayNullable.getColumnData c)).
  { unfold ArrayNullable.getColumnData. case (_ =? _); reflexivity. }
  unfold ArrayNullable.DataP, ArrayNullable.ReadP.
  destruct (ArrayNullable.getColumnData c) as [cd c1]. cbn [fst snd] in *. subst cd.
  rewrite Hd, Hn.
  destruct (Z.ltb_spec (len rows) 0); [pose proof (len_nonneg rows); lia|].
  pose proof (rows_loop_rows rows (ArrayNullable.offsetColumn c) (length rows) 0) as Hloop.
  cbn [take concat Nat.add] in Hloop. change (len []) with 0 in Hloop.
  change (Z.of_nat 0) with 0 in Hloop. fold (len rows) in Hloop.
  rewrite !Hloop by (try assumption; reflexivity). cbn [drop mbind outcome_bind app].
  split; [reflexivity|]. split; [reflexivity|exact Hc].
Qed.

Lemma getColumnData_again c :
  ArrayNullable.getColumnData (snd (ArrayNullable.getColumnData c))
  = (fst (ArrayNullable.getColumnData c), snd (ArrayNullable.getColumnData c)).
Proof.
  unfold ArrayNullable.getColumnData at 2 3 4.
  destruct (len (ArrayNullable.columnData c) =? 0) eqn:He; cbn [fst snd].
  - unfold ArrayNullable.getColumnData.
    cbn [ArrayNullable.columnData ArrayNullable.set_columnData ArrayNullable.dataColumn].
    case (_ =? _); reflexivity.
  - unfold ArrayNullable.getColumnData. rewrite He. reflexivity.
Qed.

(** X9.  Reading is repeatable.  Once [RowP] has returned, the column it
    leaves is stable: [RowP] of the same row on it returns the same slice,
    and no further [RowP], [ReadP] or [DataP] changes it. *)
Theorem ArrayNullable_RowP_stable c (row : Z) (v : list (option T)) c1 :
  ArrayNullable.RowP row c = Done (v, c1) ->
  ArrayNullable.RowP row c1 = Done (v, c1)
  /\ (forall row' v' c2, ArrayNullable.RowP row' c1 = Done (v', c2) -> c2 = c1)
  /\ (forall value v' c2, ArrayNullable.ReadP value c1 = Done (v', c2) -> c2 = c1)
  /\ (forall v' c2, ArrayNullable.DataP c1 = Done (v', c2) -> c2 = c1).
Proof.
  intros H.
  assert (Hc1 : c1 = snd (ArrayNullable.getColumnData c)).
  { unfold ArrayNullable.RowP in H.
    destruct (if row =? 0 then Done 0 else _) as [lo| |]; cbn in H; try discriminate.
    destruct (ArrayNullable.getColumnData c) as [cd c2].
    destruct (ArrayNullable.Base_Row row _) as [hi| |]; cbn in H; try discriminate.
    destruct (slice cd lo hi); cbn in H; [|discriminate].
    injection H as _ <-. reflexivity. }
  assert (Hd : ArrayNullable.offsetColumn (snd (ArrayNullable.getColumnData c))
               = ArrayNullable.offsetColumn c).
  { unfold ArrayNullable.getColumnData. case (_ =? _); reflexivity. }
  pose proof (getColumnData_again c) as Hg. rewrite <- Hc1 in Hg, Hd.
  split.
  - unfold ArrayNullable.RowP in H |- *. rewrite Hg, Hd.
    destruct (if row =? 0 then Done 0 else _) as [lo| |]; cbn in H |- *; try discriminate.
    destruct (ArrayNullable.getColumnData c) as [cd c2]. cbn [fst snd] in *. subst c2.
    rewrite Hd in H.
    destruct (ArrayNullable.Base_Row row _) as [hi| |]; cbn in H |- *; try discriminate.
    destruct (slice cd lo hi); cbn in H |- *; [|discriminate].
    injection H as ->. reflexivity.
  - split; [|split].
    + intros row' v' c2 H'. unfold ArrayNullable.RowP in H'. rewrite Hg in H'.
      destruct (if row' =? 0 then Done 0 else _) as [lo| |]; cbn in H'; try discriminate.
      destruct (ArrayNullable.Base_Row row' _) as [hi| |]; cbn in H'; try discriminate.
      destruct (slice _ lo hi); cbn in H'; [|discriminate].
      injection H' as _ <-. reflexivity.
    + intros value v' c2 H'. unfold ArrayNullable.ReadP in H'. rewrite Hg in H'.
      destruct (ArrayNullable.rows_loop _ _ _ _ _); cbn in H'; try discriminate.
      injection H' as _ <-. reflexivity.
    + intros v' c2 H'. unfold ArrayNullable.DataP in H'. rewrite Hg in H'.
      destruct (_ <? 0); [discriminate|].
      destruct (ArrayNullable.rows_loop _ _ _ _ _); cbn in H'; try discriminate.
      injection H' as _ <-. reflexivity.
Qed.

End ArrayBlock.

(** ** Element-wise scans of an [ArrayNullable] column *)

Section ScanConversion.

Context {T Any U E : Type}.
Context (to_any : list (option T) -> Any).
Context (inner_Scan : @ArrayNullable.NullableColumn T -> Z -> outcome (E + U)).
Context (zeroU : U).

Local Abbreviation Scan := (ArrayNullable.Scan to_any inner_Scan zeroU).

Lemma scan_items_converted d (f : Z -> U) lo m : forall (k : nat) (pre : list U),
  length pre = k ->
  Z.of_nat (k + m) <= max_int ->
  (forall i, lo + Z.of_nat k <= i < lo + Z.of_nat (k + m) ->
             inner_Scan d i = Done (inr (f i))) ->
  ArrayNullable.scan_items inner_Scan d (seqZ (lo + Z.of_nat k) (Z.of_nat m)) (Z.of_nat k)
    (pre ++ replicate m zeroU)
  = Done (inr (pre ++ map f (seqZ (lo + Z.of_nat k) (Z.of_nat m)))).
Proof.
  induction m as [|m IH]; intros k pre Hpre Hmax Hscan.
  - cbn. reflexivity.
  - rewrite seqZ_cons by lia. cbn [ArrayNullable.scan_items replicate map].
    assert (Hb : (0 <=? Z.of_nat k) && (Z.of_nat k <? len (pre ++ zeroU :: replicate m zeroU))
                 = true).
    { apply andb_true_iff. split; [apply Z.leb_le; lia|].
      apply Z.ltb_lt. unfold len. rewrite length_app. cbn [length]. lia. }
    rewrite Hb, Hscan by lia. cbn [mbind outcome_bind].
    rewrite int_add_small by (unfold max_int in Hmax; lia).
    rewrite Nat2Z.id, insert_app_r_alt by lia.
    replace (k - length pre)%nat with 0%nat by lia. cbn [insert list_insert].
    replace (Z.succ (lo + Z.of_nat k)) with (lo + Z.of_nat (S k)) by lia.
    replace (Z.of_nat k + 1) with (Z.of_nat (S k)) by lia.
    replace (Z.pred (Z.of_nat (S m))) with (Z.of_nat m) by lia.
    pose proof (IH (S k) (pre ++ [f (lo + Z.of_nat k)])) as IH'.
    rewrite <- !app_assoc in IH'. cbn [app] in IH'. apply IH'.
    + rewrite length_app. cbn [length]. lia.
    + lia.
    + intros i Hi. apply Hscan. lia.
Qed.

(** X10.  Scanning a row into a slice of another element type.  When the
    inner column's [Scan] converts every element of the row, [Scan] into a
    pointer to such a slice replaces the slice by the converted elements of
    the row, in order, one per element, returns nil and leaves the column
    as it was, cache included. *)
Theorem ArrayNullable_Scan_converts (c : @ArrayNullable.t T) (i : nat) (lo hi : Z)
    (f : Z -> U) (cur : list U) :
  Z.of_nat i <= max_int ->
  (0 :: ArrayNullable.decoded (ArrayNullable.offsetColumn c)) !! i = Some lo ->
  ArrayNullable.decoded (ArrayNullable.offsetColumn c) !! i = Some hi ->
  0 <= lo -> lo <= hi -> hi <= max_int ->
  (forall j, lo <= j < hi ->
             inner_Scan (ArrayNullable.dataColumn c) j = Done (inr (f j))) ->
  Scan (Z.of_nat i) (ArrayNullable.PtrSlice (ArrayNullable.SliceU cur)) c
  = Done (None,
          ArrayNullable.PtrSlice (ArrayNullable.SliceU (map f (seqZ lo (hi - lo)))),
          c)
  /\ len (map f (seqZ lo (hi - lo))) = hi - lo.
Proof.
  intros Hi Hlo Hhi H0 Hle Hmax Hscan.
  split; [|unfold len; rewrite length_map, length_seqZ; lia].
  cbn [ArrayNullable.Scan]. unfold ArrayNullable.ScanValue.
  cbn [ArrayNullable.Indirect_slice].
  assert (Hl : (if Z.of_nat i =? 0 then Done 0
                else o ← ArrayNullable.Base_Row (int_add (Z.of_nat i) (-1))
                           (ArrayNullable.offsetColumn c);
                     Done (wrap_int o)) = Done lo).
  { destruct i as [|i].
    - change (Some 0 = Some lo) in Hlo. injection Hlo as <-. reflexivity.
    - destruct (Z.eqb_spec (Z.of_nat (S i)) 0); [lia|].
      rewrite int_add_small by (unfold max_int in Hi; lia).
      replace (Z.of_nat (S i) + -1) with (Z.of_nat i) by lia.
      unfold ArrayNullable.Base_Row. rewrite index_nat.
      change (ArrayNullable.decoded (ArrayNullable.offsetColumn c) !! i = Some lo) in Hlo.
      rewrite Hlo. cbn [of_option mbind outcome_bind].
      rewrite wrap_int_small by (unfold max_int in Hmax; lia). reflexivity. }
  rewrite Hl. cbn [mbind outcome_bind].
  unfold ArrayNullable.Base_Row. rewrite index_nat, Hhi.
  cbn [of_option mbind outcome_bind].
  rewrite wrap_int_small by (unfold max_int in Hmax; lia).
  rewrite int_add_small by (unfold max_int in Hmax; lia).
  destruct (Z.ltb_spec (hi + - lo) 0); [lia|].
  pose proof (scan_items_converted (ArrayNullable.dataColumn c) f lo
                (Z.to_nat (hi - lo)) 0 [] eq_refl) as Hs.
  cbn [app Nat.add] in Hs. rewrite Z.add_0_r in Hs.
  replace (Z.of_nat (Z.to_nat (hi - lo))) with (hi - lo) in Hs by lia.
  replace (hi + - lo) with (hi - lo) by lia.
  change (Z.of_nat 0) with 0 in Hs.
  rewrite Hs.
  - reflexivity.
  - lia.
  - intros j Hj. apply Hscan. lia.
Qed.

(** X11.  A slice passed by value is never assigned.  [Scan] with a slice
    that is not behind a pointer never returns nil, whatever the row and
    whatever the inner column does: the call ends in an error or a panic. *)
Theorem ArrayNullable_Scan_by_value_fails (row : Z) (s : ArrayNullable.slice_value)
    (c : @ArrayNullable.t T) (d' : ArrayNullable.dest) (c' : @ArrayNullable.t T) :
  Scan row (ArrayNullable.ValSlice s) c <> Done (None, d', c').
Proof.
  cbn [ArrayNullable.Scan]. unfold ArrayNullable.ScanValue.
  cbn [ArrayNullable.Indirect_slice]. destruct s as [cur|cur].
  - destruct (ArrayNullable.RowP row c) as [[v c1]| |]; discriminate.
  - destruct (if row =? 0 then Done 0 else _) as [lastOffset| |];
      cbn [mbind outcome_bind]; try discriminate.
    destruct (ArrayNullable.Base_Row row (ArrayNullable.offsetColumn c)) as [o| |];
      cbn [mbind outcome_bind]; try discriminate.
    destruct (_ <? 0); [discriminate|].
    destruct (ArrayNullable.scan_items _ _ _ _ _) as [[err|rSlice]| |];
      cbn [mbind outcome_bind ArrayNullable.Set_dest]; discriminate.
Qed.

End ScanConversion.

(** ** JSON rendering of a row *)

Lemma join_comma_cons (p : list byte) (ps : list (list byte)) :
  join_comma (p :: ps) = p ++ concat (map (fun q => Byte.x2c :: q) ps).
Proof.
  revert p. induction ps as [|q ps IH]; intros p.
  - cbn. rewrite app_nil_r. reflexivity.
  - change (join_comma (p :: q :: ps)) with (p ++ [Byte.x2c] ++ join_comma (q :: ps)).
    rewrite IH. reflexivity.
Qed.

Section ToJSONRows.

Context {T : Type}.
Context (RowIsNil : @ArrayNullable.NullableColumn T -> Z -> outcome bool).
Context (inner_ToJSON :
           @ArrayNullable.NullableColumn T -> Z -> bool -> list byte -> outcome (list byte)).

Variable d : @ArrayNullable.NullableColumn T.
Variable q : bool.
Variable isnil : Z -> bool.
Variable render : Z -> list byte.
Variables lo hi : Z.
Hypothesis Hhi : hi <= max_int.
Hypothesis Hlo : 0 <= lo.
Hypothesis Hnil : forall j, lo <= j < hi -> RowIsNil d j = Done (isnil j).
Hypothesis Hrender : forall j b, lo <= j < hi -> isnil j = false ->
                                 inner_ToJSON d j q b = Done (b ++ render j).

(** The rendering of element [j]. *)
Let elem (j : Z) : list byte := if isnil j then json_null else render j.

Lemma ToJSON_loop_rest (todo : list Z) : forall b,
  Forall (fun j => lo < j < hi) todo ->
  ArrayNullable.ToJSON_loop RowIsNil inner_ToJSON d q todo lo b
  = Done (b ++ concat (map (fun p => Byte.x2c :: p) (map elem todo))).
Proof.
  induction todo as [|j todo IH]; intros b Hall.
  - cbn. rewrite app_nil_r. reflexivity.
  - inversion Hall as [|? ? Hj Hall']; subst.
    cbn [ArrayNullable.ToJSON_loop map concat].
    destruct (Z.eqb_spec j lo); [lia|]. cbn [negb].
    rewrite wrap_int_small by (unfold max_int in Hhi; lia).
    rewrite Hnil by lia. cbn [mbind outcome_bind]. unfold elem at 1.
    destruct (isnil j) eqn:Hn.
    + cbn [mbind outcome_bind]. rewrite IH by exact Hall'.
      unfold json_null. rewrite <- !app_assoc. reflexivity.
    + rewrite Hrender by (try assumption; lia). cbn [mbind outcome_bind].
      rewrite IH by exact Hall'. rewrite <- !app_assoc. reflexivity.
Qed.

Lemma ToJSON_loop_joined (n : nat) (b : list byte) :
  lo + Z.of_nat n = hi ->
  ArrayNullable.ToJSON_loop RowIsNil inner_ToJSON d q (seqZ lo (Z.of_nat n)) lo b
  = Done (b ++ join_comma (map elem (seqZ lo (Z.of_nat n)))).
Proof.
  intros Hn. destruct n as [|n]; [cbn; rewrite app_nil_r; reflexivity|].
  rewrite seqZ_cons by lia. cbn [ArrayNullable.ToJSON_loop map].
  rewrite Z.eqb_refl. cbn [negb].
  rewrite wrap_int_small by (unfold max_int in Hhi; lia).
  rewrite Hnil by lia. cbn [mbind outcome_bind].
  rewrite join_comma_cons. unfold elem at 1.
  assert (Hall : Forall (fun j => lo < j < hi) (seqZ (Z.succ lo) (Z.pred (Z.of_nat (S n))))).
  { apply Forall_forall. intros j Hj. apply elem_of_seqZ in Hj. lia. }
  destruct (isnil lo) eqn:Hn0.
  - cbn [mbind outcome_bind]. rewrite ToJSON_loop_rest by exact Hall.
    unfold json_null. rewrite <- !app_assoc. reflexivity.
  - rewrite Hrender by (try assumption; lia). cbn [mbind outcome_bind].
    rewrite ToJSON_loop_rest by exact Hall. rewrite <- !app_assoc. reflexivity.
Qed.

End ToJSONRows.

(** X12.  JSON rendering of a row.  When the inner column reports for each
    element of row [i] whether it is nil and renders each non-nil element by
    appending its text, [ToJSON] returns its buffer followed by ['['], the
    renderings of the row's elements in order, ["null"] for nil, separated
    by single commas, and [']']; an empty row renders as ["[]"]. *)
Theorem ArrayNullable_ToJSON_row {T : Type}
    (RowIsNil : @ArrayNullable.NullableColumn T -> Z -> outcome bool)
    (inner_ToJSON :
       @ArrayNullable.NullableColumn T -> Z -> bool -> list byte -> outcome (list byte))
    (c : @ArrayNullable.t T) (i : nat) (lo hi : Z) (q : bool)
    (isnil : Z -> bool) (render : Z -> list byte) (b : list byte) :
  Z.of_nat i <= max_int ->
  (0 :: ArrayNullable.decoded (ArrayNullable.offsetColumn c)) !! i = Some lo ->
  ArrayNullable.decoded (ArrayNullable.offsetColumn c) !! i = Some hi ->
  0 <= lo -> lo <= hi -> hi <= max_int ->
  (forall j, lo <= j < hi -> RowIsNil (ArrayNullable.dataColumn c) j = Done (isnil j)) ->
  (forall j b', lo <= j < hi -> isnil j = false ->
                inner_ToJSON (ArrayNullable.dataColumn c) j q b' = Done (b' ++ render j)) ->
  ArrayNullable.ToJSON RowIsNil inner_ToJSON (Z.of_nat i) q b c
  = Done (b ++ [Byte.x5b]
            ++ join_comma (map (fun j => if isnil j then json_null else render j)
                               (seqZ lo (hi - lo)))
            ++ [Byte.x5d])
  /\ (lo = hi ->
      ArrayNullable.ToJSON RowIsNil inner_ToJSON (Z.of_nat i) q b c
      = Done (b ++ [Byte.x5b; Byte.x5d])).
Proof.
  intros Hi Hlo Hhi H0 Hle Hmax Hnil Hrender.
  assert (Hmain : ArrayNullable.ToJSON RowIsNil inner_ToJSON (Z.of_nat i) q b c
                  = Done (b ++ [Byte.x5b]
                            ++ join_comma (map (fun j => if isnil j then json_null
                                                         else render j)
                                               (seqZ lo (hi - lo)))
                            ++ [Byte.x5d])).
  { unfold ArrayNullable.ToJSON.
    assert (Hl : (if Z.of_nat i =? 0 then Done 0
                  else ArrayNullable.Base_Row (int_add (Z.of_nat i) (-1))
                         (ArrayNullable.offsetColumn c)) = Done lo).
    { destruct i as [|i].
      - change (Some 0 = Some lo) in Hlo. injection Hlo as <-. reflexivity.
      - destruct (Z.eqb_spec (Z.of_nat (S i)) 0); [lia|].
        rewrite int_add_small by (unfold max_int in Hi; lia).
        replace (Z.of_nat (S i) + -1) with (Z.of_nat i) by lia.
        unfold ArrayNullable.Base_Row. rewrite index_nat.
        change (ArrayNullable.decoded (ArrayNullable.offsetColumn c) !! i = Some lo) in Hlo.
        rewrite Hlo. reflexivity. }
    rewrite Hl. cbn [mbind outcome_bind].
    unfold ArrayNullable.Base_Row. rewrite index_nat, Hhi.
    cbn [of_option mbind outcome_bind].
    replace (hi - lo) with (Z.of_nat (Z.to_nat (hi - lo))) by lia.
    rewrite (ToJSON_loop_joined RowIsNil inner_ToJSON (ArrayNullable.dataColumn c) q
               isnil render lo hi Hmax H0 Hnil Hrender) by lia.
    cbn [mbind outcome_bind]. rewrite <- !app_assoc. reflexivity. }
  split; [exact Hmain|].
  intros ->. rewrite Hmain, Z.sub_diag. reflexivity.
Qed.

(** ** Round trip of a [DateTime] column *)

Lemma DateTime_Append_bytes (v : time.Time) (c : DateTime.t) :
  column.size (DateTime.col c) = DatetimeSize ->
  exists c',
    DateTime.Append v c = Done c'
    /\ column.writerData (DateTime.col c')
       = column.writerData (DateTime.col c) ++ le_split 4 (stored_epoch v)
    /\ column.size (DateTime.col c') = DatetimeSize.
Proof.
  intros Hsize. unfold DateTime.Append, stored_epoch.
  destruct (Z.leb_spec (time.Time_Unix v) 0).
  - cbn [DateTime.col DateTime.set_col column.size column.set_numRow].
    rewrite Hsize. eexists. split; [reflexivity|]. split; [reflexivity|exact Hsize].
  - eexists. split; [reflexivity|]. split; [|exact Hsize].
    cbn [DateTime.col DateTime.set_col column.writerData column.set_writerData
         column.set_numRow].
    change 32 with (Z.of_nat 4 * 8). rewrite le_split_mod, le_split_4. reflexivity.
Qed.

Lemma DateTime_AppendAll_bytes (vs : list time.Time) : forall c : DateTime.t,
  column.size (DateTime.col c) = DatetimeSize ->
  exists c',
    DateTime_AppendAll vs c = Done c'
    /\ column.writerData (DateTime.col c')
       = column.writerData (DateTime.col c)
           ++ concat (map (le_split 4) (map stored_epoch vs)).
Proof.
  induction vs as [|v vs IH]; intros c Hsize.
  - exists c. cbn. rewrite app_nil_r. auto.
  - destruct (DateTime_Append_bytes v c Hsize) as (c1 & Hrun & Hw & Hs).
    destruct (IH c1 Hs) as (c' & Hrun' & Hw').
    exists c'. cbn [DateTime_AppendAll]. rewrite Hrun. cbn [mbind outcome_bind].
    split; [exact Hrun'|]. rewrite Hw', Hw. cbn [map concat].
    rewrite <- app_assoc. reflexivity.
Qed.

Lemma stored_epoch_range v : 0 <= stored_epoch v < 2 ^ 32.
Proof.
  unfold stored_epoch. destruct (_ <=? _); [lia|]. apply Z.mod_pos_bound. lia.
Qed.

Lemma rows32_le_split (pre : list byte) (zs : list Z) : forall post,
  Forall (fun z => 0 <= z < 2 ^ 32) zs ->
  rows32 (pre ++ concat (map (le_split 4) zs) ++ post) (length pre) (length zs) = zs.
Proof.
  revert pre. induction zs as [|z zs IH]; intros pre post Hzs; [reflexivity|].
  inversion Hzs as [|? ? Hz Hzs']; subst.
  cbn [rows32 map concat length].
  rewrite drop_app_length.
  rewrite <- (app_assoc (le_split 4 z)).
  rewrite take_app_length' by (symmetry; apply length_le_split).
  rewrite le_combine_split_4, Z.mod_small by lia.
  f_equal.
  specialize (IH (pre ++ le_split 4 z) post Hzs').
  rewrite length_app, length_le_split in IH.
  rewrite <- app_assoc in IH. exact IH.
Qed.

(** X13.  Round trip of a DateTime block.  [Append] of any instants [vs] on
    a fresh column succeeds and writes 4 bytes per instant; reading the
    block back, through [ReadAll] or row by row, gives for each instant the
    instant of whole seconds whose epoch is 0 when the original epoch is at
    most 0 and the original epoch modulo [2^32] otherwise.  So the block
    reads back exactly as written when every instant has no nanoseconds and
    an epoch from 1 to [2^32 - 1]. *)
Theorem DateTime_roundtrip (nullable : bool) (vs out : list time.Time) (r : DateTime.t) :
  4 * len vs <= max_int ->
  column.b (DateTime.col r) = concat (map (le_split 4) (map stored_epoch vs)) ->
  column.size (DateTime.col r) = DatetimeSize ->
  column.totalByte (DateTime.col r) = len (column.b (DateTime.col r)) ->
  column.i (DateTime.col r) = 0 ->
  exists w : DateTime.t,
    DateTime_AppendAll vs (DateTime.NewDateTime nullable) = Done w
    /\ column.writerData (DateTime.col w) = column.b (DateTime.col r)
    /\ DateTime.ReadAll r out
       = Done (r, out ++ map (fun v => time.mk (stored_epoch v) 0) vs)
    /\ (exists r', DateTime.Next_loop (S (length vs)) r []
                   = Done (r', map (fun v => time.mk (stored_epoch v) 0) vs))
    /\ (Forall (fun v => 0 < time.Time_Unix v < 2 ^ 32 /\ time.nsec v = 0) vs ->
        map (fun v => time.mk (stored_epoch v) 0) vs = vs).
Proof.
  intros Hmax Hb Hsize Htotal Hi.
  destruct (DateTime_AppendAll_bytes vs (DateTime.NewDateTime nullable) eq_refl)
    as (w & Hrun & Hw).
  cbn [DateTime.NewDateTime DateTime.col column.writerData app] in Hw.
  assert (Hlen : len (column.b (DateTime.col r)) = 4 * Z.of_nat (length vs)).
  { rewrite Hb. unfold len. clear. induction vs as [|v vs IH]; [reflexivity|].
    cbn [map concat]. rewrite length_app, length_le_split. cbn [length]. lia. }
  assert (Hmax' : len (column.b (DateTime.col r)) <= max_int)
    by (rewrite Hlen; unfold len in Hmax; exact Hmax).
  assert (Hrows : map instant (rows32 (column.b (DateTime.col r)) 0 (length vs))
                  = map (fun v => time.mk (stored_epoch v) 0) vs).
  { pose proof (rows32_le_split [] (map stored_epoch vs) []) as H.
    cbn [app length] in H. rewrite app_nil_r, length_map in H.
    rewrite Hb, H by (apply Forall_map, Forall_forall; intros; apply stored_epoch_range).
    rewrite map_map. reflexivity. }
  exists w. split; [exact Hrun|]. split; [congruence|]. split; [|split].
  - rewrite (DateTime_ReadAll_rows r Hsize Htotal Hmax' (length vs)) by lia.
    rewrite Hrows. reflexivity.
  - destruct (DateTime_Next_loop_rows (length vs) (S (length vs)) r [])
      as (r' & Hnext & _); try assumption; try lia.
    exists r'. rewrite Hnext, Hi. change (Z.to_nat 0) with 0%nat.
    rewrite Hrows. reflexivity.
  - clear. intros Hall. induction Hall as [|v vs (Hv & Hns) _ IH]; [reflexivity|].
    cbn [map]. rewrite IH. f_equal. unfold stored_epoch.
    destruct (Z.leb_spec (time.Time_Unix v) 0); [lia|].
    rewrite Z.mod_small by lia. destruct v as [s ns]. cbn in *. subst ns. reflexivity.
Qed.

(** ** [Fill] and the nullable reads of a [DateTime] column *)

Lemma rowsT_rows32 b n : forall i, rowsT b i n = map instant (rows32 b i n).
Proof. induction n as [|n IH]; intros i; cbn; [|rewrite IH]; reflexivity. Qed.

Lemma length_rowsT b n : forall i, length (rowsT b i n) = n.
Proof. intros i. rewrite rowsT_rows32, length_map. apply length_rows32. Qed.

Lemma rowsT_app b k : forall i m,
  rowsT b i (k + m) = rowsT b i k ++ rowsT b (i + 4 * k) m.
Proof.
  induction k as [|k IH]; intros i m; cbn [rowsT Nat.add app].
  - f_equal. lia.
  - rewrite IH. replace (i + 4 + 4 * k)%nat with (i + 4 * S k)%nat by lia. reflexivity.
Qed.

Lemma DateTime_Fill_loop_rows (todo : list time.Time) : forall (c : DateTime.t) filled,
  column.size (DateTime.col c) = DatetimeSize ->
  len (column.b (DateTime.col c)) <= max_int ->
  0 <= column.i (DateTime.col c) ->
  column.i (DateTime.col c) + 4 * len todo <= len (column.b (DateTime.col c)) ->
  DateTime.Fill_loop todo c filled
  = Done (DateTime.set_col (column.set_i (column.i (DateTime.col c) + 4 * len todo)
                                       (DateTime.col c)) c,
          filled ++ rowsT (column.b (DateTime.col c))
                           (Z.to_nat (column.i (DateTime.col c))) (length todo)).
Proof.
  unfold DatetimeSize, max_int.
  induction todo as [|x todo IH]; intros c filled Hsize Hmax Hi Hlen.
  - cbn [DateTime.Fill_loop rowsT length]. rewrite app_nil_r.
    change (len []) with 0. rewrite Z.mul_0_r, Z.add_0_r.
    destruct c as [[]]; reflexivity.
  - assert (Hlen' : len (x :: todo) = len todo + 1) by (unfold len; cbn [length]; lia).
    rewrite Hlen' in *. pose proof (len_nonneg todo) as Ht.
    cbn [DateTime.Fill_loop]. rewrite Hsize, int_add_small by lia.
    rewrite slice_ok by lia. cbn [of_option mbind outcome_bind].
    replace (Z.to_nat (column.i (DateTime.col c) + 4 - column.i (DateTime.col c)))
      with 4%nat by lia.
    rewrite Uint32_take4.
    2:{ rewrite length_take, length_drop. unfold len in *. lia. }
    cbn [of_option mbind outcome_bind]. rewrite take_take.
    rewrite IH;
      cbn [DateTime.col DateTime.set_col column.b column.i column.size column.set_i];
      try assumption; try lia.
    rewrite <- app_assoc. cbn [rowsT length app].
    replace (Z.to_nat (column.i (DateTime.col c) + 4))
      with (Z.to_nat (column.i (DateTime.col c)) + 4)%nat by lia.
    replace (column.i (DateTime.col c) + 4 + 4 * len todo)
      with (column.i (DateTime.col c) + 4 * (len todo + 1)) by lia.
    reflexivity.
Qed.

(** X14.  [Fill] on a DateTime column reads the next [len(value)] rows and
    moves the cursor past them.  On a block of [n] whole rows read from its start, [Fill] into a
    slice of [k <= n] elements yields the first [k] values that [ReadAll]
    yields, leaves the cursor at byte [4 * k], and the [Next]/[Value] loop
    run afterwards yields the remaining [n - k] values. *)
Theorem DateTime_Fill_then_Next (c : DateTime.t) (n : nat) (value : list time.Time) :
  column.size (DateTime.col c) = DatetimeSize ->
  column.totalByte (DateTime.col c) = len (column.b (DateTime.col c)) ->
  len (column.b (DateTime.col c)) = DatetimeSize * Z.of_nat n ->
  len (column.b (DateTime.col c)) <= max_int ->
  column.i (DateTime.col c) = 0 ->
  (length value <= n)%nat ->
  exists (vs : list time.Time) (c1 c2 : DateTime.t),
    DateTime.ReadAll c [] = Done (c, vs)
    /\ DateTime.Fill value c = Done (c1, take (length value) vs)
    /\ column.i (DateTime.col c1) = DatetimeSize * len value
    /\ DateTime.Next_loop (S n) c1 [] = Done (c2, drop (length value) vs).
Proof.
  unfold DatetimeSize at 2 3. intros Hsize Htotal Hlen Hmax Hi Hk.
  set (k := length value) in *.
  exists (rowsT (column.b (DateTime.col c)) 0 n).
  pose proof (DateTime_Fill_loop_rows value c [] Hsize Hmax ltac:(lia)) as HF.
  rewrite Hi in HF. change (Z.to_nat 0) with 0%nat in HF. cbn [app] in HF.
  fold k in HF.
  assert (Hsplit : rowsT (column.b (DateTime.col c)) 0 n
                   = rowsT (column.b (DateTime.col c)) 0 k
                       ++ rowsT (column.b (DateTime.col c)) (4 * k) (n - k)).
  { replace n with (k + (n - k))%nat at 1 by lia. apply rowsT_app. }
  set (c1 := DateTime.set_col (column.set_i (0 + 4 * len value) (DateTime.col c)) c) in *.
  destruct (DateTime_Next_loop_rows (n - k) (S n) c1 []) as (c2 & Hrun & _);
    subst c1; cbn [DateTime.col DateTime.set_col column.b column.i column.size
                   column.totalByte column.set_i]; try assumption;
    try (unfold len, k in *; lia).
  rewrite <- rowsT_rows32 in Hrun.
  exists (DateTime.set_col (column.set_i (0 + 4 * len value) (DateTime.col c)) c), c2.
  split; [rewrite (DateTime_ReadAll_rows c Hsize Htotal Hmax n), rowsT_rows32 by lia;
          reflexivity|].
  split.
  - unfold DateTime.Fill. rewrite HF by (unfold len, k in *; lia).
    rewrite Hsplit, take_app_length' by (rewrite length_rowsT; reflexivity).
    reflexivity.
  - split; [reflexivity|]. rewrite Hrun.
    cbn [DateTime.col DateTime.set_col column.b column.i column.set_i app].
    rewrite Hsplit, drop_app_length' by (rewrite length_rowsT; reflexivity).
    replace (Z.to_nat (0 + 4 * len value)) with (4 * k)%nat by (unfold len, k; lia).
    reflexivity.
Qed.

Lemma int_quot_row4 (k : nat) :
  4 * Z.of_nat k <= max_int -> int_quot (4 * Z.of_nat k) 4 = Some (Z.of_nat k).
Proof.
  intros H. unfold int_quot. cbn [Z.eqb].
  rewrite Z.mul_comm, Z.quot_mul by lia.
  rewrite wrap_int_small by (unfold max_int in H; lia). reflexivity.
Qed.

Section DateTimeNullableRead.

Variable c : DateTime.t.
Hypothesis Hsize : column.size (DateTime.col c) = DatetimeSize.
Hypothesis Htotal : column.totalByte (DateTime.col c) = len (column.b (DateTime.col c)).
Hypothesis Hmax : len (column.b (DateTime.col c)) <= max_int.

Let bitmap := Nullable.b (column.colNullable (DateTime.col c)).
Let buf := column.b (DateTime.col c).

Lemma DateTime_ReadAllP_loop_rows n : forall fuel k out,
  4 * Z.of_nat (k + n) = len buf ->
  (k + n <= length bitmap)%nat ->
  (n <= fuel)%nat ->
  DateTime.ReadAllP_loop fuel c (4 * Z.of_nat k) out
  = Done (out ++ optional_rows nil_ne0 (drop k bitmap) (rowsT buf (4 * k) n)).
Proof.
  unfold DatetimeSize, max_int in *. subst buf.
  induction n as [|n IH]; intros fuel k out Hlen Hbm Hfuel.
  - cbn [rowsT]. unfold optional_rows. rewrite zip_with_nil_r, app_nil_r.
    destruct fuel; cbn [DateTime.ReadAllP_loop];
      destruct (Z.ltb_spec (4 * Z.of_nat k) (column.totalByte (DateTime.col c)));
      try lia; reflexivity.
  - destruct fuel as [|fuel]; [lia|]. cbn [DateTime.ReadAllP_loop].
    destruct (Z.ltb_spec (4 * Z.of_nat k) (column.totalByte (DateTime.col c))); [|lia].
    rewrite Hsize, int_quot_row4 by (unfold max_int; lia).
    cbn [of_option mbind outcome_bind]. rewrite index_nat.
    destruct (lookup_lt_is_Some_2 bitmap k ltac:(lia)) as [m Hm].
    fold bitmap. rewrite Hm. cbn [of_option mbind outcome_bind].
    rewrite (drop_S _ _ _ Hm). cbn [rowsT]. rewrite optional_rows_cons.
    rewrite int_add_small by lia.
    replace (4 * Z.of_nat k + 4) with (4 * Z.of_nat (S k)) by lia.
    replace (4 * k + 4)%nat with (4 * S k)%nat by lia.
    fold (nil_ne0 m). destruct (nil_ne0 m).
    + rewrite IH by lia. rewrite <- app_assoc. reflexivity.
    + rewrite slice_ok by lia. cbn [of_option mbind outcome_bind].
      replace (Z.to_nat (4 * Z.of_nat (S k) - 4 * Z.of_nat k)) with 4%nat by lia.
      replace (Z.to_nat (4 * Z.of_nat k)) with (4 * k)%nat by lia.
      rewrite Uint32_take4.
      2:{ rewrite length_take, length_drop. unfold len in *. lia. }
      cbn [of_option mbind outcome_bind]. rewrite take_take.
      rewrite IH by lia. rewrite <- app_assoc. reflexivity.
Qed.

Lemma DateTime_ReadAllP_rows n out :
  4 * Z.of_nat n = len buf ->
  (n <= length bitmap)%nat ->
  DateTime.ReadAllP c out
  = Done (c, out ++ optional_rows nil_ne0 bitmap (rowsT buf 0 n)).
Proof.
  intros Hlen Hbm. unfold DateTime.ReadAllP.
  pose proof (DateTime_ReadAllP_loop_rows n (Z.to_nat (column.totalByte (DateTime.col c)))
                0 out) as H.
  change (4 * Z.of_nat 0) with 0 in H. change (4 * 0)%nat with 0%nat in H.
  change (drop 0 bitmap) with bitmap in H. change (0 + n)%nat with n in H.
  rewrite H; [reflexivity|exact Hlen|exact Hbm|].
  rewrite Htotal. fold buf. lia.
Qed.

End DateTimeNullableRead.

Lemma DateTime_FillP_loop_rows (todo : list (option time.Time)) : forall (c : DateTime.t) filled (k : nat),
  column.size (DateTime.col c) = DatetimeSize ->
  len (column.b (DateTime.col c)) <= max_int ->
  column.i (DateTime.col c) = 4 * Z.of_nat k ->
  4 * Z.of_nat (k + length todo) <= len (column.b (DateTime.col c)) ->
  (k + length todo <= length (Nullable.b (column.colNullable (DateTime.col c))))%nat ->
  DateTime.FillP_loop todo c filled
  = Done (DateTime.set_col (column.set_i (4 * Z.of_nat (k + length todo)) (DateTime.col c)) c,
          filled ++ optional_rows nil_eq1
                      (drop k (Nullable.b (column.colNullable (DateTime.col c))))
                      (rowsT (column.b (DateTime.col c)) (4 * k) (length todo))).
Proof.
  unfold DatetimeSize, max_int.
  induction todo as [|x todo IH]; intros c filled k Hsize Hmax Hi Hlen Hbm.
  - cbn [DateTime.FillP_loop rowsT length]. unfold optional_rows.
    rewrite zip_with_nil_r, app_nil_r, Nat.add_0_r, <- Hi.
    destruct c as [[]]; reflexivity.
  - cbn [length] in *. cbn [DateTime.FillP_loop].
    rewrite Hsize, Hi, int_quot_row4 by (unfold max_int; lia).
    cbn [of_option mbind outcome_bind]. rewrite index_nat.
    destruct (lookup_lt_is_Some_2 (Nullable.b (column.colNullable (DateTime.col c))) k
                ltac:(lia)) as [m Hm].
    rewrite Hm. cbn [of_option mbind outcome_bind].
    rewrite (drop_S _ _ _ Hm). cbn [rowsT]. rewrite optional_rows_cons.
    rewrite int_add_small by lia.
    replace (4 * Z.of_nat k + 4) with (4 * Z.of_nat (S k)) by lia.
    replace (4 * k + 4)%nat with (4 * S k)%nat by lia.
    replace (k + S (length todo))%nat with (S k + length todo)%nat by lia.
    fold (nil_eq1 m). destruct (nil_eq1 m).
    + rewrite (IH _ _ (S k));
        cbn [DateTime.col DateTime.set_col column.b column.i column.size column.set_i
             column.colNullable]; try assumption; try lia.
      rewrite <- app_assoc. reflexivity.
    + rewrite slice_ok by lia. cbn [of_option mbind outcome_bind].
      replace (Z.to_nat (4 * Z.of_nat (S k) - 4 * Z.of_nat k)) with 4%nat by lia.
      replace (Z.to_nat (4 * Z.of_nat k)) with (4 * k)%nat by lia.
      rewrite Uint32_take4.
      2:{ rewrite length_take, length_drop. unfold len in *. lia. }
      cbn [of_option mbind outcome_bind]. rewrite take_take.
      rewrite (IH _ _ (S k));
        cbn [DateTime.col DateTime.set_col column.b column.i column.size column.set_i
             column.colNullable]; try assumption; try lia.
      rewrite <- app_assoc. reflexivity.
Qed.

Lemma DateTime_NextP_loop_rows n : forall fuel (c : DateTime.t) out (k : nat),
  column.size (DateTime.col c) = DatetimeSize ->
  column.totalByte (DateTime.col c) = len (column.b (DateTime.col c)) ->
  len (column.b (DateTime.col c)) <= max_int ->
  column.i (DateTime.col c) = 4 * Z.of_nat k ->
  4 * Z.of_nat (k + n) = len (column.b (DateTime.col c)) ->
  (k + n <= length (Nullable.b (column.colNullable (DateTime.col c))))%nat ->
  (n < fuel)%nat ->
  exists c',
    DateTime.NextP_loop fuel c out
    = Done (c', out ++ optional_rows nil_eq1
                         (drop k (Nullable.b (column.colNullable (DateTime.col c))))
                         (rowsT (column.b (DateTime.col c)) (4 * k) n)).
Proof.
  induction n as [|n IH]; intros fuel c out k Hsize Htotal Hmax Hi Hlen Hbm Hfuel.
  - destruct fuel as [|fuel]; [lia|]. exists c.
    cbn [DateTime.NextP_loop rowsT]. unfold DateTime.Next, optional_rows.
    destruct (Z.geb_spec (column.i (DateTime.col c)) (column.totalByte (DateTime.col c))); [|lia].
    cbn [mbind outcome_bind]. rewrite zip_with_nil_r, app_nil_r. reflexivity.
  - destruct fuel as [|fuel]; [lia|].
    cbn [DateTime.NextP_loop]. rewrite DateTime_Next_step by (try assumption; lia).
    cbn [mbind outcome_bind].
    destruct (lookup_lt_is_Some_2 (Nullable.b (column.colNullable (DateTime.col c))) k
                ltac:(lia)) as [m Hm].
    unfold DateTime.ValueP.
    cbn [DateTime.col DateTime.set_col DateTime.set_val DateTime.val column.b column.i column.size
         column.set_i column.colNullable].
    rewrite Hsize. unfold DatetimeSize, max_int in *.
    rewrite int_add_small by lia.
    replace (column.i (DateTime.col c) + 4 + - (4)) with (4 * Z.of_nat k) by lia.
    rewrite int_quot_row4 by (unfold max_int; lia).
    cbn [of_option mbind outcome_bind]. rewrite index_nat, Hm.
    cbn [of_option mbind outcome_bind].
    rewrite (drop_S _ _ _ Hm). cbn [rowsT]. rewrite optional_rows_cons.
    rewrite Hi. replace (Z.to_nat (4 * Z.of_nat k)) with (4 * k)%nat by lia.
    replace (4 * k + 4)%nat with (4 * S k)%nat by lia.
    fold (nil_eq1 m).
    destruct (nil_eq1 m); cbn [mbind outcome_bind];
      match goal with
      | |- exists c', DateTime.NextP_loop ?f ?c1 ?o = _ =>
          destruct (IH f c1 o (S k)) as (c' & Hrun)
      end;
      cbn [DateTime.col DateTime.set_col DateTime.set_val column.b column.i column.size
           column.totalByte column.set_i column.colNullable] in *;
      try assumption; try lia;
      exists c'; rewrite Hrun, <- app_assoc; reflexivity.
Qed.

Lemma DateTime_nullable_reads_rows (c : DateTime.t) (n : nat) (value out : list (option time.Time)) :
  column.size (DateTime.col c) = DatetimeSize ->
  column.totalByte (DateTime.col c) = len (column.b (DateTime.col c)) ->
  len (column.b (DateTime.col c)) = DatetimeSize * Z.of_nat n ->
  len (column.b (DateTime.col c)) <= max_int ->
  column.i (DateTime.col c) = 0 ->
  (n <= length (Nullable.b (column.colNullable (DateTime.col c))))%nat ->
  length value = n ->
  let bitmap := Nullable.b (column.colNullable (DateTime.col c)) in
  let vals := rowsT (column.b (DateTime.col c)) 0 n in
  DateTime.ReadAllP c out = Done (c, out ++ optional_rows nil_ne0 bitmap vals)
  /\ (exists c', DateTime.NextP_loop (S n) c [] = Done (c', optional_rows nil_eq1 bitmap vals))
  /\ (exists c', DateTime.FillP value c = Done (c', optional_rows nil_eq1 bitmap vals)
                 /\ column.i (DateTime.col c') = column.totalByte (DateTime.col c)).
Proof.
  intros Hsize Htotal Hlen Hmax Hi Hbm Hv bitmap vals. unfold DatetimeSize in Hlen.
  split; [apply DateTime_ReadAllP_rows; try assumption; lia|].
  split.
  - destruct (DateTime_NextP_loop_rows n (S n) c [] 0) as (c' & Hrun);
      try assumption; try lia.
    exists c'. exact Hrun.
  - pose proof (DateTime_FillP_loop_rows value c [] 0 Hsize Hmax) as HF.
    rewrite Hv in HF. cbn [Nat.add app] in HF.
    eexists. unfold DateTime.FillP. rewrite HF by (try assumption; lia).
    split; [reflexivity|].
    cbn [DateTime.col DateTime.set_col column.i column.set_i]. lia.
Qed.

(** X15.  The three nullable reads of a DateTime block of [n] whole rows.
    [ReadAllP] returns nil for the rows whose bitmap byte is not 0, the
    [Next]/[ValueP] loop and [FillP] return nil for the rows whose bitmap
    byte is 1, and every other row is its decoded value; [ReadAllP] leaves
    the column as it was and [FillP] leaves the cursor at the end of the
    block.  When every bitmap byte of the block is 0 or 1 the three reads
    return the same optional values. *)
Theorem DateTime_nullable_reads (c : DateTime.t) (n : nat) (value out : list (option time.Time)) :
  column.size (DateTime.col c) = DatetimeSize ->
  column.totalByte (DateTime.col c) = len (column.b (DateTime.col c)) ->
  len (column.b (DateTime.col c)) = DatetimeSize * Z.of_nat n ->
  len (column.b (DateTime.col c)) <= max_int ->
  column.i (DateTime.col c) = 0 ->
  (n <= length (Nullable.b (column.colNullable (DateTime.col c))))%nat ->
  length value = n ->
  let bitmap := Nullable.b (column.colNullable (DateTime.col c)) in
  let vals := rowsT (column.b (DateTime.col c)) 0 n in
  DateTime.ReadAllP c out = Done (c, out ++ optional_rows nil_ne0 bitmap vals)
  /\ (exists c', DateTime.NextP_loop (S n) c [] = Done (c', optional_rows nil_eq1 bitmap vals))
  /\ (exists c', DateTime.FillP value c = Done (c', optional_rows nil_eq1 bitmap vals)
                 /\ column.i (DateTime.col c') = column.totalByte (DateTime.col c))
  /\ (Forall (fun m => m = Byte.x00 \/ m = Byte.x01) (take n bitmap) ->
      optional_rows nil_ne0 bitmap vals = optional_rows nil_eq1 bitmap vals).
Proof.
  intros Hsize Htotal Hlen Hmax Hi Hbm Hv bitmap vals.
  destruct (DateTime_nullable_reads_rows c n value out Hsize Htotal Hlen Hmax Hi Hbm Hv)
    as (HA & HS & HF).
  split; [exact HA|]. split; [exact HS|]. split; [exact HF|].
  apply (optional_rows_agree n). apply length_rowsT.
Qed.

(** ** Nullable round trip of a [DateTime] column *)

Lemma DateTime_AppendPAll_state (vs : list (option time.Time)) : forall c : DateTime.t,
  column.size (DateTime.col c) = DatetimeSize ->
  exists c',
    DateTime_AppendPAll vs c = Done c'
    /\ column.writerData (DateTime.col c')
       = column.writerData (DateTime.col c) ++ concat (map (le_split 4) (map stored_epochP vs))
    /\ Nullable.writerData (column.colNullable (DateTime.col c'))
       = Nullable.writerData (column.colNullable (DateTime.col c)) ++ map null_flag vs.
Proof.
  induction vs as [|v vs IH]; intros c Hsize.
  - exists c. cbn. rewrite !app_nil_r. auto.
  - cbn [DateTime_AppendPAll]. destruct v as [x|].
    + cbn [DateTime.AppendP].
      edestruct (DateTime_Append_bytes x) as (c1 & Hrun1 & Hw1 & Hs1);
        [|rewrite Hrun1]; [cbn; exact Hsize|].
      cbn [mbind outcome_bind].
      destruct (IH c1 Hs1) as (c' & Hrun & Hw & Hn). exists c'.
      split; [exact Hrun|]. rewrite Hw, Hn, Hw1.
      assert (Hb : Nullable.writerData (column.colNullable (DateTime.col c1))
                   = Nullable.writerData (column.colNullable (DateTime.col c)) ++ [Byte.x00]).
      { unfold DateTime.Append in Hrun1.
        destruct (_ <=? 0); cbn in Hrun1; [|injection Hrun1 as <-; reflexivity].
        rewrite Hsize in Hrun1. cbn in Hrun1. injection Hrun1 as <-. reflexivity. }
      rewrite Hb. cbn. rewrite <- !app_assoc. auto.
    + cbn [DateTime.AppendP]. unfold DateTime.AppendEmpty.
      cbn [DateTime.col DateTime.set_col column.size column.set_numRow].
      rewrite Hsize. cbn [of_option mbind outcome_bind].
      change (slice emptyByte 0 DatetimeSize) with (Some (le_split 4 0)).
      cbn [of_option mbind outcome_bind].
      edestruct IH as (c' & Hrun & Hw & Hn); [|exists c'; rewrite Hrun].
      { cbn. exact Hsize. }
      split; [reflexivity|]. rewrite Hw, Hn. cbn. rewrite <- !app_assoc. auto.
Qed.

Lemma optional_rows_read_back (isnil : byte -> bool) (vs : list (option time.Time)) :
  isnil Byte.x01 = true -> isnil Byte.x00 = false ->
  optional_rows isnil (map null_flag vs) (map instant (map stored_epochP vs))
  = map read_backP vs.
Proof.
  intros H1 H0. induction vs as [|[x|] vs IH]; [reflexivity| |];
    cbn [map null_flag stored_epochP read_backP]; rewrite optional_rows_cons, IH.
  - rewrite H0. reflexivity.
  - rewrite H1. reflexivity.
Qed.

(** X16.  Nullable round trip of the DateTime column.  [AppendP] of the
    optional instants [vs] on a fresh column succeeds, writing 4 value bytes
    and one bitmap byte per row; a column reading those two buffers gets
    from [ReadAllP], from the [Next]/[ValueP] loop and from [FillP] nil for
    every nil written and, for every instant written, the instant of whole
    seconds with the epoch put on the wire. *)
Theorem DateTime_AppendP_roundtrip (nullable : bool) (vs out : list (option time.Time))
    (r : DateTime.t) :
  4 * len vs <= max_int ->
  column.b (DateTime.col r) = concat (map (le_split 4) (map stored_epochP vs)) ->
  Nullable.b (column.colNullable (DateTime.col r)) = map null_flag vs ->
  column.size (DateTime.col r) = DatetimeSize ->
  column.totalByte (DateTime.col r) = len (column.b (DateTime.col r)) ->
  column.i (DateTime.col r) = 0 ->
  exists w : DateTime.t,
    DateTime_AppendPAll vs (DateTime.NewDateTime nullable) = Done w
    /\ column.writerData (DateTime.col w) = column.b (DateTime.col r)
    /\ Nullable.writerData (column.colNullable (DateTime.col w))
       = Nullable.b (column.colNullable (DateTime.col r))
    /\ DateTime.ReadAllP r out = Done (r, out ++ map read_backP vs)
    /\ (exists r', DateTime.NextP_loop (S (length vs)) r [] = Done (r', map read_backP vs))
    /\ (exists r', DateTime.FillP vs r = Done (r', map read_backP vs)).
Proof.
  intros Hmax Hb Hbm Hsize Htotal Hi.
  destruct (DateTime_AppendPAll_state vs (DateTime.NewDateTime nullable) eq_refl)
    as (w & Hrun & Hw & Hn).
  cbn [DateTime.NewDateTime DateTime.col column.writerData column.colNullable
       Nullable.newNullable Nullable.writerData app] in Hw, Hn.
  assert (Hlen : len (column.b (DateTime.col r)) = DatetimeSize * Z.of_nat (length vs)).
  { rewrite Hb. unfold len, DatetimeSize. clear. induction vs as [|v vs IH]; [reflexivity|].
    cbn [map concat]. rewrite length_app, length_le_split. cbn [length]. lia. }
  assert (Hmax' : len (column.b (DateTime.col r)) <= max_int)
    by (rewrite Hlen; unfold len in Hmax; exact Hmax).
  assert (Hrows : rowsT (column.b (DateTime.col r)) 0 (length vs)
                  = map instant (map stored_epochP vs)).
  { pose proof (rows32_le_split [] (map stored_epochP vs) []) as H.
    cbn [app length] in H. rewrite app_nil_r, length_map in H.
    rewrite rowsT_rows32, Hb, H; [reflexivity|].
    apply Forall_map, Forall_forall. intros [x|] _; cbn; [apply stored_epoch_range|lia]. }
  destruct (DateTime_nullable_reads_rows r (length vs) vs out Hsize Htotal Hlen Hmax' Hi)
    as (HA & (r1 & HS) & (r2 & HF & _)).
  { rewrite Hbm, length_map. lia. }
  { reflexivity. }
  rewrite Hrows, Hbm in HA, HS, HF.
  rewrite !optional_rows_read_back in HA, HS, HF by reflexivity.
  exists w. split; [exact Hrun|]. split; [congruence|]. split; [congruence|].
  split; [exact HA|]. split; eauto.
Qed.

(** ** The further properties on the sample blocks *)

Lemma ArrayNullable_DataP_ReadP_rows_witness :
  exists c1, ArrayNullable.DataP sample_reader = Done (sample_rows, c1).
Proof.
  eexists.
  refine (proj1 (ArrayNullable_DataP_ReadP_rows sample_rows sample_reader [] _ _ _));
    reflexivity.
Defined.

Lemma ArrayNullable_RowP_stable_witness :
  ArrayNullable.RowP 0 sample_reader = Done ([Some 10; Some 20], sample_reader).
Proof.
  refine (proj1 (ArrayNullable_RowP_stable sample_reader 0 [Some 10; Some 20]
                   sample_reader _)).
  reflexivity.
Defined.

Lemma ArrayNullable_Scan_converts_witness :
  ArrayNullable.Scan (Any := option (list (option Z))) Some index_Scan 0 1
    (ArrayNullable.PtrSlice (ArrayNullable.SliceU [])) two_row_reader
  = Done (None, ArrayNullable.PtrSlice (ArrayNullable.SliceU [2]), two_row_reader).
Proof.
  refine (proj1 (ArrayNullable_Scan_converts (Any := option (list (option Z))) Some
                   index_Scan 0 two_row_reader 1 2 3 (fun j => j) [] _ _ _ _ _ _ _)).
  - vm_compute. discriminate.
  - reflexivity.
  - reflexivity.
  - lia.
  - lia.
  - vm_compute. discriminate.
  - reflexivity.
Defined.

Lemma ArrayNullable_ToJSON_row_witness :
  ArrayNullable.ToJSON sample_RowIsNil sample_ToJSON 0 false [] two_row_reader
  = Done ([Byte.x5b; Byte.x37; Byte.x2c] ++ json_null ++ [Byte.x5d]).
Proof.
  refine (proj1 (ArrayNullable_ToJSON_row sample_RowIsNil sample_ToJSON two_row_reader
                   0 0 2 false (fun j => j =? 1) (fun _ => [Byte.x37]) [] _ _ _ _ _ _ _ _)).
  - vm_compute. discriminate.
  - reflexivity.
  - reflexivity.
  - lia.
  - lia.
  - vm_compute. discriminate.
  - reflexivity.
  - reflexivity.
Defined.

Lemma DateTime_roundtrip_witness :
  exists w : DateTime.t,
    DateTime_AppendAll sample_instants (DateTime.NewDateTime true) = Done w
    /\ DateTime.ReadAll instants_reader []
       = Done (instants_reader, [time.mk 0 0; time.mk 5 0; time.mk 100 0]).
Proof.
  destruct (DateTime_roundtrip true sample_instants [] instants_reader)
    as (w & Hrun & _ & Hall & _).
  - vm_compute. discriminate.
  - reflexivity.
  - reflexivity.
  - reflexivity.
  - reflexivity.
  - exists w. split; [exact Hrun|exact Hall].
Defined.

Lemma DateTime_Fill_then_Next_witness :
  exists (vs : list time.Time) (c1 c2 : DateTime.t),
    DateTime.ReadAll instants_reader [] = Done (instants_reader, vs)
    /\ DateTime.Fill [late_instant; late_instant] instants_reader = Done (c1, take 2 vs)
    /\ column.i (DateTime.col c1) = 8
    /\ DateTime.Next_loop 4 c1 [] = Done (c2, drop 2 vs).
Proof.
  refine (DateTime_Fill_then_Next instants_reader 3 [late_instant; late_instant]
            _ _ _ _ _ _).
  - reflexivity.
  - reflexivity.
  - reflexivity.
  - vm_compute. discriminate.
  - reflexivity.
  - simpl. lia.
Defined.

Lemma DateTime_nullable_reads_witness :
  DateTime.ReadAllP instants_reader []
  = Done (instants_reader, [Some (time.mk 0 0); None; Some (time.mk 100 0)]).
Proof.
  refine (proj1 (DateTime_nullable_reads instants_reader 3 [None; None; None] []
                   _ _ _ _ _ _ _)).
  - reflexivity.
  - reflexivity.
  - reflexivity.
  - vm_compute. discriminate.
  - reflexivity.
  - simpl. lia.
  - reflexivity.
Defined.

Lemma DateTime_AppendP_roundtrip_witness :
  exists w : DateTime.t,
    DateTime_AppendPAll sample_instantsP (DateTime.NewDateTime true) = Done w
    /\ DateTime.ReadAllP instantsP_reader []
       = Done (instantsP_reader, [Some (time.mk 5 0); None; Some (time.mk 100 0)]).
Proof.
  destruct (DateTime_AppendP_roundtrip true sample_instantsP [] instantsP_reader)
    as (w & Hrun & _ & _ & HA & _).
  - vm_compute. discriminate.
  - reflexivity.
  - reflexivity.
  - reflexivity.
  - reflexivity.
  - reflexivity.
  - exists w. split; [exact Hrun|exact HA].
Defined.
